(** * Bag-of-cells codec of tongo ([boc] package): model and properties

    The Go code of [boc/boc.go] and [boc/cell.go] is embedded as executable
    Rocq functions.  Cells live in a heap and are addressed by pointers, so
    that the aliasing created by [DeserializeBoc] and [AddReference] is
    visible; the recursive Go functions carry a recursion budget ([fuel])
    and every function returns a [result] that tells a returned value from a
    returned [error], a run-time panic and a recursion that does not end. *)

From Stdlib Require Import ZArith Lia List Ascii String.
From stdpp Require Import gmap strings list.

Set Warnings "-register-all".
Local Open Scope Z_scope.

(** ** Outcomes of a Go call *)

Inductive result (A : Type) : Type :=
| Ok (a : A)
| Err (msg : string)
| Panic (msg : string)
| NoFuel.
Arguments Ok {A} a.
Arguments Err {A} msg.
Arguments Panic {A} msg.
Arguments NoFuel {A}.

#[export] Instance result_ret : MRet result := @Ok.
#[export] Instance result_bind : MBind result := fun A B k r =>
  match r with
  | Ok a => k a
  | Err m => Err m
  | Panic m => Panic m
  | NoFuel => NoFuel
  end.
#[export] Instance result_fmap : FMap result := fun A B g r =>
  match r with
  | Ok a => Ok (g a)
  | Err m => Err m
  | Panic m => Panic m
  | NoFuel => NoFuel
  end.

Fixpoint foldM {A B : Type} (f : B -> A -> result B) (b : B) (l : list A)
  : result B :=
  match l with
  | [] => Ok b
  | x :: l' => b' ← f b x; foldM f b' l'
  end.

(** ** Machine integers and bytes

    A byte is a [Z] in [0, 256); Go's [uint] and [int] are 64 bits wide. *)

Definition byte (x : Z) : Z := x mod 256.
Definition uint (x : Z) : Z := x mod 2 ^ 64.
Definition int (x : Z) : Z := (x + 2 ^ 63) mod 2 ^ 64 - 2 ^ 63.
Definition uint16 (x : Z) : Z := x mod 2 ^ 16.
Definition uint32 (x : Z) : Z := x mod 2 ^ 32.

Definition is_byte (b : Z) : Prop := 0 <= b < 256.
Definition bytes_ok (l : list Z) : Prop := Forall is_byte l.

Definition len {A : Type} (l : list A) : Z := Z.of_nat (length l).

(** [math/bits.Len]: the number of bits needed to represent [x]. *)
Definition bits_Len (x : Z) : Z := if x <=? 0 then 0 else Z.log2 x + 1.

(** [arr[i]], [arr[lo:]] and [arr[0:hi]] with Go's bounds checks. *)
Definition index {A : Type} (arr : list A) (i : Z) : result A :=
  if (0 <=? i) && (i <? len arr)
  then match arr !! Z.to_nat i with
       | Some x => Ok x
       | None => Panic "index out of range"
       end
  else Panic "index out of range".

Definition slice_from {A : Type} (arr : list A) (lo : Z) : result (list A) :=
  if (0 <=? lo) && (lo <=? len arr)
  then Ok (drop (Z.to_nat lo) arr)
  else Panic "slice bounds out of range".

Definition slice_to {A : Type} (arr : list A) (hi : Z) : result (list A) :=
  if (0 <=? hi) && (hi <=? len arr)
  then Ok (take (Z.to_nat hi) arr)
  else Panic "slice bounds out of range".

(** [binary.BigEndian.PutUint16] and [binary.LittleEndian] on 32 bits. *)
Definition PutUint16_be (v : Z) : list Z := [byte (v / 256); byte v].
Definition PutUint32_le (v : Z) : list Z :=
  [byte v; byte (v / 2 ^ 8); byte (v / 2 ^ 16); byte (v / 2 ^ 24)].
Definition Uint32_le (b : list Z) : Z :=
  match b with
  | b0 :: b1 :: b2 :: b3 :: _ => b0 + 2 ^ 8 * b1 + 2 ^ 16 * b2 + 2 ^ 24 * b3
  | _ => 0
  end.

(** ** [crypto/sha256.Sum256] (FIPS 180-4) *)

Module SHA256.

(** The round constants (from 0x428a2f98 to 0xc67178f2) and the initial
    hash value (from 0x6a09e667 to 0x5be0cd19), in decimal. *)
Definition K : list Z :=
  [1116352408; 1899447441; 3049323471; 3921009573; 961987163;
   1508970993; 2453635748; 2870763221; 3624381080; 310598401;
   607225278; 1426881987; 1925078388; 2162078206; 2614888103;
   3248222580; 3835390401; 4022224774; 264347078; 604807628;
   770255983; 1249150122; 1555081692; 1996064986; 2554220882;
   2821834349; 2952996808; 3210313671; 3336571891; 3584528711;
   113926993; 338241895; 666307205; 773529912; 1294757372;
   1396182291; 1695183700; 1986661051; 2177026350; 2456956037;
   2730485921; 2820302411; 3259730800; 3345764771; 3516065817;
   3600352804; 4094571909; 275423344; 430227734; 506948616;
   659060556; 883997877; 958139571; 1322822218; 1537002063;
   1747873779; 1955562222; 2024104815; 2227730452; 2361852424;
   2428436474; 2756734187; 3204031479; 3329325298].

Definition H0 : list Z :=
  [1779033703; 3144134277; 1013904242; 2773480762; 1359893119;
   2600822924; 528734635; 1541459225].

Definition add32 (x y : Z) : Z := Z.land (x + y) 0xffffffff.
Definition rotr (n x : Z) : Z :=
  Z.lor (Z.shiftr x n) (Z.land (Z.shiftl x (32 - n)) 0xffffffff).
Definition not32 (x : Z) : Z := Z.lxor x 0xffffffff.

Definition Ch (x y z : Z) : Z := Z.lxor (Z.land x y) (Z.land (not32 x) z).
Definition Maj (x y z : Z) : Z :=
  Z.lxor (Z.lxor (Z.land x y) (Z.land x z)) (Z.land y z).
Definition Sigma0 (x : Z) : Z := Z.lxor (Z.lxor (rotr 2 x) (rotr 13 x)) (rotr 22 x).
Definition Sigma1 (x : Z) : Z := Z.lxor (Z.lxor (rotr 6 x) (rotr 11 x)) (rotr 25 x).
Definition sigma0 (x : Z) : Z := Z.lxor (Z.lxor (rotr 7 x) (rotr 18 x)) (Z.shiftr x 3).
Definition sigma1 (x : Z) : Z := Z.lxor (Z.lxor (rotr 17 x) (rotr 19 x)) (Z.shiftr x 10).

(** Message padding: a one bit, zeros, and the bit length on 64 bits. *)
Definition be64 (v : Z) : list Z :=
  map (fun i => byte (Z.shiftr v (8 * (7 - Z.of_nat i)))) (seq 0 8).

Definition pad (msg : list Z) : list Z :=
  let l := len msg in
  let k := (55 - l) mod 64 in
  msg ++ [0x80] ++ repeat 0 (Z.to_nat k) ++ be64 (8 * l).

Fixpoint words (n : nat) (bs : list Z) : list Z :=
  match n with
  | O => []
  | S n' =>
      match bs with
      | a :: b :: c :: d :: rest =>
          (((a * 256 + b) * 256 + c) * 256 + d) :: words n' rest
      | _ => []
      end
  end.

(** The message schedule, kept newest word first:
    [w] holds W(t-1), W(t-2), ..., W(t-16). *)
Definition next_word (w : list Z) : Z :=
  match w with
  | w1 :: w2 :: _ :: _ :: _ :: _ :: w7 :: _ :: _ :: _ :: _ :: _ :: _ :: _ :: w15 :: w16 :: _ =>
      add32 (add32 (sigma1 w2) w7) (add32 (sigma0 w15) w16)
  | _ => 0
  end.

Fixpoint schedule (n : nat) (w : list Z) (acc : list Z) : list Z :=
  match n with
  | O => rev acc
  | S n' =>
      let x := next_word w in
      schedule n' (x :: firstn 15 w) (x :: acc)
  end.

Definition round (st : list Z) (kw : Z * Z) : list Z :=
  match st with
  | [a; b; c; d; e; f; g; h] =>
      let t1 := add32 (add32 (add32 h (Sigma1 e)) (add32 (Ch e f g) (fst kw))) (snd kw) in
      let t2 := add32 (Sigma0 a) (Maj a b c) in
      [add32 t1 t2; a; b; c; add32 d t1; e; f; g]
  | _ => st
  end.

Definition compress (hs : list Z) (block : list Z) : list Z :=
  let w16 := words 16 block in
  let w := w16 ++ schedule 48 (rev w16) [] in
  let st := fold_left round (combine K w) hs in
  map (fun p => add32 (fst p) (snd p)) (combine hs st).

Fixpoint blocks (n : nat) (hs : list Z) (bs : list Z) : list Z :=
  match n with
  | O => hs
  | S n' => blocks n' (compress hs (firstn 64 bs)) (skipn 64 bs)
  end.

Definition word_bytes (w : Z) : list Z :=
  [byte (w / 2 ^ 24); byte (w / 2 ^ 16); byte (w / 2 ^ 8); byte w].

Definition Sum256 (msg : list Z) : list Z :=
  let p := pad msg in
  concat (map word_bytes (blocks (length p / 64) H0 p)).

End SHA256.

(** ** [hash/crc32] with the Castagnoli polynomial

    [Checksum data tab] is [^update(^0, data)]; the table-driven update of
    one byte equals eight steps of the reflected bitwise division. *)

Module CRC32.

Definition Castagnoli : Z := 0x82f63b78.

Definition step (poly : Z) (c : Z) : Z :=
  if Z.odd c then Z.lxor (Z.shiftr c 1) poly else Z.shiftr c 1.

Definition update_byte (poly : Z) (c : Z) (b : Z) : Z :=
  Nat.iter 8 (step poly) (Z.lxor c b).

Definition Checksum (data : list Z) (poly : Z) : Z :=
  Z.lxor (fold_left (update_byte poly) data 0xffffffff) 0xffffffff.

End CRC32.

Definition crcTable : Z := CRC32.Castagnoli.

(** ** [encoding/hex.EncodeToString] *)

Definition hex_digit (n : Z) : ascii :=
  if n <? 10 then ascii_of_nat (Z.to_nat (48 + n))
  else ascii_of_nat (Z.to_nat (87 + n)).

Fixpoint hex_EncodeToString (bs : list Z) : string :=
  match bs with
  | [] => EmptyString
  | b :: bs' =>
      String (hex_digit (b / 16)) (String (hex_digit (b mod 16)) (hex_EncodeToString bs'))
  end.

(** ** Bit buffer

    Modelled from the spec: the [BitString] type of the package (its source
    file is not among the sources at hand), after sections 3 and 4.1 of the
    specification.  A buffer has a fixed bit capacity and the sequence of
    bits written so far; the cursor is the number of written bits and the
    byte storage [buf], sized to the capacity, holds them most significant
    bit first, zero beyond the cursor. *)

Record BitString := mkBitString { capacity : Z; written : list bool }.

Definition bits_value (bs : list bool) : Z :=
  fold_left (fun a (b : bool) => 2 * a + (if b then 1 else 0)) bs 0.

Definition uint_bits (val : Z) (n : nat) : list bool :=
  map (fun i => Z.testbit val (Z.of_nat i)) (rev (seq 0 n)).

Fixpoint bytes_of_bits (bs : list bool) : list Z :=
  match bs with
  | [] => []
  | b7 :: b6 :: b5 :: b4 :: b3 :: b2 :: b1 :: b0 :: rest =>
      bits_value [b7; b6; b5; b4; b3; b2; b1; b0] :: bytes_of_bits rest
  | _ => [bits_value (take 8 (bs ++ replicate 8 false))]
  end.

Definition bits_of_bytes (bs : list Z) : list bool :=
  concat (map (fun b => uint_bits b 8) bs).

Definition NewBitString (bitLen : Z) : BitString :=
  {| capacity := bitLen; written := [] |}.

Definition Cursor (s : BitString) : Z := len (written s).

Definition buf (s : BitString) : list Z :=
  bytes_of_bits
    (written s ++
     replicate (Z.to_nat (8 * ((capacity s + 7) / 8)) - length (written s)) false).

(** Appending bits fails, and leaves the buffer as it is, when the bits do
    not fit the capacity. *)
Definition WriteBitArray (s : BitString) (bs : list bool)
  : BitString * option string :=
  if Cursor s + len bs <=? capacity s
  then ({| capacity := capacity s; written := written s ++ bs |}, None)
  else (s, Some "BitString overflow"%string).

Definition WriteUint (s : BitString) (val : Z) (bitLen : Z)
  : BitString * option string :=
  WriteBitArray s (uint_bits val (Z.to_nat bitLen)).

Definition WriteBytes (s : BitString) (bytes : list Z)
  : BitString * option string :=
  WriteBitArray s (bits_of_bytes bytes).

(** Export: whole bytes; a buffer that does not end on a byte boundary gets
    one terminator bit and zero fill. *)
Definition top_upped (bits : list bool) : list Z :=
  if len bits mod 8 =? 0
  then bytes_of_bits bits
  else bytes_of_bits (bits ++ [true]).

Definition GetTopUppedArray (s : BitString) : result (list Z) :=
  Ok (top_upped (written s)).

(** Import: the inverse.  For a buffer that is not byte aligned the bit
    count ends before the last set bit; [strip_terminator] works on the
    reversed bit sequence. *)
Fixpoint strip_terminator (rbits : list bool) : option (list bool) :=
  match rbits with
  | [] => None
  | true :: rest => Some rest
  | false :: rest => strip_terminator rest
  end.

Definition SetTopUppedArray (s : BitString) (arr : list Z) (fullfilledBytes : bool)
  : BitString * option string :=
  let bits := bits_of_bytes arr in
  let whole := {| capacity := 8 * len arr; written := bits |} in
  if fullfilledBytes || (len arr =? 0) then (whole, None)
  else match strip_terminator (rev bits) with
       | Some rest => ({| capacity := 8 * len arr; written := rev rest |}, None)
       | None => (whole, Some "incorrect top-upped array"%string)
       end.

(** ** Cells ([cell.go])

    A [*Cell] is an address in the heap; a [nil] slot of [refs] is [None]. *)

Abbreviation ptr := nat.

Record Cell := mkCell {
  Bits : BitString;
  isExotic : bool;
  refs : list (option ptr)
}.

Abbreviation heap := (list Cell).

Definition deref (h : heap) (p : ptr) : result Cell :=
  match h !! p with
  | Some c => Ok c
  | None => Panic "invalid memory address or nil pointer dereference"
  end.

Definition alloc (h : heap) (c : Cell) : heap * ptr := (h ++ [c], length h).

Definition NewCell : Cell :=
  {| Bits := NewBitString 1023; refs := replicate 4 None; isExotic := false |}.

Definition NewCellExotic : Cell :=
  {| Bits := NewBitString 1023; refs := replicate 4 None; isExotic := true |}.

Definition Refs (c : Cell) : list ptr :=
  fold_left (fun res ref => match ref with Some r => res ++ [r] | None => res end)
            (refs c) [].

Definition RefsSize (c : Cell) : Z := len (Refs c).

Definition IsExotic (c : Cell) : bool := isExotic c.

Definition BitSize (c : Cell) : Z := Cursor (Bits c).

Definition set_refs (c : Cell) (rs : list (option ptr)) : Cell :=
  {| Bits := Bits c; isExotic := isExotic c; refs := rs |}.

Definition set_Bits (c : Cell) (b : BitString) : Cell :=
  {| Bits := b; isExotic := isExotic c; refs := refs c |}.

(** [AddReference] returns the receiver and an error; the model returns the
    heap after the call and the error. *)
Definition AddReference (h : heap) (c : ptr) (c2 : option ptr)
  : result (heap * option string) :=
  cell ← deref h c;
  if RefsSize cell =? 4
  then Ok (h, Some "cell references are filled"%string)
  else Ok (<[c := set_refs cell (refs cell ++ [c2])]> h, None).

(** ** Hashing ([boc.go]) *)

Definition go_copy (dst src : list Z) : list Z :=
  take (length dst) src ++ drop (length src) dst.

Definition bocReprWithoutRefs (cell : Cell) : list Z :=
  let d1 := byte (RefsSize cell) in
  let d2 := byte ((BitSize cell + 7) / 8 + BitSize cell / 8) in
  let res :=
    d1 :: d2 ::
    go_copy (replicate (Z.to_nat ((BitSize cell + 7) / 8)) 0) (buf (Bits cell)) in
  if negb (BitSize cell mod 8 =? 0)
  then alter (fun b => Z.lor b (byte (Z.shiftl 1 (7 - BitSize cell mod 8))))
             (length res - 1)%nat res
  else res.

Fixpoint getMaxDepth (fuel : nat) (h : heap) (cell : ptr) : result Z :=
  match fuel with
  | O => NoFuel
  | S f =>
      c ← deref h cell;
      if 0 <? RefsSize c
      then
        maxDepth ← foldM (fun maxDepth ref =>
                            d ← getMaxDepth f h ref;
                            if maxDepth <? d then getMaxDepth f h ref
                            else Ok maxDepth)
                         0 (Refs c);
        Ok (maxDepth + 1)
      else Ok 0
  end.

Fixpoint hashRepr (fuel : nat) (h : heap) (cell : ptr) : result (list Z) :=
  match fuel with
  | O => NoFuel
  | S f =>
      c ← deref h cell;
      let res := bocReprWithoutRefs c in
      res ← foldM (fun res r =>
                     d ← getMaxDepth f h r;
                     Ok (res ++ PutUint16_be (uint16 d)))
                  res (Refs c);
      foldM (fun res r =>
               hr ← hashRepr f h r;
               Ok (res ++ SHA256.Sum256 hr))
            res (Refs c)
  end.

Definition hashCell (fuel : nat) (h : heap) (cell : ptr) : result (list Z) :=
  SHA256.Sum256 <$> hashRepr fuel h cell.

Definition Hash (fuel : nat) (h : heap) (c : ptr) : result (list Z) :=
  hashCell fuel h c.

Definition HashString (fuel : nat) (h : heap) (c : ptr) : result string :=
  hex_EncodeToString <$> hashCell fuel h c.

(** ** Topological order *)

Fixpoint topologicalSortImpl (fuel : nat) (h : heap) (cell : ptr)
    (seen : gmap string bool) : result (list ptr * gmap string bool) :=
  match fuel with
  | O => NoFuel
  | S f =>
      let res := [cell] in
      hash ← HashString f h cell;
      if bool_decide (seen !! hash = Some true)
      then Err "circular references are not allowed"
      else
        let seen := <[hash := true]> seen in
        c ← deref h cell;
        foldM (fun (st : list ptr * gmap string bool) ref =>
                 r2 ← topologicalSortImpl f h ref (snd st);
                 Ok (fst st ++ fst r2, snd r2))
              (res, seen) (Refs c)
  end.

Definition topologicalSort (fuel : nat) (h : heap) (cell : ptr)
  : result (list ptr * gmap string Z) :=
  r ← topologicalSortImpl fuel h cell ∅;
  let res := fst r in
  indexesMap ← foldM (fun (m : gmap string Z) (ic : nat * ptr) =>
                        hs ← HashString fuel h (snd ic);
                        Ok (<[hs := Z.of_nat (fst ic)]> m))
                     ∅ (imap (fun i c => (i, c)) res);
  Ok (res, indexesMap).

Definition map_index (indexesMap : gmap string Z) (k : string) : Z :=
  default 0 (indexesMap !! k).

Definition bocRepr (fuel : nat) (h : heap) (c : ptr) (indexesMap : gmap string Z)
  : result (list Z) :=
  cell ← deref h c;
  foldM (fun res ref =>
           hs ← HashString fuel h ref;
           Ok (res ++ [byte (map_index indexesMap hs)]))
        (bocReprWithoutRefs cell) (Refs cell).

(** ** Serialization *)

Definition reachBocMagicPrefix : list Z := [0xb5; 0xee; 0x9c; 0x72].
Definition leanBocMagicPrefix : list Z := [0x68; 0xff; 0x65; 0xf3].
Definition leanBocMagicPrefixCRC : list Z := [0xac; 0xc3; 0xa7; 0x28].

(** [math.Ceil(float64(n)/8)] for a bit count [n]. *)
Definition ceil8 (n : Z) : Z := (n + 7) / 8.

(** The two width computations of [SerializeBoc]: the first takes the
    minimum with one, the second the maximum. *)
Definition sBytes_of (cellsNum : Z) : Z :=
  let sBits := bits_Len (uint cellsNum) in
  Z.min (ceil8 sBits) 1.

Definition offsetBytes_of (fullSize : Z) : Z :=
  let offsetBits := bits_Len (uint fullSize) in
  Z.max (ceil8 offsetBits) 1.

Definition SerializeBoc (fuel : nat) (h : heap) (cell : ptr)
    (idx hasCrc32 cacheBits : bool) (flags : Z) : result (list Z) :=
  let rootCell := cell in
  ts ← topologicalSort fuel h rootCell;
  let allCells := fst ts in
  let indexesMap := snd ts in
  let cellsNum := len allCells in
  let sBytes := sBytes_of cellsNum in
  sz ← foldM (fun (st : Z * list Z) cell =>
                r ← bocRepr fuel h cell indexesMap;
                Ok (fst st + len r, snd st ++ [fst st]))
             (0, []) allCells;
  let fullSize := fst sz in
  let sizeIndex := snd sz in
  let offsetBytes := offsetBytes_of fullSize in
  let serStr := NewBitString ((1023 + 32 * 4 + 32 * 3) * cellsNum) in
  let serStr := fst (WriteBytes serStr reachBocMagicPrefix) in
  let serStr := fst (WriteBitArray serStr [idx; hasCrc32; cacheBits]) in
  let serStr := fst (WriteUint serStr flags 2) in
  let serStr := fst (WriteUint serStr sBytes 3) in
  let serStr := fst (WriteUint serStr offsetBytes 8) in
  let serStr := fst (WriteUint serStr cellsNum (sBytes * 8)) in
  let serStr := fst (WriteUint serStr 1 (sBytes * 8)) in
  let serStr := fst (WriteUint serStr 0 (sBytes * 8)) in
  let serStr := fst (WriteUint serStr fullSize (offsetBytes * 8)) in
  let serStr := fst (WriteUint serStr 0 (sBytes * 8)) in
  serStr ← (if idx
            then foldM (fun s (i : nat) =>
                          o ← index sizeIndex (Z.of_nat i);
                          Ok (fst (WriteUint s o (offsetBytes * 8))))
                       serStr (seq 0 (length allCells))
            else Ok serStr);
  serStr ← foldM (fun s cell =>
                    r ← bocRepr fuel h cell indexesMap;
                    Ok (fst (WriteBytes s r)))
                 serStr allCells;
  resBytes ← GetTopUppedArray serStr;
  if hasCrc32
  then Ok (resBytes ++ PutUint32_le (CRC32.Checksum resBytes CRC32.Castagnoli))
  else Ok resBytes.

Definition ToBoc (fuel : nat) (h : heap) (c : ptr) : result (list Z) :=
  SerializeBoc fuel h c true true false 0.

Definition ToBocCustom (fuel : nat) (h : heap) (c : ptr)
    (idx hasCrc32 cacheBits : bool) (flags : Z) : result (list Z) :=
  SerializeBoc fuel h c idx hasCrc32 cacheBits flags.

(** The error of [ToBocCustom] is returned with the empty string; the model
    returns the error alone. *)
Definition ToBocStringCustom (fuel : nat) (h : heap) (c : ptr)
    (idx hasCrc32 cacheBits : bool) (flags : Z) : result string :=
  match ToBocCustom fuel h c idx hasCrc32 cacheBits flags with
  | Ok boc => Ok (hex_EncodeToString boc)
  | Err e => Err e
  | Panic m => Panic m
  | NoFuel => NoFuel
  end.

Definition ToBocString (fuel : nat) (h : heap) (c : ptr) : result string :=
  ToBocStringCustom fuel h c true true false 0.

(** ** Parsing *)

Definition ByteArrayEquals (a b : list Z) : bool :=
  if negb (length a =? length b)%nat then false
  else forallb (fun p => fst p =? snd p) (combine a b).

Fixpoint readNBytes_loop (k : nat) (i : Z) (res : Z) (arr : list Z) : result Z :=
  match k with
  | O => Ok res
  | S k' =>
      b ← index arr i;
      readNBytes_loop k' (i + 1) (uint (uint (res * 256) + b)) arr
  end.

Definition readNBytesUIntFromArray (n : Z) (arr : list Z) : result Z :=
  readNBytes_loop (Z.to_nat n) 0 0 arr.

Record bocHeader := mkBocHeader {
  hasIdx : bool;
  hashCrc32 : bool;
  hasCacheBits : bool;
  flags : Z;
  sizeBytes : Z;
  cellsNum : Z;
  rootsNum : Z;
  absentNum : Z;
  totCellsSize : Z;
  rootList : list Z;
  index_ : list Z;
  cellsData : list Z
}.

(** [for i := 0; i < count; i++ { l = append(l, readNBytesUIntFromArray(n, boc)); boc = boc[n:] }] *)
Fixpoint read_uints (count : nat) (n : Z) (boc : list Z) (l : list Z)
  : result (list Z * list Z) :=
  match count with
  | O => Ok (l, boc)
  | S count' =>
      v ← readNBytesUIntFromArray n boc;
      boc' ← slice_from boc n;
      read_uints count' n boc' (l ++ [v])
  end.

(** The flag and width fields selected by the magic prefix. *)
Definition parse_flags (prefix boc : list Z)
  : result (bool * bool * bool * Z * Z) :=
  if ByteArrayEquals prefix reachBocMagicPrefix then
    flagsByte ← index boc 0;
    Ok (0 <? Z.land flagsByte 128, 0 <? Z.land flagsByte 64,
        0 <? Z.land flagsByte 32,
        byte (byte (Z.land flagsByte 16 * 2) + Z.land flagsByte 8),
        flagsByte mod 8)
  else if ByteArrayEquals prefix leanBocMagicPrefix then
    b ← index boc 0; Ok (true, false, false, 0, b)
  else if ByteArrayEquals prefix leanBocMagicPrefixCRC then
    b ← index boc 0; Ok (true, true, false, 0, b)
  else Err "unknown magic prefix".

(** [parseBocHeader], with the checksum routine as a parameter; the copy
    [originalBoc] of the input is kept apart from the slice [boc] that the
    parser advances. *)
Definition parseBocHeaderFrom (checksum : list Z -> Z) (originalBoc boc : list Z)
  : result bocHeader :=
  if len boc <? 4 + 1 then Err "not enough bytes for magic prefix" else
  prefix ← slice_to boc 4;
  boc ← slice_from boc 4;
  fl ← parse_flags prefix boc;
  let '(hasIdx, hashCrc32, hasCacheBits, flags, sizeBytes) := fl in
  boc ← slice_from boc 1;
  if len boc <? 1 + 5 * sizeBytes
  then Err "not enough bytes for encoding cells counters" else
  offsetBytes ← index boc 0;
  boc ← slice_from boc 1;
  cellsNum ← readNBytesUIntFromArray sizeBytes boc;
  boc ← slice_from boc sizeBytes;
  rootsNum ← readNBytesUIntFromArray sizeBytes boc;
  boc ← slice_from boc sizeBytes;
  absentNum ← readNBytesUIntFromArray sizeBytes boc;
  boc ← slice_from boc sizeBytes;
  totCellsSize ← readNBytesUIntFromArray offsetBytes boc;
  boc ← slice_from boc offsetBytes;
  if len boc <? int (int rootsNum * sizeBytes)
  then Err "not enough bytes for encoding root cells hashes" else
  rl ← read_uints (Z.to_nat (int rootsNum)) sizeBytes boc [];
  let rootList := fst rl in
  let boc := snd rl in
  ix ← (if hasIdx then
          if len boc <? int (offsetBytes * int cellsNum)
          then Err "not enough bytes for index encoding"
          else read_uints (Z.to_nat (int cellsNum)) offsetBytes boc []
        else Ok ([], boc));
  let index := fst ix in
  let boc := snd ix in
  if len boc <? int totCellsSize
  then Err "not enough bytes for cells data" else
  cellsData ← slice_to boc totCellsSize;
  boc ← slice_from boc totCellsSize;
  boc ← (if hashCrc32 then
           if len boc <? 4 then Err "not enough bytes for crc32c hashsum" else
           trailer ← slice_to boc 4;
           body ← slice_to originalBoc (len originalBoc - 4);
           if negb (Uint32_le trailer =? checksum body)
           then Err "crc32c hashsum mismatch"
           else slice_from boc 4
         else Ok boc);
  if 0 <? len boc then Err "too much bytes in provided boc" else
  Ok (mkBocHeader hasIdx hashCrc32 hasCacheBits flags sizeBytes cellsNum
        rootsNum absentNum totCellsSize rootList index cellsData).

Definition parseBocHeaderWith (checksum : list Z -> Z) (boc : list Z)
  : result bocHeader :=
  let originalBoc := boc in
  parseBocHeaderFrom checksum originalBoc boc.

Definition parseBocHeader (boc : list Z) : result bocHeader :=
  parseBocHeaderWith (fun data => CRC32.Checksum data crcTable) boc.

Definition deserializeCellData (cellData : list Z) (referenceIndexSize : Z)
  : result (Cell * list Z * list Z) :=
  if len cellData <? 2
  then Err "not enough bytes to encode cell descriptors" else
  d1 ← index cellData 0;
  d2 ← index cellData 1;
  cellData ← slice_from cellData 2;
  let isExotic := 0 <? Z.land d1 8 in
  let refNum := d1 mod 8 in
  let dataBytesSize := (d2 + 1) / 2 in
  let fullfilledBytes := negb (0 <? d2 mod 2) in
  let cell := if isExotic then NewCellExotic else NewCell in
  if len cellData <? dataBytesSize + referenceIndexSize * refNum
  then Err "not enough bytes to encode cell data" else
  data ← slice_to cellData dataBytesSize;
  let cell := set_Bits cell (fst (SetTopUppedArray (Bits cell) data fullfilledBytes)) in
  cellData ← slice_from cellData dataBytesSize;
  rr ← read_uints (Z.to_nat refNum) referenceIndexSize cellData [];
  Ok (cell, map int (fst rr), snd rr).

(** [v, _ := f()]: the error is dropped and [v] is [nil] when [f] failed. *)
Definition drop_error {A : Type} (r : result A) : result (option A) :=
  match r with
  | Ok a => Ok (Some a)
  | Err _ => Ok None
  | Panic m => Panic m
  | NoFuel => NoFuel
  end.

Definition nonnil {A : Type} (o : option A) : result A :=
  match o with
  | Some a => Ok a
  | None => Panic "invalid memory address or nil pointer dereference"
  end.

(** The first loop of [DeserializeBoc]: the cells are allocated in stream
    order; a failed descriptor leaves a [nil] cell, no references and an
    empty residue. *)
Fixpoint read_cells (count : nat) (h : heap) (cellsData : list Z) (size : Z)
    (cellsArray : list (option ptr)) (refsArray : list (list Z))
  : result (heap * list (option ptr) * list (list Z)) :=
  match count with
  | O => Ok (h, cellsArray, refsArray)
  | S count' =>
      r ← drop_error (deserializeCellData cellsData size);
      match r with
      | Some (cell, rs, residue) =>
          let hp := alloc h cell in
          read_cells count' (fst hp) residue size
                     (cellsArray ++ [Some (snd hp)]) (refsArray ++ [rs])
      | None =>
          read_cells count' h [] size (cellsArray ++ [None]) (refsArray ++ [[]])
      end
  end.

(** [cellsArray[i].refs[ri] = cellsArray[r]] for the references [c] of cell
    [i], from slot [ri] on. *)
Fixpoint link_refs (h : heap) (cellsArray : list (option ptr)) (i : Z)
    (ri : Z) (c : list Z) : result heap :=
  match c with
  | [] => Ok h
  | r :: c' =>
      if r <? i then Err "topological order is broken" else
      target ← index cellsArray i;
      p ← nonnil target;
      cell ← deref h p;
      v ← index cellsArray r;
      if len (refs cell) <=? ri then Panic "index out of range" else
      link_refs (<[p := set_refs cell (<[Z.to_nat ri := v]> (refs cell))]> h)
                cellsArray i (ri + 1) c'
  end.

(** [for i := k - 1; i >= 0; i--] over the cells. *)
Fixpoint link_cells (k : nat) (h : heap) (cellsArray : list (option ptr))
    (refsArray : list (list Z)) : result heap :=
  match k with
  | O => Ok h
  | S k' =>
      let i := Z.of_nat k' in
      c ← index refsArray i;
      h' ← link_refs h cellsArray i 0 c;
      link_cells k' h' cellsArray refsArray
  end.

Definition DeserializeBoc (boc : list Z) : result (heap * list (option ptr)) :=
  hd ← drop_error (parseBocHeader boc);
  header ← nonnil hd;
  let cellsData := cellsData header in
  rc ← read_cells (Z.to_nat (int (cellsNum header))) [] cellsData
                  (sizeBytes header) [] [];
  let '(h, cellsArray, refsArray) := rc in
  h ← link_cells (Z.to_nat (int (uint (cellsNum header - 1)) + 1)) h
                 cellsArray refsArray;
  rootCells ← foldM (fun rootCells item =>
                       c ← index cellsArray item;
                       Ok (rootCells ++ [c]))
                    [] (rootList header);
  Ok (h, rootCells).

(** ** Finite unfoldings of a cell graph

    A cell graph without cycles unfolds, from a root, into a finite tree of
    (address, cell) pairs; a cell shared by two parents occurs twice in the
    unfolding.  The functions below compute on the unfolding what the Go
    code computes by following pointers; they are used to state and prove
    the properties, the code itself is modelled above. *)

Inductive tree : Type :=
| Node (addr : ptr) (cell : Cell) (children : list tree).

Definition taddr (t : tree) : ptr := match t with Node p _ _ => p end.
Definition tcell (t : tree) : Cell := match t with Node _ c _ => c end.
Definition tchildren (t : tree) : list tree := match t with Node _ _ ch => ch end.

Inductive unfolds (h : heap) : tree -> Prop :=
| unfolds_node p c ch :
    h !! p = Some c ->
    map taddr ch = Refs c ->
    Forall (unfolds h) ch ->
    unfolds h (Node p c ch).

Fixpoint theight (t : tree) : nat :=
  match t with
  | Node _ _ ch => S (foldr Nat.max O (map theight ch))
  end.

Fixpoint tdepth (t : tree) : Z :=
  match t with
  | Node _ _ ch =>
      match ch with
      | [] => 0
      | _ => fold_left Z.max (map tdepth ch) 0 + 1
      end
  end.

Fixpoint thashRepr (t : tree) : list Z :=
  match t with
  | Node _ c ch =>
      bocReprWithoutRefs c
      ++ concat (map (fun x => PutUint16_be (uint16 (tdepth x))) ch)
      ++ concat (map (fun x => SHA256.Sum256 (thashRepr x)) ch)
  end.

Definition thash (t : tree) : list Z := SHA256.Sum256 (thashRepr t).
Definition thashString (t : tree) : string := hex_EncodeToString (thash t).

Fixpoint preorder (t : tree) : list tree :=
  match t with
  | Node _ _ ch => t :: concat (map preorder ch)
  end.

Definition tsize (t : tree) : nat := length (preorder t).

(** The preorder positions of the children of a node at position [i]. *)
Fixpoint child_indices (i : nat) (ch : list tree) : list nat :=
  match ch with
  | [] => []
  | c :: ch' => i :: child_indices (i + tsize c) ch'
  end.

(** The bytes [bocRepr] gives the cell at preorder position [i]. *)
Definition cell_bytes (i : nat) (x : tree) : list Z :=
  bocReprWithoutRefs (tcell x)
  ++ map (fun j => byte (Z.of_nat j)) (child_indices (S i) (tchildren x)).

Definition tcells (t : tree) : list (list Z) := imap cell_bytes (preorder t).

(** The check-and-mark sequence of [topologicalSortImpl] on a list of keys. *)
Fixpoint visit (keys : list string) (seen : gmap string bool)
  : option (gmap string bool) :=
  match keys with
  | [] => Some seen
  | k :: keys' =>
      if bool_decide (seen !! k = Some true) then None
      else visit keys' (<[k := true]> seen)
  end.

(** Well-formed cells: at most four references and 1023 payload bits. *)
Definition cell_ok (c : Cell) : Prop :=
  RefsSize c <= 4 /\ BitSize c <= 1023.

Definition tree_ok (t : tree) : Prop := Forall (fun x => cell_ok (tcell x)) (preorder t).

(** Same payload bits and, recursively, the same children in order. *)
Inductive tree_iso : tree -> tree -> Prop :=
| tree_iso_node p c ch p' c' ch' :
    written (Bits c) = written (Bits c') ->
    Forall2 tree_iso ch ch' ->
    tree_iso (Node p c ch) (Node p' c' ch').

(** The pairwise-distinct content hashes of the cells reachable from the
    root of an unfolding, in terms of [Hash]. *)
Definition distinct_hashes (fuel : nat) (h : heap) (t : tree) : Prop :=
  forall i j x y d,
    preorder t !! i = Some x -> preorder t !! j = Some y ->
    Hash fuel h (taddr x) = Ok d -> Hash fuel h (taddr y) = Ok d -> i = j.


(** The index map [topologicalSort] builds from the keys of the sorted
    cells, and the running byte offsets of [SerializeBoc]. *)
Definition index_map (keys : list string) : gmap string Z :=
  fold_left (fun (m : gmap string Z) (ik : nat * string) => <[snd ik := Z.of_nat (fst ik)]> m)
            (imap (fun i k => (i, k)) keys) ∅.

Fixpoint offsets (a : Z) (cs : list (list Z)) : list Z :=
  match cs with
  | [] => []
  | c :: cs' => a :: offsets (a + len c) cs'
  end.

(** What [topologicalSortImpl] returns on the cells [t] met in this order,
    after the cells [res]. *)
Definition sort_outcome (t : list tree) (seen : gmap string bool) (res : list ptr)
  : result (list ptr * gmap string bool) :=
  match visit (map thashString t) seen with
  | Some s' => Ok (res ++ map taddr t, s')
  | None => Err "circular references are not allowed"
  end.

(** The cell [DeserializeBoc] builds for a serialized cell [c] whose
    references are the cells number [idxs], and the unfolding of the decoded
    graph, whose addresses are the preorder positions. *)
Definition imported_bits (b : BitString) : BitString :=
  {| capacity := 8 * len (top_upped (written b)); written := written b |}.

Definition decoded_cell (c : Cell) (idxs : list nat) : Cell :=
  {| Bits := imported_bits (Bits c);
     isExotic := false;
     refs := list_inserts 0 (map Some idxs) (replicate 4 None) |}.

Fixpoint decoded_tree (i : nat) (t : tree) : tree :=
  match t with
  | Node _ c ch =>
      Node i (decoded_cell c (child_indices (S i) ch))
           ((fix go (j : nat) (l : list tree) : list tree :=
               match l with
               | [] => []
               | x :: l' => decoded_tree j x :: go (j + tsize x)%nat l'
               end) (S i) ch)
  end.

(** A decoded cell before its references are linked. *)
Definition undecoded (c : Cell) : Cell :=
  {| Bits := imported_bits (Bits c); isExotic := false; refs := replicate 4 None |}.

(** A serialized cell as the decoder sees it: the cell and the reference
    bytes that follow its payload. *)
Definition item_ok (it : Cell * list Z) : Prop :=
  cell_ok (fst it) /\ len (snd it) = RefsSize (fst it) /\ bytes_ok (snd it).

Definition item_bytes (it : Cell * list Z) : list Z :=
  bocReprWithoutRefs (fst it) ++ snd it.

(** A cell once its references [c] are linked. *)
Definition linked_cell (cell : Cell) (c : list Z) : Cell :=
  set_refs cell (list_inserts 0 (map (fun r => Some (Z.to_nat r)) c) (refs cell)).

Definition titems (t : tree) : list (Cell * list Z) :=
  imap (fun i x => (tcell x, map Z.of_nat (child_indices (S i) (tchildren x))))
       (preorder t).

(** ** The stream [SerializeBoc] writes for a list of cell byte strings *)

Definition flags_byte (idx hasCrc32 cacheBits : bool) (flags : Z) : Z :=
  bits_value ([idx; hasCrc32; cacheBits] ++ uint_bits flags 2 ++ uint_bits 1 3).

Definition be_bytes (v : Z) (n : Z) : list Z :=
  bytes_of_bits (uint_bits v (Z.to_nat (n * 8))).

Definition stream_body (cells : list (list Z)) (idx hasCrc32 cacheBits : bool)
    (flags : Z) : list Z :=
  let fullSize := len (concat cells) in
  let offsetBytes := offsetBytes_of fullSize in
  reachBocMagicPrefix
  ++ [flags_byte idx hasCrc32 cacheBits flags]
  ++ be_bytes offsetBytes 1
  ++ be_bytes (len cells) 1 ++ be_bytes 1 1 ++ be_bytes 0 1
  ++ be_bytes fullSize offsetBytes
  ++ be_bytes 0 1
  ++ (if idx then concat (map (fun o => be_bytes o offsetBytes) (offsets 0 cells))
      else [])
  ++ concat cells.

Definition stream (cells : list (list Z)) (idx hasCrc32 cacheBits : bool)
    (flags : Z) : list Z :=
  let body := stream_body cells idx hasCrc32 cacheBits flags in
  if hasCrc32
  then body ++ PutUint32_le (CRC32.Checksum body CRC32.Castagnoli)
  else body.

(** A value [v] that a big-endian field of [w] bytes holds, for the two
    widths that occur for fewer than 256 cells. *)
Definition width_ok (w v : Z) : Prop :=
  (w = 1 /\ 0 <= v < 256) \/ (w = 2 /\ 0 <= v < 65536).

(** The heap [DeserializeBoc] returns for the serialized form of [t]. *)
Definition decoded_heap (t : tree) : list Cell :=
  imap (fun i x => decoded_cell (tcell x) (child_indices (S i) (tchildren x)))
       (preorder t).

Definition decoded_children (j : nat) (l : list tree) : list tree :=
  (fix go (j : nat) (l : list tree) : list tree :=
     match l with
     | [] => []
     | x :: l' => decoded_tree j x :: go (j + tsize x)%nat l'
     end) j l.

(** A run of appends to a bit buffer. *)
Definition write_all (s : BitString) (chunks : list (list bool)) : BitString :=
  fold_left (fun s bs => fst (WriteBitArray s bs)) chunks s.

(** The writes of [SerializeBoc], from the cell count on, once the sort and
    [bocRepr] have given the byte strings [cells] of the sorted cells. *)
Definition write_stream (cells : list (list Z)) (idx hasCrc32 cacheBits : bool)
    (flags : Z) : result (list Z) :=
  let cellsNum := len cells in
  let sBytes := sBytes_of cellsNum in
  let fullSize := len (concat cells) in
  let sizeIndex := offsets 0 cells in
  let offsetBytes := offsetBytes_of fullSize in
  let serStr := NewBitString ((1023 + 32 * 4 + 32 * 3) * cellsNum) in
  let serStr := fst (WriteBytes serStr reachBocMagicPrefix) in
  let serStr := fst (WriteBitArray serStr [idx; hasCrc32; cacheBits]) in
  let serStr := fst (WriteUint serStr flags 2) in
  let serStr := fst (WriteUint serStr sBytes 3) in
  let serStr := fst (WriteUint serStr offsetBytes 8) in
  let serStr := fst (WriteUint serStr cellsNum (sBytes * 8)) in
  let serStr := fst (WriteUint serStr 1 (sBytes * 8)) in
  let serStr := fst (WriteUint serStr 0 (sBytes * 8)) in
  let serStr := fst (WriteUint serStr fullSize (offsetBytes * 8)) in
  let serStr := fst (WriteUint serStr 0 (sBytes * 8)) in
  serStr ← (if idx
            then foldM (fun s (i : nat) =>
                          o ← index sizeIndex (Z.of_nat i);
                          Ok (fst (WriteUint s o (offsetBytes * 8))))
                       serStr (seq 0 (length cells))
            else Ok serStr);
  let serStr := write_all serStr (map bits_of_bytes cells) in
  resBytes ← GetTopUppedArray serStr;
  if hasCrc32
  then Ok (resBytes ++ PutUint32_le (CRC32.Checksum resBytes CRC32.Castagnoli))
  else Ok resBytes.

(** The digests of the cells of an unfolding, in preorder; the digest of
    each cell is computed once, from the digests of its children. *)
Fixpoint digests (t : tree) : list (list Z) :=
  match t with
  | Node _ c ch =>
      let ds := map digests ch in
      SHA256.Sum256
        (bocReprWithoutRefs c
         ++ concat (map (fun x => PutUint16_be (uint16 (tdepth x))) ch)
         ++ concat (map (hd []) ds))
      :: concat ds
  end.

(** The bit chunks [SerializeBoc] appends to its output buffer. *)
Definition header_chunks (cells : list (list Z)) (idx hasCrc32 cacheBits : bool)
    (fl : Z) : list (list bool) :=
  let fullSize := len (concat cells) in
  let offsetBytes := offsetBytes_of fullSize in
  [bits_of_bytes reachBocMagicPrefix;
   [idx; hasCrc32; cacheBits] ++ uint_bits fl 2 ++ uint_bits 1 3;
   uint_bits offsetBytes (Z.to_nat (1 * 8));
   uint_bits (len cells) (Z.to_nat (1 * 8));
   uint_bits 1 (Z.to_nat (1 * 8));
   uint_bits 0 (Z.to_nat (1 * 8));
   uint_bits fullSize (Z.to_nat (offsetBytes * 8));
   uint_bits 0 (Z.to_nat (1 * 8))].

Definition index_chunks (cells : list (list Z)) (idx : bool) : list (list bool) :=
  if idx
  then map (fun o => uint_bits o (Z.to_nat (offsetBytes_of (len (concat cells)) * 8)))
           (offsets 0 cells)
  else [].

Definition stream_chunks (cells : list (list Z)) (idx hasCrc32 cacheBits : bool)
    (fl : Z) : list (list bool) :=
  header_chunks cells idx hasCrc32 cacheBits fl
  ++ index_chunks cells idx ++ map bits_of_bytes cells.

(** The number of bytes of a stream up to the end of its header counters:
    magic prefix, flags, offset width, cell, root and absent counts and the
    size of the cell data. *)
Definition counters_end (boc : list Z) : Z :=
  match parse_flags (take 4 boc) (drop 4 boc), boc !! 5%nat with
  | Ok (_, _, _, _, sizeBytes), Some offsetBytes => 6 + 3 * sizeBytes + offsetBytes
  | _, _ => 0
  end.

(** The checksum flag that the header of a stream sets. *)
Definition checksum_flag (boc : list Z) : bool :=
  match parse_flags (take 4 boc) (drop 4 boc) with
  | Ok (_, hashCrc32, _, _, _) => hashCrc32
  | _ => false
  end.

(** ** Statements about whole round trips *)

(** Serializing the graph unfolded by [t] and decoding the bytes gives one
    root with the hash of the original and an isomorphic unfolding. *)
Definition roundtrip (fuel : nat) (h : heap) (t : tree)
    (idx hasCrc32 cacheBits : bool) (fl : Z) : Prop :=
  exists bytes h' r d t',
    SerializeBoc fuel h (taddr t) idx hasCrc32 cacheBits fl = Ok bytes /\
    DeserializeBoc bytes = Ok (h', [Some r]) /\
    Hash fuel h (taddr t) = Ok d /\ Hash fuel h' r = Ok d /\
    unfolds h' t' /\ taddr t' = r /\ tree_iso t t'.

(** Every pointer stored in a cell of the heap is the address of a cell. *)
Definition heap_closed (h : heap) : Prop :=
  forall p c q, h !! p = Some c -> In q (Refs c) -> (q < length h)%nat.

(** The number that the bytes [l] spell, most significant byte first. *)
Definition be_value (l : list Z) : Z := fold_left (fun a b => a * 256 + b) l 0.

(** ** Computing unfoldings, and checks that evaluate *)

Fixpoint unfold_from (fuel : nat) (h : heap) (p : ptr) : option tree :=
  match fuel with
  | O => None
  | S f =>
      match h !! p with
      | Some c =>
          match mapM (unfold_from f h) (Refs c) with
          | Some ch => Some (Node p c ch)
          | None => None
          end
      | None => None
      end
  end.

Definition tree_ok_b (t : tree) : bool :=
  forallb (fun x => (RefsSize (tcell x) <=? 4) && (BitSize (tcell x) <=? 1023))
          (preorder t).

Fixpoint nodupb (l : list string) : bool :=
  match l with
  | [] => true
  | x :: l' => negb (existsb (String.eqb x) l') && nodupb l'
  end.

(** ** Example cells and graphs *)

(** A leaf with the payload bits 1011. *)
Definition leaf1011 : Cell :=
  set_Bits NewCell (fst (WriteBitArray (Bits NewCell) [true; false; true; true])).

Definition leaf_heap : heap := [leaf1011].
Definition leaf_tree : tree := Node 0%nat leaf1011 [].

(** The stream [ToBoc] gives for that leaf. *)
Definition leaf_stream : list Z :=
  [0xb5; 0xee; 0x9c; 0x72; 0xc1; 1; 1; 1; 0; 3; 0; 0; 0; 1; 0xb8;
   0xbf; 0x7b; 0xe3; 0x11].

(** [c.AddReference(c2)] with the error dropped. *)
Definition add_child (h : heap) (c : ptr) (c2 : ptr) : heap :=
  match AddReference h c (Some c2) with
  | Ok (h', _) => h'
  | _ => h
  end.

(** A root with one child, both with an empty payload. *)
Definition two_heap : heap := add_child [NewCell; NewCell] 0%nat 1%nat.
Definition two_tree : tree := default leaf_tree (unfold_from 3 two_heap 0%nat).

(** An exotic leaf. *)
Definition exotic_heap : heap := [NewCellExotic].
Definition exotic_tree : tree := Node 0%nat NewCellExotic [].



(** A stream of one cell whose only reference is the cell itself. *)
Definition self_ref_stream : list Z :=
  [0xb5; 0xee; 0x9c; 0x72; 1; 1; 1; 1; 0; 3; 0; 1; 0; 0].

(** A complete tree of arity four and depth four, 341 cells with pairwise
    different 16-bit payloads. *)
Definition labelled (label : Z) : Cell :=
  set_Bits NewCell (fst (WriteUint (Bits NewCell) label 16)).

Fixpoint build (d : nat) (label : Z) (h : heap) : heap * ptr :=
  let hp := alloc h (labelled label) in
  match d with
  | O => hp
  | S d' =>
      (fold_left (fun (h : heap) (i : Z) =>
                    let hq := build d' (4 * label + i) h in
                    add_child (fst hq) (snd hp) (snd hq))
                 [1; 2; 3; 4] (fst hp), snd hp)
  end.

Definition big_heap : heap := fst (build 4 0 []).
Definition big_tree : tree := default leaf_tree (unfold_from 6 big_heap 0%nat).

(** A check on the outcome of the serializer: the bytes written carry a
    width of one in the flags byte, and the decoder panics on them. *)
Definition is_panic {A : Type} (r : result A) : bool :=
  match r with Panic _ => true | _ => false end.

Definition width_one_and_panic (bytes : list Z) : bool :=
  match bytes !! 4%nat with
  | Some fb => (fb mod 8 =? 1) && is_panic (DeserializeBoc bytes)
  | None => false
  end.

Definition run_check (r : result (list Z)) : bool :=
  match r with Ok bytes => width_one_and_panic bytes | _ => false end.

(** * Properties *)

(** ** The [result] monad and loops *)

Lemma bind_Ok {A B : Type} (a : A) (k : A -> result B) : (Ok a ≫= k) = k a.
Proof. reflexivity. Qed.

Lemma fmap_Ok {A B : Type} (g : A -> B) (a : A) : g <$> Ok a = Ok (g a).
Proof. reflexivity. Qed.

Lemma foldM_app {A B : Type} (f : B -> A -> result B) (b : B) (l1 l2 : list A) :
  foldM f b (l1 ++ l2) = (foldM f b l1 ≫= fun b' => foldM f b' l2).
Proof.
  revert b. induction l1 as [|x l1 IH]; intros b; simpl; [reflexivity|].
  destruct (f b x); simpl; auto.
Qed.

(** A loop that appends one chunk per element. *)
Lemma foldM_chunks {A B C : Type} (step : list B -> A -> result (list B))
    (a : C -> A) (G : C -> list B) (l : list C) :
  (forall res x, In x l -> step res (a x) = Ok (res ++ G x)) ->
  forall res0, foldM step res0 (map a l) = Ok (res0 ++ concat (map G l)).
Proof.
  induction l as [|x l IH]; intros Hstep res0; simpl.
  - by rewrite app_nil_r.
  - rewrite Hstep by (left; reflexivity). simpl.
    rewrite IH by (intros; apply Hstep; right; assumption).
    by rewrite app_assoc.
Qed.

Lemma tree_ind_all (P : tree -> Prop) :
  (forall p c ch, Forall P ch -> P (Node p c ch)) -> forall t, P t.
Proof.
  intros HN. fix IH 1. intros [p c ch]. apply HN.
  induction ch as [|x ch IHch]; constructor; [apply IH | apply IHch].
Qed.

(** ** Cells *)

Lemma Refs_omap (c : Cell) : Refs c = omap id (refs c).
Proof.
  unfold Refs.
  enough (forall l acc,
    fold_left (fun res ref => match ref with Some r => res ++ [r] | None => res end) l acc
    = acc ++ omap id l) as H by apply (H _ []).
  induction l as [|[r|] l IH]; intros acc; simpl.
  - by rewrite app_nil_r.
  - rewrite IH. by rewrite <- app_assoc.
  - apply IH.
Qed.

Lemma unfolds_inv h p c ch :
  unfolds h (Node p c ch) ->
  h !! p = Some c /\ map taddr ch = Refs c /\ Forall (unfolds h) ch.
Proof. inversion 1; subst; auto. Qed.

Lemma theight_child (x : tree) (ch : list tree) :
  In x ch -> (theight x <= foldr Nat.max O (map theight ch))%nat.
Proof.
  induction ch as [|y ch IH]; simpl; [tauto|].
  intros [->|Hin]; [lia|]. specialize (IH Hin). lia.
Qed.

(** ** Depth and hash on an unfolding *)

Lemma max_loop (g : ptr -> result Z) (G : tree -> Z) (ch : list tree) :
  Forall (fun x => g (taddr x) = Ok (G x)) ch ->
  forall m0,
    foldM (fun maxDepth ref => d ← g ref; if maxDepth <? d then g ref else Ok maxDepth)
          m0 (map taddr ch)
    = Ok (fold_left Z.max (map G ch) m0).
Proof.
  induction 1 as [|x ch Hx _ IH]; intros m0; simpl; [reflexivity|].
  rewrite Hx. simpl. destruct (m0 <? G x) eqn:E; simpl; rewrite IH; do 2 f_equal; lia.
Qed.

Lemma getMaxDepth_unfolds (h : heap) (t : tree) :
  unfolds h t ->
  forall fuel, (theight t <= fuel)%nat ->
  getMaxDepth fuel h (taddr t) = Ok (tdepth t).
Proof.
  induction t as [p c ch IH] using tree_ind_all.
  intros Hu fuel Hf. apply unfolds_inv in Hu as (Hp & Hch & Hall).
  destruct fuel as [|f]; [simpl in Hf; lia|].
  simpl in Hf. simpl. unfold deref. rewrite Hp. simpl.
  unfold RefsSize, len. rewrite <- Hch, length_map.
  destruct ch as [|x ch']; [reflexivity|].
  replace (0 <? Z.of_nat (length (x :: ch'))) with true
    by (symmetry; apply Z.ltb_lt; simpl; lia).
  rewrite (max_loop (getMaxDepth f h) tdepth); [reflexivity|].
  rewrite Forall_forall in IH, Hall. apply Forall_forall. intros y Hy.
  apply list_elem_of_In in Hy.
  apply IH; [apply list_elem_of_In; exact Hy | apply Hall, list_elem_of_In, Hy |].
  pose proof (theight_child y _ Hy). lia.
Qed.

Lemma hashRepr_unfolds (h : heap) (t : tree) :
  unfolds h t ->
  forall fuel, (theight t <= fuel)%nat ->
  hashRepr fuel h (taddr t) = Ok (thashRepr t).
Proof.
  induction t as [p c ch IH] using tree_ind_all.
  intros Hu fuel Hf. pose proof Hu as Hu'.
  apply unfolds_inv in Hu as (Hp & Hch & Hall).
  destruct fuel as [|f]; [simpl in Hf; lia|].
  simpl in Hf. simpl. unfold deref. rewrite Hp. simpl.
  rewrite <- Hch. rewrite Forall_forall in IH, Hall.
  assert (Hle : forall y, In y ch -> (theight y <= f)%nat).
  { intros y Hy. pose proof (theight_child y _ Hy). lia. }
  rewrite (foldM_chunks _ taddr (fun x => PutUint16_be (uint16 (tdepth x)))).
  2:{ intros res x Hx.
      rewrite getMaxDepth_unfolds; [reflexivity | | by apply Hle].
      by apply Hall, list_elem_of_In. }
  simpl.
  rewrite (foldM_chunks _ taddr (fun x => SHA256.Sum256 (thashRepr x))).
  2:{ intros res x Hx.
      rewrite IH; [reflexivity | by apply list_elem_of_In
                  | by apply Hall, list_elem_of_In | by apply Hle]. }
  by rewrite <- app_assoc.
Qed.

Lemma hashCell_unfolds (h : heap) (t : tree) (fuel : nat) :
  unfolds h t -> (theight t <= fuel)%nat ->
  hashCell fuel h (taddr t) = Ok (thash t).
Proof.
  intros Hu Hf. unfold hashCell. by rewrite hashRepr_unfolds.
Qed.

Lemma HashString_unfolds (h : heap) (t : tree) (fuel : nat) :
  unfolds h t -> (theight t <= fuel)%nat ->
  HashString fuel h (taddr t) = Ok (thashString t).
Proof.
  intros Hu Hf. unfold HashString. by rewrite hashCell_unfolds.
Qed.

(** ** Preorder listings *)

Lemma preorder_unfolds (h : heap) (t : tree) :
  unfolds h t -> Forall (unfolds h) (preorder t).
Proof.
  induction t as [p c ch IH] using tree_ind_all. intros Hu.
  simpl. constructor; [exact Hu|].
  apply unfolds_inv in Hu as (_ & _ & Hall).
  apply Forall_concat, Forall_map.
  rewrite Forall_forall in IH, Hall. apply Forall_forall. intros x Hx.
  apply IH; [exact Hx | apply Hall, Hx].
Qed.

Lemma preorder_height (t x : tree) :
  In x (preorder t) -> (theight x <= theight t)%nat.
Proof.
  induction t as [p c ch IH] using tree_ind_all. simpl.
  intros [<-|Hin]; [simpl; lia|].
  apply in_concat in Hin as (l & Hl & Hx).
  apply in_map_iff in Hl as (y & <- & Hy).
  rewrite Forall_forall in IH.
  specialize (IH y (proj2 (list_elem_of_In _ _) Hy) Hx).
  pose proof (theight_child y _ Hy). lia.
Qed.

Lemma tsize_pos (t : tree) : (0 < tsize t)%nat.
Proof. destruct t. unfold tsize. simpl. lia. Qed.

Lemma preorder_head (t : tree) : preorder t !! 0%nat = Some t.
Proof. by destruct t. Qed.

(** A subtree met at position [i] occupies a segment of the listing. *)
Lemma preorder_segment (t : tree) :
  forall i x, preorder t !! i = Some x ->
  exists l1 l2, preorder t = l1 ++ preorder x ++ l2 /\ length l1 = i.
Proof.
  induction t as [p c ch IH] using tree_ind_all.
  intros [|i] x Hx.
  - simpl in Hx. injection Hx as <-. exists [], []. by rewrite app_nil_r.
  - simpl in Hx.
    assert (exists la y lb i0, ch = la ++ y :: lb /\
              i = (length (concat (map preorder la)) + i0)%nat /\
              preorder y !! i0 = Some x) as (la & y & lb & i0 & -> & -> & Hy).
    { clear IH. revert i Hx. induction ch as [|y ch IHch]; intros i Hx; [done|].
      simpl in Hx. destruct (decide (i < length (preorder y))%nat) as [Hlt|Hge].
      - rewrite lookup_app_l in Hx by exact Hlt.
        exists [], y, ch, i. auto.
      - rewrite lookup_app_r in Hx by lia.
        destruct (IHch _ Hx) as (la & z & lb & i0 & -> & Hi & Hz).
        exists (y :: la), z, lb, i0. split; [done|]. split; [|done].
        simpl. rewrite length_app. lia. }
    apply Forall_app in IH as (_ & IH). apply Forall_cons in IH as (IHy & _).
    destruct (IHy _ _ Hy) as (l1 & l2 & Heq & Hlen).
    exists (Node p c (la ++ y :: lb) :: concat (map preorder la) ++ l1),
           (l2 ++ concat (map preorder lb)).
    split.
    + simpl. f_equal. rewrite map_app, concat_app. simpl. rewrite Heq.
      by rewrite <- !app_assoc.
    + simpl. rewrite length_app. lia.
Qed.

Lemma child_indices_length (b : nat) (ch : list tree) :
  length (child_indices b ch) = length ch.
Proof. revert b. induction ch; intros; simpl; auto. Qed.

Lemma child_indices_lookup (ch : list tree) :
  forall b k j y,
    child_indices b ch !! k = Some j -> ch !! k = Some y ->
    (b <= j)%nat /\ concat (map preorder ch) !! (j - b)%nat = Some y.
Proof.
  induction ch as [|c ch IH]; intros b k j y Hj Hy; [done|].
  destruct k as [|k]; simpl in *.
  - injection Hj as <-. injection Hy as <-. split; [lia|].
    rewrite Nat.sub_diag. rewrite lookup_app_l by apply tsize_pos.
    apply preorder_head.
  - destruct (IH _ _ _ _ Hj Hy) as (Hle & Hl). split; [lia|].
    fold (tsize c) in *. rewrite lookup_app_r by (fold (tsize c); lia).
    fold (tsize c). replace (j - b - tsize c)%nat with (j - (b + tsize c))%nat by lia.
    exact Hl.
Qed.

(** The children of the cell at position [i] sit at [child_indices (S i)]. *)
Lemma preorder_child (t : tree) (i : nat) (x : tree) :
  preorder t !! i = Some x ->
  forall k j y,
    child_indices (S i) (tchildren x) !! k = Some j ->
    tchildren x !! k = Some y ->
    (i < j)%nat /\ preorder t !! j = Some y.
Proof.
  intros Hx k j y Hj Hy.
  destruct (preorder_segment _ _ _ Hx) as (l1 & l2 & Heq & Hlen).
  destruct (child_indices_lookup _ _ _ _ _ Hj Hy) as (Hle & Hl).
  split; [lia|]. rewrite Heq.
  rewrite lookup_app_r by lia. rewrite lookup_app_l.
  - destruct x as [p c ch]. simpl in *.
    replace (j - length l1)%nat with (S (j - S i)) by lia. exact Hl.
  - destruct x as [p c ch]. simpl in *.
    apply lookup_lt_Some in Hl. lia.
Qed.

(** ** The traversal of [topologicalSortImpl] *)

Lemma visit_app (l1 l2 : list string) (seen : gmap string bool) :
  visit (l1 ++ l2) seen = visit l1 seen ≫= visit l2.
Proof.
  revert seen. induction l1 as [|k l1 IH]; intros seen; simpl; [done|].
  case_bool_decide; [done | apply IH].
Qed.

Lemma topologicalSortImpl_unfolds (h : heap) (t : tree) :
  unfolds h t ->
  forall fuel seen, (theight t < fuel)%nat ->
  topologicalSortImpl fuel h (taddr t) seen = sort_outcome (preorder t) seen [].
Proof.
  induction t as [p c ch IH] using tree_ind_all.
  intros Hu fuel seen Hf. pose proof Hu as Hu'.
  apply unfolds_inv in Hu as (Hp & Hch & Hall).
  destruct fuel as [|f]; [lia|].
  cbn [topologicalSortImpl taddr].
  pose proof (HashString_unfolds h (Node p c ch) f Hu' ltac:(lia)) as Hhs.
  cbn [taddr] in Hhs. rewrite Hhs, bind_Ok. unfold sort_outcome. cbn [preorder map visit].
  case_bool_decide; [done|].
  unfold deref. rewrite Hp, bind_Ok, <- Hch.
  set (seen1 := <[thashString (Node p c ch) := true]> seen). clearbody seen1.
  assert (Hgen : forall res seenx,
    foldM (fun (st : list ptr * gmap string bool) ref =>
             r2 ← topologicalSortImpl f h ref (snd st);
             Ok (fst st ++ fst r2, snd r2))
          (res, seenx) (map taddr ch)
    = sort_outcome (concat (map preorder ch)) seenx res).
  { simpl in Hf. clear Hch Hu' Hp Hhs H.
    induction ch as [|y ch IHch]; intros res seenx.
    - unfold sort_outcome. simpl. by rewrite app_nil_r.
    - apply Forall_cons in IH as (IHy & IHrest).
      apply Forall_cons in Hall as (Hy & Hrest).
      cbn [map foldM]. rewrite IHy; [|exact Hy|simpl in Hf; lia].
      unfold sort_outcome. cbn [concat map fst snd].
      rewrite map_app, visit_app.
      destruct (visit (map thashString (preorder y)) seenx) as [s1|]; [|reflexivity].
      simpl. rewrite IHch; [|exact IHrest|exact Hrest|simpl in Hf; lia].
      unfold sort_outcome.
      destruct (visit _ s1); [|done]. by rewrite map_app, app_assoc. }
  rewrite Hgen. unfold sort_outcome.
  by destruct (visit _ seen1).
Qed.

(** ** Digests as map keys *)

Lemma byte_is_byte (x : Z) : is_byte (byte x).
Proof. unfold is_byte, byte. apply Z.mod_pos_bound. lia. Qed.

Lemma Sum256_bytes_ok (msg : list Z) : bytes_ok (SHA256.Sum256 msg).
Proof.
  unfold SHA256.Sum256, bytes_ok. apply Forall_concat, Forall_map, Forall_forall.
  intros w _. unfold SHA256.word_bytes. repeat constructor; apply byte_is_byte.
Qed.

Lemma hex_digit_inj (m n : Z) :
  0 <= m < 16 -> 0 <= n < 16 -> hex_digit m = hex_digit n -> m = n.
Proof.
  intros Hm Hn.
  assert (Hc : forall k, 0 <= k < 16 ->
            k = 0 \/ k = 1 \/ k = 2 \/ k = 3 \/ k = 4 \/ k = 5 \/ k = 6 \/ k = 7 \/
            k = 8 \/ k = 9 \/ k = 10 \/ k = 11 \/ k = 12 \/ k = 13 \/ k = 14 \/ k = 15)
    by (intros; lia).
  destruct (Hc m Hm) as [->|[->|[->|[->|[->|[->|[->|[->|[->|[->|[->|[->|[->|[->|[->| ->]]]]]]]]]]]]]]];
  destruct (Hc n Hn) as [->|[->|[->|[->|[->|[->|[->|[->|[->|[->|[->|[->|[->|[->|[->| ->]]]]]]]]]]]]]]];
  first [reflexivity | (intros Heq; vm_compute in Heq; discriminate Heq)].
Qed.

Lemma hex_EncodeToString_inj (a b : list Z) :
  bytes_ok a -> bytes_ok b ->
  hex_EncodeToString a = hex_EncodeToString b -> a = b.
Proof.
  intros Ha. revert b. induction Ha as [|x a Hx Ha IH]; intros b Hb Heq.
  - destruct b; [reflexivity | discriminate Heq].
  - destruct Hb as [|y b Hy Hb]; [discriminate Heq|].
    simpl in Heq. injection Heq as Hhi Hlo Hrest.
    unfold is_byte in Hx, Hy.
    apply hex_digit_inj in Hhi;
      [|split; [apply Z.div_pos|apply Z.div_lt_upper_bound]; lia..].
    apply hex_digit_inj in Hlo; [|apply Z.mod_pos_bound; lia..].
    f_equal; [|by apply IH].
    rewrite (Z.div_mod x 16), (Z.div_mod y 16) by lia. congruence.
Qed.

Lemma thashString_inj (x y : tree) :
  thashString x = thashString y -> thash x = thash y.
Proof. apply hex_EncodeToString_inj; apply Sum256_bytes_ok. Qed.

(** ** Outcome of the check-and-mark sequence *)

Lemma visit_marks (keys : list string) :
  forall seen s', visit keys seen = Some s' ->
  forall k, s' !! k = Some true <-> (seen !! k = Some true \/ In k keys).
Proof.
  induction keys as [|k0 keys IH]; intros seen s' Hv k; simpl in *.
  - injection Hv as <-. tauto.
  - case_bool_decide as Hs; [discriminate|].
    rewrite (IH _ _ Hv k). destruct (decide (k0 = k)) as [->|Hne].
    + rewrite lookup_insert_eq. tauto.
    + rewrite lookup_insert_ne by exact Hne. tauto.
Qed.

Lemma visit_Some (keys : list string) :
  forall seen,
    NoDup keys -> (forall k, In k keys -> seen !! k <> Some true) ->
    exists s', visit keys seen = Some s'.
Proof.
  induction keys as [|k0 keys IH]; intros seen Hnd Hfresh; simpl; [eauto|].
  apply NoDup_cons in Hnd as (Hnin & Hnd).
  case_bool_decide as Hs; [exfalso; apply (Hfresh k0); [by left | exact Hs]|].
  apply IH; [exact Hnd|]. intros k Hk.
  destruct (decide (k0 = k)) as [->|Hne].
  - exfalso. apply Hnin, list_elem_of_In, Hk.
  - rewrite lookup_insert_ne by exact Hne. apply Hfresh. by right.
Qed.



(** ** The index map *)

Lemma imap_pair_shift {A : Type} (l : list A) (k : nat) :
  imap (fun i c => ((k + i)%nat, c)) l = zip (seq k (length l)) l.
Proof.
  revert k. induction l as [|x l IH]; intros k; [reflexivity|].
  rewrite imap_cons. simpl. f_equal; [f_equal; lia|].
  rewrite <- IH. apply imap_ext. intros i y _. simpl. f_equal. lia.
Qed.

Lemma imap_pair {A : Type} (l : list A) :
  imap (fun i c => (i, c)) l = zip (seq 0 (length l)) l.
Proof. apply (imap_pair_shift l 0). Qed.

Lemma index_fold_notin (keys : list string) (key : string) :
  ~ In key keys ->
  forall k (m : gmap string Z),
    fold_left (fun (m : gmap string Z) (ik : nat * string) =>
                 <[snd ik := Z.of_nat (fst ik)]> m)
              (zip (seq k (length keys)) keys) m !! key = m !! key.
Proof.
  induction keys as [|k0 keys IH]; intros Hnin k m; [reflexivity|].
  simpl. rewrite IH by (intros Hin; apply Hnin; by right).
  apply lookup_insert_ne. intros ->. apply Hnin. by left.
Qed.

Lemma index_fold_lookup (keys : list string) :
  NoDup keys ->
  forall k (m : gmap string Z) i key,
    keys !! i = Some key ->
    fold_left (fun (m : gmap string Z) (ik : nat * string) =>
                 <[snd ik := Z.of_nat (fst ik)]> m)
              (zip (seq k (length keys)) keys) m !! key
    = Some (Z.of_nat (k + i)).
Proof.
  induction 1 as [|k0 keys Hnin Hnd IH]; intros k m i key Hi; [done|].
  destruct i as [|i]; simpl in Hi |- *.
  - injection Hi as ->. rewrite index_fold_notin.
    + rewrite lookup_insert_eq. do 2 f_equal. lia.
    + intros Hin. apply Hnin, list_elem_of_In, Hin.
  - rewrite (IH (S k) _ i key Hi). do 2 f_equal. lia.
Qed.

Lemma index_map_lookup (keys : list string) (i : nat) (key : string) :
  NoDup keys -> keys !! i = Some key ->
  map_index (index_map keys) key = Z.of_nat i.
Proof.
  intros Hnd Hi. unfold map_index, index_map. rewrite imap_pair.
  by rewrite (index_fold_lookup keys Hnd 0 ∅ i key Hi).
Qed.

Lemma index_loop (fuel : nat) (h : heap) (ts : list tree) :
  Forall (unfolds h) ts ->
  Forall (fun x => (theight x <= fuel)%nat) ts ->
  forall k (m : gmap string Z),
    foldM (fun (m : gmap string Z) (ic : nat * ptr) =>
             hs ← HashString fuel h (snd ic);
             Ok (<[hs := Z.of_nat (fst ic)]> m))
          m (zip (seq k (length (map taddr ts))) (map taddr ts))
    = Ok (fold_left (fun (m : gmap string Z) (ik : nat * string) =>
                       <[snd ik := Z.of_nat (fst ik)]> m)
                    (zip (seq k (length (map thashString ts))) (map thashString ts)) m).
Proof.
  induction 1 as [|x ts Hx Hts IH]; intros Hh k m; [reflexivity|].
  apply Forall_cons in Hh as (Hhx & Hhts).
  simpl. rewrite (HashString_unfolds h x fuel Hx Hhx). simpl.
  apply (IH Hhts).
Qed.

Lemma topologicalSort_unfolds (fuel : nat) (h : heap) (t : tree) :
  unfolds h t -> (theight t < fuel)%nat ->
  topologicalSort fuel h (taddr t) =
  match visit (map thashString (preorder t)) ∅ with
  | Some _ => Ok (map taddr (preorder t), index_map (map thashString (preorder t)))
  | None => Err "circular references are not allowed"
  end.
Proof.
  intros Hu Hf. unfold topologicalSort.
  rewrite (topologicalSortImpl_unfolds h t Hu fuel ∅ Hf). unfold sort_outcome.
  destruct (visit _ ∅) as [s'|]; [|reflexivity].
  rewrite bind_Ok. cbn [fst snd app]. rewrite imap_pair.
  rewrite (index_loop fuel h (preorder t)).
  - rewrite bind_Ok. unfold index_map. by rewrite imap_pair.
  - by apply preorder_unfolds.
  - apply Forall_forall. intros x Hx. apply list_elem_of_In, preorder_height in Hx. lia.
Qed.

(** ** Distinct hashes, in terms of [Hash] and of the listing *)

Lemma distinct_hashes_NoDup (fuel : nat) (h : heap) (t : tree) :
  unfolds h t -> (theight t <= fuel)%nat ->
  distinct_hashes fuel h t -> NoDup (map thashString (preorder t)).
Proof.
  intros Hu Hf Hd. apply NoDup_alt. intros i j s Hi Hj.
  rewrite list_lookup_fmap in Hi, Hj.
  destruct (preorder t !! i) as [x|] eqn:Ex; [|discriminate].
  destruct (preorder t !! j) as [y|] eqn:Ey; [|discriminate].
  simpl in Hi, Hj. injection Hi as Hi. injection Hj as Hj.
  pose proof (preorder_unfolds h t Hu) as Hall. rewrite Forall_forall in Hall.
  assert (Hx : In x (preorder t)) by (apply list_elem_of_In; eapply list_elem_of_lookup_2; eauto).
  assert (Hy : In y (preorder t)) by (apply list_elem_of_In; eapply list_elem_of_lookup_2; eauto).
  apply (Hd i j x y (thash x) Ex Ey).
  - unfold Hash. apply hashCell_unfolds; [apply Hall, list_elem_of_In, Hx|].
    apply preorder_height in Hx. lia.
  - unfold Hash. rewrite hashCell_unfolds; [|apply Hall, list_elem_of_In, Hy|].
    + f_equal. apply thashString_inj. congruence.
    + apply preorder_height in Hy. lia.
Qed.


(** ** [bocRepr] on the cell at a position of the listing *)

Lemma bocRepr_unfolds (fuel : nat) (h : heap) (t : tree) (i : nat) (x : tree) :
  unfolds h t -> (theight t <= fuel)%nat ->
  NoDup (map thashString (preorder t)) ->
  preorder t !! i = Some x ->
  bocRepr fuel h (taddr x) (index_map (map thashString (preorder t)))
  = Ok (cell_bytes i x).
Proof.
  intros Hu Hf Hnd Hx.
  pose proof (preorder_unfolds h t Hu) as Hall. rewrite Forall_forall in Hall.
  assert (Hin : In x (preorder t)) by (apply list_elem_of_In; eapply list_elem_of_lookup_2; eauto).
  pose proof (Hall x (proj2 (list_elem_of_In _ _) Hin)) as Hux.
  pose proof (preorder_height _ _ Hin) as Hhx.
  destruct x as [p c ch]. apply unfolds_inv in Hux as (Hp & Hch & Hallch).
  unfold bocRepr, cell_bytes. cbn [taddr tcell tchildren].
  unfold deref. rewrite Hp, bind_Ok, <- Hch.
  rewrite (foldM_chunks _ taddr
             (fun y => [byte (map_index (index_map (map thashString (preorder t)))
                                        (thashString y))])).
  2:{ intros res y Hy. rewrite HashString_unfolds; [reflexivity | |].
      - rewrite Forall_forall in Hallch. apply Hallch, list_elem_of_In, Hy.
      - pose proof (theight_child y ch Hy). simpl in Hhx. lia. }
  do 2 f_equal.
  apply list_eq. intros k. rewrite list_lookup_fmap.
  assert (Hc : concat (map (fun y => [byte (map_index (index_map (map thashString (preorder t)))
                                        (thashString y))]) ch)
               = map (fun y => byte (map_index (index_map (map thashString (preorder t)))
                                        (thashString y))) ch).
  { clear. induction ch; simpl; congruence. }
  rewrite Hc, list_lookup_fmap.
  destruct (ch !! k) as [y|] eqn:Ey.
  - destruct (child_indices (S i) ch !! k) as [j|] eqn:Ej.
    + simpl. destruct (preorder_child t i _ Hx k j y Ej Ey) as (_ & Hj).
      do 2 f_equal. apply index_map_lookup; [exact Hnd|].
      by rewrite list_lookup_fmap, Hj.
    + apply lookup_ge_None in Ej. rewrite child_indices_length in Ej.
      apply lookup_lt_Some in Ey. lia.
  - apply lookup_ge_None in Ey. rewrite <- (child_indices_length (S i)) in Ey.
    apply lookup_ge_None in Ey. by rewrite Ey.
Qed.

(** ** Bits and bytes *)

Lemma chunks_ind (P : list bool -> Prop) :
  P [] ->
  (forall a, (0 < length a < 8)%nat -> P a) ->
  (forall a rest, length a = 8%nat -> P rest -> P (a ++ rest)) ->
  forall l, P l.
Proof.
  intros Hnil Hshort Hchunk l.
  remember (length l) as n eqn:Hn. revert l Hn.
  induction n as [n IH] using lt_wf_ind. intros l Hn.
  destruct (decide (n < 8)%nat) as [Hlt|Hge].
  - destruct l as [|b l]; [exact Hnil|]. apply Hshort. simpl in *. lia.
  - rewrite <- (take_drop 8 l). apply Hchunk.
    + rewrite length_take. lia.
    + apply (IH (n - 8)%nat); [lia|]. rewrite length_drop. lia.
Qed.

Lemma bytes_of_bits_chunk (a rest : list bool) :
  length a = 8%nat ->
  bytes_of_bits (a ++ rest) = bits_value a :: bytes_of_bits rest.
Proof.
  intros Ha.
  do 8 (destruct a as [|? a]; [discriminate Ha|]).
  destruct a; [reflexivity | discriminate Ha].
Qed.

Lemma bytes_of_bits_short (a : list bool) :
  (0 < length a < 8)%nat ->
  bytes_of_bits a = [bits_value (take 8 (a ++ replicate 8 false))].
Proof.
  intros Ha.
  destruct a as [|? a]; [simpl in Ha; lia|].
  do 7 (destruct a as [|? a]; [reflexivity|]).
  simpl in Ha. lia.
Qed.

Lemma mod8_add (n : nat) : ((8 + n) mod 8 = n mod 8)%nat.
Proof.
  replace (8 + n)%nat with (n + 1 * 8)%nat by lia. apply Nat.Div0.mod_add.
Qed.

Lemma bytes_of_bits_app (a b : list bool) :
  (length a mod 8 = 0)%nat ->
  bytes_of_bits (a ++ b) = bytes_of_bits a ++ bytes_of_bits b.
Proof.
  induction a as [| a Ha | a rest Ha IH] using chunks_ind; intros Hm.
  - reflexivity.
  - rewrite Nat.mod_small in Hm by lia. lia.
  - rewrite <- app_assoc, (bytes_of_bits_chunk a (rest ++ b)),
      (bytes_of_bits_chunk a rest) by exact Ha.
    simpl. f_equal. apply IH.
    by rewrite length_app, Ha, mod8_add in Hm.
Qed.

Lemma length_bytes_of_bits (l : list bool) :
  len (bytes_of_bits l) = (len l + 7) / 8.
Proof.
  unfold len.
  induction l as [| a Ha | a rest Ha IH] using chunks_ind.
  - reflexivity.
  - rewrite bytes_of_bits_short by exact Ha. simpl length.
    apply Z.div_unique with (r := Z.of_nat (length a) - 1); lia.
  - rewrite bytes_of_bits_chunk by exact Ha. simpl length.
    rewrite length_app, Ha, Nat2Z.inj_succ, IH.
    replace (Z.of_nat (8 + length rest) + 7) with (Z.of_nat (length rest) + 7 + 1 * 8) by lia.
    rewrite Z.div_add by lia. lia.
Qed.

Lemma bits_value_app (a b : list bool) :
  bits_value (a ++ b) = bits_value a * 2 ^ len b + bits_value b.
Proof.
  unfold bits_value, len.
  enough (forall l acc,
    fold_left (fun a0 (b0 : bool) => 2 * a0 + (if b0 then 1 else 0)) l acc
    = acc * 2 ^ Z.of_nat (length l)
      + fold_left (fun a0 (b0 : bool) => 2 * a0 + (if b0 then 1 else 0)) l 0) as H.
  { rewrite fold_left_app. rewrite (H b). reflexivity. }
  induction l as [|x l IH]; intros acc.
  - simpl. lia.
  - cbn [fold_left length]. rewrite (IH (2 * acc + _)), (IH (2 * 0 + _)).
    rewrite Nat2Z.inj_succ, Z.pow_succ_r by lia. lia.
Qed.

Lemma length_uint_bits (v : Z) (n : nat) : length (uint_bits v n) = n.
Proof. unfold uint_bits. by rewrite length_map, length_rev, length_seq. Qed.

Lemma uint_bits_S (v : Z) (n : nat) :
  uint_bits v (S n) = Z.testbit v (Z.of_nat n) :: uint_bits v n.
Proof.
  unfold uint_bits. rewrite seq_S, rev_app_distr. reflexivity.
Qed.

Lemma bits_value_uint_bits (v : Z) (n : nat) :
  bits_value (uint_bits v n) = v mod 2 ^ Z.of_nat n.
Proof.
  induction n as [|n IH].
  - simpl. by rewrite Z.mod_1_r.
  - rewrite uint_bits_S.
    change (Z.testbit v (Z.of_nat n) :: uint_bits v n)
      with ([Z.testbit v (Z.of_nat n)] ++ uint_bits v n).
    rewrite bits_value_app, IH. unfold len. rewrite length_uint_bits.
    rewrite Nat2Z.inj_succ, Z.pow_succ_r by lia.
    rewrite (Z.mul_comm 2), Z.rem_mul_r by lia.
    assert (Hb : bits_value [Z.testbit v (Z.of_nat n)] = (v / 2 ^ Z.of_nat n) mod 2).
    { rewrite <- Z.shiftr_div_pow2 by lia.
      rewrite <- Z.bit0_mod. rewrite Z.shiftr_spec by lia. 
      rewrite Z.add_0_l. unfold bits_value. simpl.
      by destruct (Z.testbit v (Z.of_nat n)). }
    rewrite Hb. lia.
Qed.

Lemma uint_bits_bits_value (a : list bool) :
  length a = 8%nat -> uint_bits (bits_value a) 8 = a.
Proof.
  intros Ha.
  do 8 (destruct a as [|[] a]; [discriminate Ha| |]);
    (destruct a; [reflexivity | discriminate Ha]).
Qed.

Lemma length_bits_of_bytes (bs : list Z) :
  length (bits_of_bytes bs) = (8 * length bs)%nat.
Proof.
  unfold bits_of_bytes. induction bs as [|b bs IH]; [reflexivity|].
  cbn [map concat]. rewrite length_app, IH, length_uint_bits. simpl. lia.
Qed.

Lemma bits_of_bytes_app (a b : list Z) :
  bits_of_bytes (a ++ b) = bits_of_bytes a ++ bits_of_bytes b.
Proof. unfold bits_of_bytes. by rewrite map_app, concat_app. Qed.

Lemma bytes_of_bits_of_bytes (bs : list Z) (rest : list bool) :
  bytes_ok bs ->
  bytes_of_bits (bits_of_bytes bs ++ rest) = bs ++ bytes_of_bits rest.
Proof.
  induction 1 as [|b bs Hb Hbs IH]; [reflexivity|].
  unfold bits_of_bytes in *. cbn [map concat]. rewrite <- app_assoc.
  rewrite bytes_of_bits_chunk by apply length_uint_bits.
  rewrite IH. simpl. f_equal.
  rewrite bits_value_uint_bits. apply Z.mod_small. exact Hb.
Qed.

Lemma bits_value_bound (a : list bool) :
  0 <= bits_value a < 2 ^ len a.
Proof.
  unfold bits_value, len.
  enough (forall l acc, 0 <= acc ->
    0 <= fold_left (fun a0 (b0 : bool) => 2 * a0 + (if b0 then 1 else 0)) l acc
      < (acc + 1) * 2 ^ Z.of_nat (length l)) as H.
  { specialize (H a 0). lia. }
  induction l as [|x l IH]; intros acc Hacc.
  - simpl. lia.
  - cbn [fold_left length]. rewrite Nat2Z.inj_succ, Z.pow_succ_r by lia.
    assert (Hx : 0 <= 2 * acc + (if x then 1 else 0)) by (destruct x; lia).
    specialize (IH _ Hx).
    assert (0 < 2 ^ Z.of_nat (length l)) by (apply Z.pow_pos_nonneg; lia).
    destruct x; nia.
Qed.

Lemma bits_value_byte (a : list bool) :
  (length a <= 8)%nat -> is_byte (bits_value a).
Proof.
  intros Ha. pose proof (bits_value_bound a) as Hb. unfold is_byte, len in *.
  assert (2 ^ Z.of_nat (length a) <= 2 ^ 8) by (apply Z.pow_le_mono_r; lia).
  lia.
Qed.

Lemma bytes_of_bits_bytes_ok (l : list bool) : bytes_ok (bytes_of_bits l).
Proof.
  unfold bytes_ok.
  induction l as [| a Ha | a rest Ha IH] using chunks_ind.
  - constructor.
  - rewrite bytes_of_bits_short by exact Ha. constructor; [|constructor].
    apply bits_value_byte. rewrite length_take. lia.
  - rewrite bytes_of_bits_chunk by exact Ha. constructor; [|exact IH].
    apply bits_value_byte. lia.
Qed.

Lemma bits_of_bytes_of_bits (l : list bool) :
  (length l mod 8 = 0)%nat -> bits_of_bytes (bytes_of_bits l) = l.
Proof.
  induction l as [| a Ha | a rest Ha IH] using chunks_ind; intros Hm.
  - reflexivity.
  - rewrite Nat.mod_small in Hm by lia. lia.
  - rewrite bytes_of_bits_chunk by exact Ha.
    unfold bits_of_bytes in *. cbn [map concat].
    rewrite uint_bits_bits_value by exact Ha. f_equal. apply IH.
    by rewrite length_app, Ha, mod8_add in Hm.
Qed.

Lemma take8_fill (a : list bool) (m : nat) :
  (length a <= 8)%nat -> (8 - length a <= m)%nat ->
  take 8 (a ++ replicate m false) = a ++ replicate (8 - length a) false.
Proof.
  intros Ha Hm. rewrite take_app_ge by exact Ha.
  rewrite take_replicate. do 2 f_equal. lia.
Qed.

Lemma bytes_of_bits_head_fill (a : list bool) (k : nat) :
  (0 < length a < 8)%nat ->
  take 1 (bytes_of_bits (a ++ replicate k false))
  = [bits_value (take 8 (a ++ replicate 8 false))].
Proof.
  intros Ha. rewrite (take8_fill a 8) by lia.
  destruct (decide (length a + k < 8)%nat) as [Hlt|Hge].
  - rewrite bytes_of_bits_short by (rewrite length_app, length_replicate; lia).
    cbn [take]. do 2 f_equal.
    rewrite <- app_assoc, <- replicate_add. apply take8_fill; lia.
  - replace k with ((8 - length a) + (k - (8 - length a)))%nat at 1 by lia.
    rewrite replicate_add, app_assoc.
    rewrite bytes_of_bits_chunk by (rewrite length_app, length_replicate; lia).
    reflexivity.
Qed.

(** Zero fill does not change the bytes that hold the written bits. *)
Lemma bytes_of_bits_fill (l : list bool) (k : nat) :
  take (length (bytes_of_bits l)) (bytes_of_bits (l ++ replicate k false))
  = bytes_of_bits l.
Proof.
  induction l as [| a Ha | a rest Ha IH] using chunks_ind.
  - reflexivity.
  - rewrite (bytes_of_bits_short a) by exact Ha. cbn [length].
    by apply bytes_of_bits_head_fill.
  - rewrite <- app_assoc, (bytes_of_bits_chunk a (rest ++ _)),
      (bytes_of_bits_chunk a rest) by exact Ha.
    cbn [length take]. f_equal. exact IH.
Qed.

(** ** The descriptor and payload bytes of a cell *)

Lemma ceil8_split (n : Z) :
  (n + 7) / 8 = n / 8 + (if n mod 8 =? 0 then 0 else 1).
Proof.
  pose proof (Z.div_mod n 8 ltac:(lia)) as Hn.
  pose proof (Z.mod_pos_bound n 8 ltac:(lia)) as Hr.
  destruct (Z.eqb_spec (n mod 8) 0) as [E|E].
  - symmetry. apply Z.div_unique with (r := 7); lia.
  - symmetry. apply Z.div_unique with (r := n mod 8 - 1); lia.
Qed.

Lemma terminator_bit (a : list bool) :
  (0 < length a < 8)%nat ->
  Z.lor (bits_value (take 8 (a ++ replicate 8 false)))
        (byte (Z.shiftl 1 (7 - Z.of_nat (length a))))
  = bits_value (take 8 ((a ++ [true]) ++ replicate 8 false)).
Proof.
  intros Ha.
  destruct a as [|[] a]; [simpl in Ha; lia| |];
  (do 7 (destruct a as [|[] a]; [reflexivity| |]));
  simpl in Ha; lia.
Qed.

Lemma len_app {A : Type} (a b : list A) : len (a ++ b) = len a + len b.
Proof. unfold len. rewrite length_app. lia. Qed.

Lemma len_cons {A : Type} (x : A) (l : list A) : len (x :: l) = 1 + len l.
Proof. unfold len. simpl length. lia. Qed.

Lemma len_nonneg {A : Type} (l : list A) : 0 <= len l.
Proof. unfold len. lia. Qed.

Lemma len_chunk_mod (a rest : list bool) :
  length a = 8%nat -> len (a ++ rest) mod 8 = len rest mod 8.
Proof.
  intros Ha. rewrite len_app. unfold len at 1. rewrite Ha.
  replace (Z.of_nat 8 + len rest) with (len rest + 1 * 8) by lia.
  apply Z.mod_add. lia.
Qed.

Lemma top_up_last (w : list bool) :
  len w mod 8 <> 0 ->
  alter (fun b => Z.lor b (byte (Z.shiftl 1 (7 - len w mod 8))))
        (length (bytes_of_bits w) - 1)%nat (bytes_of_bits w)
  = bytes_of_bits (w ++ [true]).
Proof.
  induction w as [| a Ha | a rest Ha IH] using chunks_ind; intros Hm.
  - exfalso. apply Hm. reflexivity.
  - rewrite bytes_of_bits_short by exact Ha. cbn [length Nat.sub alter list_alter].
    assert (Hl : len a mod 8 = Z.of_nat (length a))
      by (apply Z.mod_small; unfold len; lia).
    rewrite Hl, terminator_bit by exact Ha.
    destruct (decide (length a = 7%nat)) as [E|E].
    + rewrite <- (app_nil_r (a ++ [true])) at 2.
      rewrite bytes_of_bits_chunk by (rewrite length_app; simpl; lia).
      simpl. do 2 f_equal. rewrite take_app_le by (rewrite length_app; simpl; lia).
      rewrite take_ge by (rewrite length_app; simpl; lia). reflexivity.
    + rewrite (bytes_of_bits_short (a ++ [true])) by (rewrite length_app; simpl; lia).
      reflexivity.
  - rewrite len_chunk_mod in * by exact Ha.
    rewrite <- app_assoc, (bytes_of_bits_chunk a (rest ++ _)),
      (bytes_of_bits_chunk a rest) by exact Ha.
    specialize (IH Hm).
    destruct (bytes_of_bits rest) as [|b0 bs] eqn:E.
    + exfalso. pose proof (length_bytes_of_bits rest) as Hl. rewrite E in Hl.
      unfold len in Hl at 1. simpl in Hl. rewrite ceil8_split in Hl.
      pose proof (Z.div_pos (len rest) 8 (len_nonneg _) ltac:(lia)).
      destruct (Z.eqb_spec (len rest mod 8) 0); lia.
    + cbn [length Nat.sub]. cbn [length Nat.sub] in IH.
      rewrite Nat.sub_0_r in *. destruct (length bs) eqn:El.
      * cbn [alter list_alter]. f_equal. exact IH.
      * cbn [alter list_alter]. f_equal. exact IH.
Qed.

Lemma len_top_upped (w : list bool) : len (top_upped w) = (len w + 7) / 8.
Proof.
  unfold top_upped. destruct (Z.eqb_spec (len w mod 8) 0) as [E|E].
  - apply length_bytes_of_bits.
  - rewrite length_bytes_of_bits, len_app. change (len [true]) with 1.
    rewrite !ceil8_split.
    pose proof (Z.div_mod (len w) 8 ltac:(lia)) as Hn.
    pose proof (Z.mod_pos_bound (len w) 8 ltac:(lia)) as Hr.
    destruct (Z.eqb_spec (len w mod 8) 0); [lia|].
    destruct (Z.eqb_spec ((len w + 1) mod 8) 0) as [E1|E1].
    + assert ((len w + 1) / 8 = len w / 8 + 1); [|lia].
      symmetry. apply Z.div_unique with (r := 0); [lia|].
      pose proof (Z.div_mod (len w + 1) 8 ltac:(lia)) as Hn1.
      assert (len w mod 8 = 7); [|lia].
      pose proof (Z.div_pos (len w + 1) 8). 
      assert (Hk : (len w + 1) / 8 = len w / 8 \/ (len w + 1) / 8 = len w / 8 + 1) by lia.
      destruct Hk; lia.
    + assert ((len w + 1) / 8 = len w / 8); [|lia].
      symmetry. apply Z.div_unique with (r := len w mod 8 + 1); [|lia].
      assert (len w mod 8 <> 7); [|lia]. intros E7. apply E1.
      replace (len w + 1) with (0 + (len w / 8 + 1) * 8) by lia.
      rewrite Z.mod_add by lia. reflexivity.
Qed.

Lemma bocReprWithoutRefs_spec (c : Cell) :
  bocReprWithoutRefs c
  = byte (RefsSize c) :: byte ((BitSize c + 7) / 8 + BitSize c / 8)
      :: top_upped (written (Bits c)).
Proof.
  unfold bocReprWithoutRefs, BitSize, Cursor, top_upped, buf.
  set (w := written (Bits c)).
  set (k := (Z.to_nat (8 * ((capacity (Bits c) + 7) / 8)) - length w)%nat).
  assert (Hn : Z.to_nat ((len w + 7) / 8) = length (bytes_of_bits w)).
  { rewrite <- length_bytes_of_bits. unfold len. lia. }
  assert (Hcopy : go_copy (replicate (Z.to_nat ((len w + 7) / 8)) 0)
                          (bytes_of_bits (w ++ replicate k false))
                  = bytes_of_bits w).
  { unfold go_copy. rewrite length_replicate, Hn, bytes_of_bits_fill.
    rewrite drop_ge; [by rewrite app_nil_r|].
    rewrite length_replicate.
    pose proof (length_bytes_of_bits (w ++ replicate k false)) as H1.
    pose proof (length_bytes_of_bits w) as H2.
    rewrite len_app in H1. unfold len in H1 at 1, H2 at 1.
    assert ((len w + 7) / 8 <= (len w + len (replicate k false) + 7) / 8).
    { apply Z.div_le_mono; [lia|]. pose proof (len_nonneg (replicate k false)). lia. }
    lia. }
  rewrite Hcopy.
  destruct (Z.eqb_spec (len w mod 8) 0) as [E|E]; [reflexivity|].
  cbn [negb length Nat.sub].
  pose proof (top_up_last w E) as Ht.
  destruct (bytes_of_bits w) as [|b0 bs] eqn:Eb.
  - exfalso. pose proof (length_bytes_of_bits w) as Hl. rewrite Eb in Hl.
    unfold len in Hl at 1. simpl in Hl. rewrite ceil8_split in Hl.
    pose proof (Z.div_pos (len w) 8 (len_nonneg _) ltac:(lia)).
    destruct (Z.eqb_spec (len w mod 8) 0); lia.
  - cbn [length Nat.sub] in Ht. rewrite Nat.sub_0_r in Ht.
    cbn [length alter list_alter]. f_equal. f_equal. exact Ht.
Qed.

Lemma len_bocReprWithoutRefs (c : Cell) :
  len (bocReprWithoutRefs c) = 2 + (BitSize c + 7) / 8.
Proof.
  rewrite bocReprWithoutRefs_spec, !len_cons, len_top_upped.
  unfold BitSize, Cursor. lia.
Qed.

Lemma top_upped_bytes_ok (w : list bool) : bytes_ok (top_upped w).
Proof. unfold top_upped. destruct (_ =? _); apply bytes_of_bits_bytes_ok. Qed.

Lemma bocReprWithoutRefs_bytes_ok (c : Cell) : bytes_ok (bocReprWithoutRefs c).
Proof.
  rewrite bocReprWithoutRefs_spec.
  repeat constructor; try apply byte_is_byte. apply top_upped_bytes_ok.
Qed.

(** ** Import is the inverse of export *)

Lemma rev_replicate {A : Type} (k : nat) (x : A) :
  rev (replicate k x) = replicate k x.
Proof.
  induction k as [|k IH]; [reflexivity|]. simpl. rewrite IH.
  clear IH. induction k as [|k IH]; [reflexivity|]. simpl. by rewrite IH.
Qed.

Lemma strip_terminator_fill (k : nat) (l : list bool) :
  strip_terminator (replicate k false ++ true :: l) = Some l.
Proof. induction k; simpl; auto. Qed.

Lemma SetTopUppedArray_top_upped (s : BitString) (w : list bool) :
  SetTopUppedArray s (top_upped w) (len w mod 8 =? 0)
  = ({| capacity := 8 * len (top_upped w); written := w |}, None).
Proof.
  unfold SetTopUppedArray, top_upped.
  destruct (Z.eqb_spec (len w mod 8) 0) as [E|E].
  - cbn [orb]. rewrite bits_of_bytes_of_bits; [reflexivity|].
    unfold len in E. apply Nat2Z.inj. rewrite Nat2Z.inj_mod. exact E.
  - cbn [orb].
    set (r := (length w mod 8)%nat).
    assert (Hr : Z.of_nat r = len w mod 8)
      by (unfold r, len; by rewrite Nat2Z.inj_mod).
    pose proof (Z.mod_pos_bound (len w) 8 ltac:(lia)) as Hb.
    set (k := (7 - r)%nat).
    assert (Hpad : bytes_of_bits (w ++ [true])
                   = bytes_of_bits ((w ++ [true]) ++ replicate k false)).
    { rewrite <- (take_drop (length w - r) w) at 1 2.
      assert (Hlt : (length (take (length w - r) w) mod 8 = 0)%nat).
      { rewrite length_take.
        pose proof (Nat.div_mod_eq (length w) 8) as Hd. fold r in Hd.
        rewrite Nat.min_l by lia.
        replace (length w - r)%nat with (length w `div` 8 * 8)%nat by lia.
        apply Nat.Div0.mod_mul. }
      rewrite <- !app_assoc. rewrite !(bytes_of_bits_app (take _ w)) by exact Hlt.
      f_equal.
      assert (Hd : length (drop (length w - r) w) = r).
      { rewrite length_drop. pose proof (Nat.Div0.mod_le (length w) 8). fold r in H. lia. }
      set (a := drop (length w - r) w) in *.
      destruct (decide (r = 7%nat)) as [E7|E7].
      - unfold k. rewrite E7. reflexivity.
      - rewrite (bytes_of_bits_short (a ++ [true]))
          by (rewrite length_app; simpl; lia).
        rewrite <- (app_nil_r (a ++ [true] ++ replicate k false)).
        rewrite bytes_of_bits_chunk
          by (rewrite !length_app, length_replicate; simpl; unfold k; lia).
        simpl bytes_of_bits. do 2 f_equal.
        rewrite <- app_assoc. rewrite take_app_ge by (rewrite Hd; lia).
        f_equal. rewrite Hd. replace (8 - r)%nat with (S k) by (unfold k; lia).
        cbn [app take]. f_equal.
        rewrite take_replicate. f_equal. unfold k. lia. }
    rewrite Hpad.
    assert (Hz : (len (bytes_of_bits ((w ++ [true]) ++ replicate k false)) =? 0) = false).
    { apply Z.eqb_neq. rewrite length_bytes_of_bits, !len_app.
      change (len [true]) with 1. pose proof (len_nonneg w).
      pose proof (len_nonneg (replicate k false)).
      assert (1 <= (len w + 1 + len (replicate k false) + 7) / 8); [|lia].
      apply Z.div_le_lower_bound; lia. }
    rewrite Hz.
    rewrite bits_of_bytes_of_bits.
    2:{ rewrite !length_app, length_replicate. cbn [length]. unfold k.
        pose proof (Nat.div_mod_eq (length w) 8) as Hd. fold r in Hd.
        replace (length w + 1 + (7 - r))%nat with ((length w `div` 8 + 1) * 8)%nat by lia.
        apply Nat.Div0.mod_mul. }
    rewrite !rev_app_distr, rev_replicate. simpl rev at 1.
    cbn [app]. rewrite strip_terminator_fill, rev_involutive. reflexivity.
Qed.

(** ** Go slices *)

Lemma index_0 {A : Type} (x : A) (l : list A) : index (x :: l) 0 = Ok x.
Proof. unfold index. rewrite len_cons. pose proof (len_nonneg l).
  replace (0 <? 1 + len l) with true by (symmetry; apply Z.ltb_lt; lia). reflexivity. Qed.

Lemma index_nat {A : Type} (l : list A) (i : nat) (x : A) :
  l !! i = Some x -> index l (Z.of_nat i) = Ok x.
Proof.
  intros Hi. unfold index, len. pose proof (lookup_lt_Some _ _ _ Hi).
  replace (0 <=? Z.of_nat i) with true by (symmetry; apply Z.leb_le; lia).
  replace (Z.of_nat i <? Z.of_nat (length l)) with true by (symmetry; apply Z.ltb_lt; lia).
  by rewrite Nat2Z.id, Hi.
Qed.

Lemma slice_from_app {A : Type} (a b : list A) (n : Z) :
  n = len a -> slice_from (a ++ b) n = Ok b.
Proof.
  intros ->. unfold slice_from. rewrite len_app.
  pose proof (len_nonneg a). pose proof (len_nonneg b).
  replace (0 <=? len a) with true by (symmetry; apply Z.leb_le; lia).
  replace (len a <=? len a + len b) with true by (symmetry; apply Z.leb_le; lia).
  simpl. unfold len. rewrite Nat2Z.id. by rewrite drop_app_length.
Qed.

Lemma slice_to_app {A : Type} (a b : list A) (n : Z) :
  n = len a -> slice_to (a ++ b) n = Ok a.
Proof.
  intros ->. unfold slice_to. rewrite len_app.
  pose proof (len_nonneg a). pose proof (len_nonneg b).
  replace (0 <=? len a) with true by (symmetry; apply Z.leb_le; lia).
  replace (len a <=? len a + len b) with true by (symmetry; apply Z.leb_le; lia).
  simpl. unfold len. rewrite Nat2Z.id. by rewrite take_app_length.
Qed.

Lemma slice_from_1 {A : Type} (x : A) (l : list A) : slice_from (x :: l) 1 = Ok l.
Proof. by apply (slice_from_app [x] l 1). Qed.

Lemma slice_from_2 {A : Type} (x y : A) (l : list A) :
  slice_from (x :: y :: l) 2 = Ok l.
Proof. by apply (slice_from_app [x; y] l 2). Qed.

Lemma index_1 {A : Type} (x y : A) (l : list A) : index (x :: y :: l) 1 = Ok y.
Proof. by apply (index_nat (x :: y :: l) 1 y). Qed.

(** ** Reading big-endian integers *)

Lemma uint_small (x : Z) : 0 <= x < 2 ^ 64 -> uint x = x.
Proof. intros. unfold uint. by apply Z.mod_small. Qed.

Lemma int_small (x : Z) : 0 <= x < 2 ^ 63 -> int x = x.
Proof. intros. unfold int. rewrite Z.mod_small; lia. Qed.

Lemma byte_small (x : Z) : 0 <= x < 256 -> byte x = x.
Proof. intros. unfold byte. by apply Z.mod_small. Qed.

Lemma read1 (b : Z) (l : list Z) :
  is_byte b -> readNBytesUIntFromArray 1 (b :: l) = Ok b.
Proof.
  intros Hb. unfold readNBytesUIntFromArray. change (Z.to_nat 1) with 1%nat.
  cbn [readNBytes_loop]. rewrite index_0, bind_Ok.
  unfold is_byte in Hb. f_equal. rewrite (uint_small (0 * 256)), uint_small; lia.
Qed.

Lemma read2 (b1 b0 : Z) (l : list Z) :
  is_byte b1 -> is_byte b0 ->
  readNBytesUIntFromArray 2 (b1 :: b0 :: l) = Ok (b1 * 256 + b0).
Proof.
  intros H1 H0. unfold readNBytesUIntFromArray. change (Z.to_nat 2) with 2%nat.
  cbn [readNBytes_loop]. rewrite index_0, bind_Ok.
  change (0 + 1) with 1. rewrite index_1, bind_Ok.
  unfold is_byte in *. f_equal.
  rewrite (uint_small (0 * 256)) by lia. rewrite (uint_small (0 * 256 + b1)) by lia.
  rewrite (uint_small ((0 * 256 + b1) * 256)) by lia. rewrite uint_small; lia.
Qed.

Lemma read_uints_1 (l rest acc : list Z) :
  bytes_ok l ->
  read_uints (length l) 1 (l ++ rest) acc = Ok (acc ++ l, rest).
Proof.
  intros Hl. revert acc. induction Hl as [|b l Hb Hl IH]; intros acc.
  - simpl. by rewrite app_nil_r.
  - cbn [length read_uints app]. rewrite read1 by exact Hb. rewrite bind_Ok.
    rewrite slice_from_1, bind_Ok, IH. by rewrite <- app_assoc.
Qed.

(** ** Decoding one serialized cell *)

Lemma descriptor_d2 (n : Z) :
  0 <= n <= 1023 ->
  let d2 := (n + 7) / 8 + n / 8 in
  0 <= d2 < 256 /\ (d2 + 1) / 2 = (n + 7) / 8 /\
  negb (0 <? d2 mod 2) = (n mod 8 =? 0).
Proof.
  intros Hn d2. subst d2. rewrite ceil8_split.
  pose proof (Z.div_mod n 8 ltac:(lia)) as Hd.
  pose proof (Z.mod_pos_bound n 8 ltac:(lia)) as Hr.
  assert (0 <= n / 8 <= 127).
  { split; [apply Z.div_pos; lia|]. apply Z.lt_succ_r, Z.div_lt_upper_bound; lia. }
  destruct (Z.eqb_spec (n mod 8) 0) as [E|E].
  - split; [lia|]. split.
    + symmetry. apply Z.div_unique with (r := 1); lia.
    + replace (n / 8 + 0 + n / 8) with (0 + (n / 8) * 2) by lia.
      rewrite Z.mod_add by lia. reflexivity.
  - split; [lia|]. split.
    + symmetry. apply Z.div_unique with (r := 0); lia.
    + replace (n / 8 + 1 + n / 8) with (1 + (n / 8) * 2) by lia.
      rewrite Z.mod_add by lia. reflexivity.
Qed.

Lemma deserializeCellData_repr (c : Cell) (js rest : list Z) :
  cell_ok c -> len js = RefsSize c -> bytes_ok js ->
  deserializeCellData (bocReprWithoutRefs c ++ js ++ rest) 1
  = Ok (undecoded c, js, rest).
Proof.
  intros (Hr & Hb) Hjs Hok.
  pose proof (len_nonneg (Refs c)) as Hr0. fold (RefsSize c) in Hr0.
  pose proof (len_nonneg (written (Bits c))) as Hb0.
  fold (Cursor (Bits c)) in Hb0. fold (BitSize c) in Hb0.
  destruct (descriptor_d2 (BitSize c) ltac:(lia)) as (Hd2 & Hsize & Hfull).
  rewrite bocReprWithoutRefs_spec.
  rewrite (byte_small (RefsSize c)) by lia.
  rewrite (byte_small (_ + _)) by lia.
  set (d2 := (BitSize c + 7) / 8 + BitSize c / 8) in *.
  set (w := written (Bits c)).
  unfold deserializeCellData.
  cbn [app]. rewrite !len_cons.
  pose proof (len_nonneg (top_upped w ++ js ++ rest)).
  replace (1 + (1 + len (top_upped w ++ js ++ rest)) <? 2) with false
    by (symmetry; apply Z.ltb_ge; lia).
  rewrite index_0, bind_Ok.
  rewrite index_1, bind_Ok, slice_from_2, bind_Ok.
  assert (Hex : (0 <? Z.land (RefsSize c) 8) = false).
  { assert (Hc : RefsSize c = 0 \/ RefsSize c = 1 \/ RefsSize c = 2 \/
                 RefsSize c = 3 \/ RefsSize c = 4) by lia.
    destruct Hc as [->|[->|[->|[->| ->]]]]; reflexivity. }
  rewrite Hex. rewrite (Z.mod_small (RefsSize c) 8) by lia.
  rewrite Hsize, Hfull.
  assert (Hlw : len (top_upped w) = (BitSize c + 7) / 8)
    by (rewrite len_top_upped; reflexivity).
  rewrite !len_app, Hlw, Hjs.
  pose proof (len_nonneg rest).
  replace (_ <? _) with false by (symmetry; apply Z.ltb_ge; lia).
  rewrite slice_to_app by (symmetry; exact Hlw). rewrite bind_Ok.
  rewrite slice_from_app by (symmetry; exact Hlw). rewrite bind_Ok.
  unfold BitSize, Cursor. fold w. rewrite SetTopUppedArray_top_upped.
  replace (Z.to_nat (RefsSize c)) with (length js) by (unfold len in Hjs; lia).
  rewrite read_uints_1 by exact Hok. rewrite bind_Ok. cbn [fst snd app].
  do 3 f_equal.
  clear -Hok. induction Hok as [|b l Hb Hl IH]; [reflexivity|].
  simpl. rewrite IH. f_equal. unfold is_byte in Hb. apply int_small. lia.
Qed.

(** ** Decoding the cell stream *)

Lemma read_cells_items (items : list (Cell * list Z)) :
  Forall item_ok items ->
  forall h ca ra,
    read_cells (length items) h (concat (map item_bytes items)) 1 ca ra
    = Ok (h ++ map (fun it => undecoded (fst it)) items,
          ca ++ map Some (seq (length h) (length items)),
          ra ++ map snd items).
Proof.
  induction 1 as [|[c js] items (Hc & Hl & Hb) Hitems IH]; intros h ca ra.
  - simpl. by rewrite !app_nil_r.
  - cbn [length read_cells map concat]. unfold item_bytes at 1. cbn [fst snd].
    rewrite <- app_assoc. rewrite deserializeCellData_repr by assumption.
    cbn [drop_error]. rewrite bind_Ok. unfold alloc. cbn [fst snd].
    rewrite IH. rewrite length_app. cbn [length seq map].
    rewrite <- !app_assoc. cbn [app].
    by replace (length h + 1)%nat with (S (length h)) by lia.
Qed.

(** ** Linking the decoded cells *)

Lemma link_refs_ok (n : nat) (c : list Z) :
  forall (h : heap) (i ri : nat) (cell : Cell),
    h !! i = Some cell -> (i < n)%nat ->
    Forall (fun r => Z.of_nat i <= r < Z.of_nat n) c ->
    (ri + length c <= length (refs cell))%nat ->
    link_refs h (map Some (seq 0 n)) (Z.of_nat i) (Z.of_nat ri) c
    = Ok (<[i := set_refs cell
                   (list_inserts ri (map (fun r => Some (Z.to_nat r)) c) (refs cell))]> h).
Proof.
  induction c as [|r c IH]; intros h i ri cell Hi Hn Hc Hri.
  - cbn [link_refs map list_inserts]. f_equal. symmetry.
    apply list_insert_id. rewrite Hi. f_equal. by destruct cell.
  - apply Forall_cons in Hc as (Hr & Hc). cbn [link_refs length] in *.
    replace (r <? Z.of_nat i) with false by (symmetry; apply Z.ltb_ge; lia).
    rewrite (index_nat _ i (Some i))
      by (rewrite list_lookup_fmap, lookup_seq_lt by lia; reflexivity).
    rewrite bind_Ok. cbn [nonnil]. rewrite bind_Ok.
    unfold deref. rewrite Hi, bind_Ok.
    replace r with (Z.of_nat (Z.to_nat r)) at 1 by lia.
    rewrite (index_nat _ (Z.to_nat r) (Some (Z.to_nat r)))
      by (rewrite list_lookup_fmap, lookup_seq_lt by lia; reflexivity).
    rewrite bind_Ok.
    replace (len (refs cell) <=? Z.of_nat ri) with false
      by (symmetry; apply Z.leb_gt; unfold len; lia).
    replace (Z.of_nat ri + 1) with (Z.of_nat (S ri)) by lia.
    rewrite Nat2Z.id.
    rewrite (IH _ i (S ri) (set_refs cell (<[ri := Some (Z.to_nat r)]> (refs cell)))).
    + rewrite list_insert_insert_eq. f_equal. f_equal.
      unfold set_refs. cbn [Bits isExotic refs map list_inserts]. f_equal.
      rewrite list_insert_inserts_lt by lia. reflexivity.
    + apply list_lookup_insert_eq. by eapply lookup_lt_Some.
    + exact Hn.
    + exact Hc.
    + cbn [set_refs refs]. rewrite length_insert. lia.
Qed.

Lemma link_cells_ok (n : nat) (ra : list (list Z)) (k : nat) :
  forall h : heap,
    length h = n -> length ra = n -> (k <= n)%nat ->
    (forall i cell c, h !! i = Some cell -> ra !! i = Some c ->
       (length c <= length (refs cell))%nat /\
       Forall (fun r => Z.of_nat i <= r < Z.of_nat n) c) ->
    exists h', link_cells k h (map Some (seq 0 n)) ra = Ok h' /\
      length h' = n /\
      forall i cell c, h !! i = Some cell -> ra !! i = Some c ->
        h' !! i = Some (if decide (i < k)%nat then linked_cell cell c else cell).
Proof.
  induction k as [|k IH]; intros h Hh Hra Hk Hok.
  - exists h. split; [reflexivity|]. split; [exact Hh|].
    intros i cell c Hi _. destruct (decide (i < 0)%nat); [lia | exact Hi].
  - cbn [link_cells].
    destruct (lookup_lt_is_Some_2 ra k ltac:(lia)) as (c & Hc).
    destruct (lookup_lt_is_Some_2 h k ltac:(lia)) as (cell & Hcell).
    destruct (Hok k cell c Hcell Hc) as (Hlen & Hall).
    rewrite (index_nat _ k c Hc), bind_Ok.
    pose proof (link_refs_ok n c h k 0 cell Hcell ltac:(lia) Hall ltac:(lia)) as Hlr.
    change (Z.of_nat 0) with 0 in Hlr. rewrite Hlr, bind_Ok. fold (linked_cell cell c).
    destruct (IH (<[k := linked_cell cell c]> h)) as (h' & Hl & Hlen' & Hh').
    + by rewrite length_insert.
    + exact Hra.
    + lia.
    + intros i cell' c' Hi Hc'. destruct (decide (i = k)) as [->|Hne].
      * rewrite list_lookup_insert_eq in Hi by lia. injection Hi as <-.
        rewrite Hc in Hc'. injection Hc' as <-.
        unfold linked_cell. cbn [set_refs refs]. rewrite length_inserts.
        split; [exact Hlen | exact Hall].
      * rewrite list_lookup_insert_ne in Hi by congruence. by apply Hok.
    + exists h'. split; [exact Hl|]. split; [exact Hlen'|].
      intros i cell' c' Hi Hc'. destruct (decide (i = k)) as [->|Hne].
      * rewrite Hcell in Hi. injection Hi as <-.
        rewrite Hc in Hc'. injection Hc' as <-.
        rewrite (Hh' k (linked_cell cell c) c);
          [|apply list_lookup_insert_eq; lia | exact Hc].
        destruct (decide (k < k)%nat); [lia|].
        destruct (decide (k < S k)%nat); [reflexivity | lia].
      * rewrite (Hh' i cell' c');
          [|rewrite list_lookup_insert_ne by congruence; exact Hi | exact Hc'].
        destruct (decide (i < k)%nat), (decide (i < S k)%nat); try reflexivity; lia.
Qed.

(** ** Big-endian fields *)

Lemma uint_bits_add (v : Z) (a b : nat) :
  uint_bits v (a + b) = uint_bits (v / 2 ^ Z.of_nat b) a ++ uint_bits v b.
Proof.
  induction a as [|a IH]; [reflexivity|].
  cbn [Nat.add]. rewrite !uint_bits_S, IH. cbn [app]. f_equal.
  rewrite <- Z.shiftr_div_pow2 by lia. rewrite Z.shiftr_spec by lia.
  f_equal. lia.
Qed.

Lemma be_bytes_1 (v : Z) : be_bytes v 1 = [v mod 256].
Proof.
  unfold be_bytes. change (Z.to_nat (1 * 8)) with 8%nat.
  rewrite <- (app_nil_r (uint_bits v 8)).
  rewrite bytes_of_bits_chunk by apply length_uint_bits.
  by rewrite bits_value_uint_bits.
Qed.

Lemma be_bytes_2 (v : Z) : be_bytes v 2 = [(v / 256) mod 256; v mod 256].
Proof.
  unfold be_bytes. change (Z.to_nat (2 * 8)) with (8 + 8)%nat.
  rewrite uint_bits_add.
  rewrite bytes_of_bits_chunk by apply length_uint_bits.
  rewrite <- (app_nil_r (uint_bits v 8)).
  rewrite bytes_of_bits_chunk by apply length_uint_bits.
  by rewrite !bits_value_uint_bits.
Qed.

Lemma offsetBytes_of_small (x : Z) : 0 <= x < 256 -> offsetBytes_of x = 1.
Proof.
  intros Hx. unfold offsetBytes_of, bits_Len, ceil8.
  rewrite uint_small by lia.
  destruct (Z.leb_spec x 0) as [H0|H0]; [reflexivity|].
  assert (Z.log2 x < 8) by (apply Z.log2_lt_pow2; lia).
  pose proof (Z.log2_nonneg x).
  assert ((Z.log2 x + 1 + 7) / 8 = 1); [|lia].
  symmetry. apply Z.div_unique with (r := Z.log2 x); lia.
Qed.

Lemma offsetBytes_of_medium (x : Z) : 256 <= x < 65536 -> offsetBytes_of x = 2.
Proof.
  intros Hx. unfold offsetBytes_of, bits_Len, ceil8.
  rewrite uint_small by lia.
  destruct (Z.leb_spec x 0) as [H0|H0]; [lia|].
  assert (Z.log2 x < 16) by (apply Z.log2_lt_pow2; lia).
  assert (8 <= Z.log2 x) by (apply Z.log2_le_pow2; lia).
  assert ((Z.log2 x + 1 + 7) / 8 = 2); [|lia].
  symmetry. apply Z.div_unique with (r := Z.log2 x - 8); lia.
Qed.

Lemma sBytes_of_pos (n : Z) : 1 <= n < 2 ^ 64 -> sBytes_of n = 1.
Proof.
  intros Hn. unfold sBytes_of, bits_Len, ceil8. rewrite uint_small by lia.
  destruct (Z.leb_spec n 0) as [H0|H0]; [lia|].
  pose proof (Z.log2_nonneg n).
  assert (1 <= (Z.log2 n + 1 + 7) / 8); [|lia].
  apply Z.div_le_lower_bound; lia.
Qed.

(** ** Range of the checksum *)

Lemma lxor_bound (a b n : Z) :
  0 <= n -> 0 <= a < 2 ^ n -> 0 <= b < 2 ^ n -> 0 <= Z.lxor a b < 2 ^ n.
Proof.
  intros Hn Ha Hb.
  assert (Hnn : 0 <= Z.lxor a b) by (apply Z.lxor_nonneg; lia).
  split; [exact Hnn|].
  destruct (Z.eq_dec (Z.lxor a b) 0) as [E|E].
  - rewrite E. apply Z.pow_pos_nonneg; lia.
  - apply Z.log2_lt_pow2; [lia|].
    pose proof (Z.log2_lxor a b ltac:(lia) ltac:(lia)) as Hl.
    assert (Z.log2 a < n \/ a = 0).
    { destruct (Z.eq_dec a 0); [by right|left]. apply Z.log2_lt_pow2; lia. }
    assert (Z.log2 b < n \/ b = 0).
    { destruct (Z.eq_dec b 0); [by right|left]. apply Z.log2_lt_pow2; lia. }
    assert (a = 0 -> Z.log2 a = 0) by (intros ->; reflexivity).
    assert (b = 0 -> Z.log2 b = 0) by (intros ->; reflexivity).
    assert (0 < n).
    { destruct (Z.eq_dec n 0) as [->|]; [|lia]. simpl in Ha, Hb.
      assert (a = 0) by lia. assert (b = 0) by lia. subst a b. exfalso. apply E. reflexivity. }
    lia.
Qed.

Lemma crc_step_bound (c : Z) :
  0 <= c < 2 ^ 32 -> 0 <= CRC32.step CRC32.Castagnoli c < 2 ^ 32.
Proof.
  intros Hc. unfold CRC32.step.
  assert (Hs : 0 <= Z.shiftr c 1 < 2 ^ 32).
  { rewrite Z.shiftr_div_pow2 by lia. change (2 ^ 1) with 2.
    split; [apply Z.div_pos; lia|]. apply Z.div_lt_upper_bound; lia. }
  destruct (Z.odd c); [|exact Hs].
  apply lxor_bound; [lia | exact Hs | unfold CRC32.Castagnoli; lia].
Qed.

Lemma crc_update_bound (c b : Z) :
  0 <= c < 2 ^ 32 -> is_byte b ->
  0 <= CRC32.update_byte CRC32.Castagnoli c b < 2 ^ 32.
Proof.
  intros Hc Hb. unfold CRC32.update_byte, is_byte in *.
  assert (H0 : 0 <= Z.lxor c b < 2 ^ 32) by (apply lxor_bound; lia).
  cbn [Nat.iter]. by do 8 apply crc_step_bound.
Qed.

Lemma crc_fold_bound (data : list Z) :
  bytes_ok data ->
  forall c, 0 <= c < 2 ^ 32 ->
  0 <= fold_left (CRC32.update_byte CRC32.Castagnoli) data c < 2 ^ 32.
Proof.
  induction 1 as [|b data Hb Hd IH]; intros c Hc; [exact Hc|].
  cbn [fold_left]. apply IH. by apply crc_update_bound.
Qed.

Lemma Checksum_bound (data : list Z) :
  bytes_ok data -> 0 <= CRC32.Checksum data CRC32.Castagnoli < 2 ^ 32.
Proof.
  intros Hd. unfold CRC32.Checksum. apply lxor_bound; [lia| |lia].
  apply crc_fold_bound; [exact Hd | lia].
Qed.

Lemma Uint32_le_Put (v : Z) (rest : list Z) :
  0 <= v < 2 ^ 32 -> Uint32_le (PutUint32_le v ++ rest) = v.
Proof.
  intros Hv. unfold PutUint32_le, Uint32_le, byte. cbn [app].
  change (2 ^ 8) with 256. change (2 ^ 16) with (256 * 256).
  change (2 ^ 24) with (256 * 256 * 256).
  rewrite <- !Z.div_div by lia.
  pose proof (Z.div_mod v 256 ltac:(lia)).
  pose proof (Z.div_mod (v / 256) 256 ltac:(lia)).
  pose proof (Z.div_mod (v / 256 / 256) 256 ltac:(lia)).
  assert (0 <= v / 256 / 256 / 256 < 256).
  { split; [repeat apply Z.div_pos; lia|].
    repeat apply Z.div_lt_upper_bound; lia. }
  rewrite (Z.mod_small (v / 256 / 256 / 256)) by lia. lia.
Qed.

(** ** Parsing the header of a serialized stream *)

Lemma flags_byte_props (idx hasCrc32 cacheBits : bool) (flags : Z) :
  0 <= flags < 4 ->
  let fb := flags_byte idx hasCrc32 cacheBits flags in
  is_byte fb /\ (0 <? Z.land fb 128) = idx /\ (0 <? Z.land fb 64) = hasCrc32 /\
  (0 <? Z.land fb 32) = cacheBits /\ fb mod 8 = 1.
Proof.
  intros Hf.
  assert (Hc : flags = 0 \/ flags = 1 \/ flags = 2 \/ flags = 3) by lia.
  destruct Hc as [->|[->|[->| ->]]]; destruct idx, hasCrc32, cacheBits;
    vm_compute; repeat split; congruence.
Qed.

Lemma len_be_bytes (w v : Z) : width_ok w v -> len (be_bytes v w) = w.
Proof.
  intros [(-> & _)|(-> & _)]; [rewrite be_bytes_1 | rewrite be_bytes_2]; reflexivity.
Qed.

Lemma be_bytes_ok (w v : Z) : bytes_ok (be_bytes v w).
Proof. apply bytes_of_bits_bytes_ok. Qed.

Lemma read_be (w v : Z) (rest : list Z) :
  width_ok w v -> readNBytesUIntFromArray w (be_bytes v w ++ rest) = Ok v.
Proof.
  intros [(-> & Hv)|(-> & Hv)].
  - rewrite be_bytes_1. cbn [app]. rewrite read1.
    + f_equal. apply Z.mod_small. lia.
    + apply Z.mod_pos_bound. lia.
  - rewrite be_bytes_2. cbn [app]. rewrite read2.
    + f_equal. pose proof (Z.div_mod v 256 ltac:(lia)).
      rewrite (Z.mod_small (v / 256)); [lia|].
      split; [apply Z.div_pos; lia | apply Z.div_lt_upper_bound; lia].
    + apply Z.mod_pos_bound. lia.
    + apply Z.mod_pos_bound. lia.
Qed.

Lemma width_ok_nonneg (w v : Z) : width_ok w v -> 0 <= v < 65536 /\ 1 <= w <= 2.
Proof. intros [(-> & Hv)|(-> & Hv)]; lia. Qed.

Lemma read_uints_be (w : Z) (os rest : list Z) :
  Forall (width_ok w) os ->
  forall acc,
    read_uints (length os) w (concat (map (fun o => be_bytes o w) os) ++ rest) acc
    = Ok (acc ++ os, rest).
Proof.
  induction 1 as [|o os Ho Hos IH]; intros acc.
  - simpl. by rewrite app_nil_r.
  - cbn [length read_uints map concat]. rewrite <- app_assoc.
    rewrite read_be by exact Ho. rewrite bind_Ok.
    rewrite slice_from_app by (symmetry; by apply len_be_bytes).
    rewrite bind_Ok, IH. by rewrite <- app_assoc.
Qed.

Lemma offsets_bound (cs : list (list Z)) :
  forall a, 0 <= a ->
  Forall (fun o => 0 <= o <= a + len (concat cs)) (offsets a cs).
Proof.
  induction cs as [|c cs IH]; intros a Ha; [constructor|].
  cbn [offsets concat]. rewrite len_app.
  pose proof (len_nonneg c). pose proof (len_nonneg (concat cs)).
  constructor; [lia|].
  eapply Forall_impl; [apply IH; lia|]. simpl. intros o Ho. lia.
Qed.

Lemma length_offsets (a : Z) (cs : list (list Z)) :
  length (offsets a cs) = length cs.
Proof. revert a. induction cs; intros; simpl; auto. Qed.

Lemma len_concat_be (w : Z) (os : list Z) :
  Forall (width_ok w) os ->
  len (concat (map (fun o => be_bytes o w) os)) = w * len os.
Proof.
  induction 1 as [|o os Ho Hos IH]; [simpl; unfold len; simpl; lia|].
  cbn [map concat]. rewrite len_app, len_cons, IH, len_be_bytes by exact Ho. lia.
Qed.

Lemma offsetBytes_width (fullSize : Z) :
  0 <= fullSize < 65536 ->
  forall o, 0 <= o <= fullSize -> width_ok (offsetBytes_of fullSize) o.
Proof.
  intros Hf o Ho. destruct (Z.lt_ge_cases fullSize 256).
  - left. rewrite offsetBytes_of_small by lia. lia.
  - right. rewrite offsetBytes_of_medium by lia. lia.
Qed.

Lemma slice_to_all {A : Type} (l : list A) (n : Z) :
  n = len l -> slice_to l n = Ok l.
Proof.
  intros Hn. pose proof (slice_to_app l [] n Hn) as H. by rewrite app_nil_r in H.
Qed.

Lemma slice_from_all {A : Type} (l : list A) (n : Z) :
  n = len l -> slice_from l n = Ok [].
Proof.
  intros Hn. pose proof (slice_from_app l [] n Hn) as H. by rewrite app_nil_r in H.
Qed.

Lemma len_nil {A : Type} : len (@nil A) = 0.
Proof. reflexivity. Qed.

Ltac len_norm :=
  repeat first [rewrite len_cons | rewrite len_app | rewrite len_nil].

Ltac cmp_false :=
  match goal with
  | |- context [?a <? ?b] =>
      replace (a <? b) with false by (symmetry; apply Z.ltb_ge; lia)
  end.

Lemma parse_stream (cells : list (list Z)) (idx hasCrc32 cacheBits : bool) (fl : Z) :
  1 <= len cells < 256 -> len (concat cells) < 65536 -> 0 <= fl < 4 ->
  bytes_ok (concat cells) ->
  exists fl' ixl,
    parseBocHeader (stream cells idx hasCrc32 cacheBits fl)
    = Ok (mkBocHeader idx hasCrc32 cacheBits fl' 1 (len cells) 1 0
            (len (concat cells)) [0] ixl (concat cells)).
Proof.
  intros Hn Hfull Hfl Hok.
  pose proof (len_nonneg (concat cells)) as Hfull0.
  destruct (flags_byte_props idx hasCrc32 cacheBits fl Hfl)
    as (Hfb & Hidx & Hcrc & Hcache & Hsb).
  set (fb := flags_byte idx hasCrc32 cacheBits fl) in *.
  set (fullSize := len (concat cells)) in *.
  pose proof (offsetBytes_width fullSize ltac:(lia)) as Hw.
  assert (HwF : width_ok (offsetBytes_of fullSize) fullSize) by (apply Hw; lia).
  destruct (width_ok_nonneg _ _ HwF) as (_ & HoffB).
  assert (Hos : Forall (width_ok (offsetBytes_of fullSize)) (offsets 0 cells)).
  { eapply Forall_impl; [apply (offsets_bound cells 0); lia|].
    simpl. intros o Ho. apply Hw. fold fullSize in Ho. lia. }
  set (offB := offsetBytes_of fullSize) in *.
  set (ixpart := if idx then concat (map (fun o => be_bytes o offB) (offsets 0 cells))
                 else []).
  set (body := stream_body cells idx hasCrc32 cacheBits fl).
  set (trailer := if hasCrc32
                  then PutUint32_le (CRC32.Checksum body CRC32.Castagnoli) else []).
  assert (Hstream : stream cells idx hasCrc32 cacheBits fl = body ++ trailer).
  { unfold stream. fold body. unfold trailer. destruct hasCrc32; [reflexivity|].
    by rewrite app_nil_r. }
  assert (Hbody : body = reachBocMagicPrefix ++ fb :: offB :: len cells :: 1 :: 0 ::
                     (be_bytes fullSize offB ++ 0 :: ixpart ++ concat cells)).
  { unfold body, stream_body. fold fullSize offB fb ixpart.
    rewrite !be_bytes_1.
    rewrite (Z.mod_small offB), (Z.mod_small (len cells)) by lia.
    reflexivity. }
  assert (Hbok : bytes_ok body).
  { rewrite Hbody. unfold bytes_ok, reachBocMagicPrefix.
    repeat (apply Forall_cons; split; [first [exact Hfb | unfold is_byte; lia]|]).
    apply Forall_app. split; [apply be_bytes_ok|].
    apply Forall_cons. split; [unfold is_byte; lia|].
    apply Forall_app. split; [|exact Hok].
    unfold ixpart. destruct idx; [|constructor].
    apply Forall_concat, Forall_map, Forall_forall. intros; apply be_bytes_ok. }
  assert (Hlix : len ixpart = if idx then offB * len cells else 0).
  { unfold ixpart. destruct idx; [|reflexivity].
    rewrite len_concat_be by exact Hos. unfold len. by rewrite length_offsets. }
  assert (Hltr : len trailer = if hasCrc32 then 4 else 0)
    by (unfold trailer; destruct hasCrc32; reflexivity).
  pose proof (len_be_bytes _ _ HwF) as Hlbe.
  exists (byte (byte (Z.land fb 16 * 2) + Z.land fb 8)),
         (if idx then offsets 0 cells else []).
  unfold parseBocHeader, parseBocHeaderWith.
  rewrite Hstream. cbv zeta.
  generalize (eq_refl (body ++ trailer)).
  generalize (body ++ trailer) at 1 3. intros orig Horig.
  unfold parseBocHeaderFrom.
  assert (Hlen : len (body ++ trailer)
                 = 10 + offB + len ixpart + fullSize + len trailer).
  { rewrite len_app, Hbody. unfold reachBocMagicPrefix.
    len_norm. rewrite Hlbe. fold fullSize. lia. }
  pose proof (len_nonneg ixpart). pose proof (len_nonneg trailer).
  rewrite Hlen. cmp_false.
  rewrite Hbody at 1. rewrite <- app_assoc.
  rewrite slice_to_app by reflexivity. rewrite bind_Ok.
  rewrite Hbody at 1. rewrite <- app_assoc.
  rewrite slice_from_app by reflexivity. rewrite bind_Ok.
  unfold parse_flags.
  change (ByteArrayEquals reachBocMagicPrefix reachBocMagicPrefix) with true.
  cbn [app]. repeat (rewrite <- app_assoc; cbn [app]). rewrite index_0, !bind_Ok. rewrite Hidx, Hcrc, Hcache, Hsb.
  rewrite slice_from_1, bind_Ok.
  len_norm. rewrite Hlbe. len_norm. fold fullSize.
  pose proof (len_nonneg (concat cells)).
  cmp_false.
  rewrite index_0, bind_Ok, slice_from_1, bind_Ok.
  rewrite read1, bind_Ok, slice_from_1, bind_Ok by (unfold is_byte; lia).
  rewrite read1, bind_Ok, slice_from_1, bind_Ok by (unfold is_byte; lia).
  rewrite read1, bind_Ok, slice_from_1, bind_Ok by (unfold is_byte; lia).
  rewrite read_be, bind_Ok by exact HwF.
  rewrite slice_from_app, bind_Ok by (symmetry; exact Hlbe).
  rewrite (int_small 1) by lia. rewrite (int_small (1 * 1)) by lia.
  len_norm. cmp_false.
  change (Z.to_nat 1) with 1%nat. cbn [read_uints].
  rewrite read1, bind_Ok, slice_from_1, bind_Ok by (unfold is_byte; lia).
  rewrite bind_Ok. cbn [fst snd app].
  rewrite (int_small (len cells)) by lia.
  assert (Hix :
    (if idx
     then if len (ixpart ++ concat cells ++ trailer) <? int (offB * len cells)
          then Err "not enough bytes for index encoding"
          else read_uints (Z.to_nat (len cells)) offB (ixpart ++ concat cells ++ trailer) []
     else Ok ([], ixpart ++ concat cells ++ trailer))
    = Ok (if idx then offsets 0 cells else [], concat cells ++ trailer)).
  { unfold ixpart in *. destruct idx.
    - rewrite int_small by nia.
      len_norm. rewrite Hlix. fold fullSize. cmp_false.
      replace (Z.to_nat (len cells)) with (length (offsets 0 cells))
        by (rewrite length_offsets; unfold len; lia).
      by rewrite read_uints_be.
    - reflexivity. }
  rewrite Hix, bind_Ok. cbn [fst snd].
  rewrite (int_small fullSize) by lia.
  len_norm. fold fullSize. cmp_false.
  rewrite slice_to_app, bind_Ok by reflexivity.
  rewrite slice_from_app, bind_Ok by reflexivity.
  unfold trailer in *. destruct hasCrc32.
  - pose proof (Checksum_bound body Hbok) as Hcb.
    set (v := CRC32.Checksum body CRC32.Castagnoli) in *.
    change (len (PutUint32_le v)) with 4. cmp_false.
    rewrite (slice_to_all (PutUint32_le v) 4 eq_refl), bind_Ok.
    subst orig.
    rewrite slice_to_app, bind_Ok
      by (rewrite len_app; change (len (PutUint32_le v)) with 4; lia).
    pose proof (Uint32_le_Put v [] Hcb) as Hu. rewrite app_nil_r in Hu.
    rewrite Hu. unfold crcTable. fold v. rewrite Z.eqb_refl. cbn [negb].
    rewrite (slice_from_all (PutUint32_le v) 4 eq_refl), bind_Ok.
    reflexivity.
  - cbn [len length]. rewrite bind_Ok. reflexivity.
Qed.

(** ** The serialized cells as decoder items *)

Lemma unfolds_arity (h : heap) (x : tree) :
  unfolds h x -> RefsSize (tcell x) = len (tchildren x).
Proof.
  destruct x as [p c ch]. intros Hu. apply unfolds_inv in Hu as (_ & Hch & _).
  cbn [tcell tchildren]. unfold RefsSize, len. by rewrite <- Hch, length_map.
Qed.

Lemma child_indices_bound (t : tree) (i : nat) (x : tree) :
  preorder t !! i = Some x ->
  Forall (fun j => (i < j < tsize t)%nat) (child_indices (S i) (tchildren x)).
Proof.
  intros Hx. apply Forall_forall. intros j Hj.
  apply list_elem_of_lookup in Hj as (k & Hk).
  destruct (lookup_lt_is_Some_2 (tchildren x) k) as (y & Hy).
  { rewrite <- (child_indices_length (S i)). by eapply lookup_lt_Some. }
  destruct (preorder_child t i x Hx k j y Hk Hy) as (Hlt & Hj).
  split; [exact Hlt|]. by eapply lookup_lt_Some.
Qed.

Lemma map_byte_small (t : tree) (l : list nat) :
  (tsize t <= 256)%nat -> Forall (fun j => (j < tsize t)%nat) l ->
  map (fun j => byte (Z.of_nat j)) l = map Z.of_nat l.
Proof.
  intros Ht Hl. induction Hl as [|j l Hj Hl IH]; [reflexivity|].
  simpl. rewrite IH. f_equal. apply byte_small. lia.
Qed.

Lemma tcells_items (t : tree) :
  (tsize t <= 256)%nat -> tcells t = map item_bytes (titems t).
Proof.
  intros Ht. unfold tcells, titems. apply list_eq. intros i.
  rewrite list_lookup_fmap, !list_lookup_imap.
  destruct (preorder t !! i) as [x|] eqn:Ex; [|reflexivity].
  simpl. f_equal. unfold cell_bytes, item_bytes. cbn [fst snd]. f_equal.
  apply (map_byte_small t); [exact Ht|].
  eapply Forall_impl; [apply (child_indices_bound t i x Ex)|]. simpl. lia.
Qed.

Lemma titems_ok (h : heap) (t : tree) :
  unfolds h t -> tree_ok t -> (tsize t <= 256)%nat -> Forall item_ok (titems t).
Proof.
  intros Hu Hok Ht. unfold titems. apply Forall_lookup. intros i it Hi.
  rewrite list_lookup_imap in Hi.
  destruct (preorder t !! i) as [x|] eqn:Ex; [|discriminate].
  simpl in Hi. injection Hi as <-. unfold item_ok. cbn [fst snd].
  assert (Hin : x ∈ preorder t) by (eapply list_elem_of_lookup_2; eauto).
  unfold tree_ok in Hok. rewrite Forall_forall in Hok.
  pose proof (preorder_unfolds h t Hu) as Hall. rewrite Forall_forall in Hall.
  split; [apply Hok, Hin|]. split.
  - rewrite (unfolds_arity h x (Hall x Hin)). unfold len.
    by rewrite length_map, child_indices_length.
  - unfold bytes_ok. apply Forall_map.
    eapply Forall_impl; [apply (child_indices_bound t i x Ex)|].
    simpl. intros j Hj. unfold is_byte. lia.
Qed.

Lemma length_titems (t : tree) : length (titems t) = tsize t.
Proof. unfold titems. by rewrite length_imap. Qed.

Lemma length_tcells (t : tree) : length (tcells t) = tsize t.
Proof. unfold tcells. by rewrite length_imap. Qed.

Lemma tcells_bytes_ok (h : heap) (t : tree) :
  unfolds h t -> tree_ok t -> (tsize t <= 256)%nat -> bytes_ok (concat (tcells t)).
Proof.
  intros Hu Hok Ht. rewrite tcells_items by exact Ht.
  pose proof (titems_ok h t Hu Hok Ht) as Hit.
  unfold bytes_ok. apply Forall_concat, Forall_map.
  eapply Forall_impl; [exact Hit|]. intros [c js] (_ & _ & Hjs).
  unfold item_bytes. cbn [fst snd] in *. apply Forall_app. split; [|exact Hjs].
  apply bocReprWithoutRefs_bytes_ok.
Qed.

(** ** Decoding a serialized stream *)

Lemma linked_undecoded (c : Cell) (js : list nat) :
  linked_cell (undecoded c) (map Z.of_nat js) = decoded_cell c js.
Proof.
  unfold linked_cell, undecoded, decoded_cell, set_refs. cbn [Bits isExotic refs].
  do 2 f_equal. rewrite map_map. apply map_ext. intros j. by rewrite Nat2Z.id.
Qed.

Lemma DeserializeBoc_stream (h : heap) (t : tree)
    (idx hasCrc32 cacheBits : bool) (fl : Z) :
  unfolds h t -> tree_ok t -> (tsize t < 256)%nat ->
  len (concat (tcells t)) < 65536 -> 0 <= fl < 4 ->
  DeserializeBoc (stream (tcells t) idx hasCrc32 cacheBits fl)
  = Ok (decoded_heap t, [Some 0%nat]).
Proof.
  intros Hu Hok Ht Hfull Hfl.
  pose proof (tsize_pos t) as Hpos.
  assert (Hn : 1 <= len (tcells t) < 256)
    by (unfold len; rewrite length_tcells; lia).
  destruct (parse_stream (tcells t) idx hasCrc32 cacheBits fl Hn Hfull Hfl
              (tcells_bytes_ok h t Hu Hok ltac:(lia))) as (fl' & ixl & Hparse).
  unfold DeserializeBoc. rewrite Hparse. cbn [drop_error]. rewrite bind_Ok.
  cbn [nonnil]. rewrite bind_Ok. cbn [cellsData cellsNum sizeBytes rootList].
  rewrite (int_small (len (tcells t))) by lia.
  replace (Z.to_nat (len (tcells t))) with (length (titems t))
    by (rewrite length_titems; unfold len; rewrite length_tcells; lia).
  rewrite tcells_items at 1 by lia.
  pose proof (titems_ok h t Hu Hok ltac:(lia)) as Hitems.
  rewrite (read_cells_items (titems t) Hitems [] [] []). rewrite bind_Ok.
  cbn [app length].
  rewrite uint_small by lia. rewrite int_small by lia.
  replace (Z.to_nat (len (tcells t) - 1 + 1)) with (tsize t)
    by (unfold len; rewrite length_tcells; lia).
  rewrite length_titems.
  destruct (link_cells_ok (tsize t) (map snd (titems t)) (tsize t)
              (map (fun it => undecoded (fst it)) (titems t)))
    as (h' & Hlink & Hlen & Hcells).
  { by rewrite length_map, length_titems. }
  { by rewrite length_map, length_titems. }
  { lia. }
  { intros i cell c Hcell Hc. rewrite list_lookup_fmap in Hcell.
    change (map snd (titems t)) with (snd <$> titems t) in Hc.
    rewrite list_lookup_fmap in Hc.
    unfold titems in Hcell, Hc. rewrite list_lookup_imap in Hcell, Hc.
    destruct (preorder t !! i) as [x|] eqn:Ex; [|discriminate].
    simpl in Hcell, Hc. injection Hcell as <-. injection Hc as <-.
    cbn [undecoded refs]. rewrite length_map, child_indices_length, length_replicate.
    pose proof (preorder_unfolds h t Hu) as Hall. rewrite Forall_forall in Hall.
    assert (Hin : x ∈ preorder t) by (eapply list_elem_of_lookup_2; eauto).
    pose proof (unfolds_arity h x (Hall x Hin)) as Har.
    unfold tree_ok in Hok. rewrite Forall_forall in Hok.
    destruct (Hok x Hin) as (Hr & _). split; [unfold len in Har; lia|].
    apply Forall_map.
    eapply Forall_impl; [apply (child_indices_bound t i x Ex)|].
    simpl. lia. }
  rewrite Hlink, bind_Ok. cbn [foldM].
  rewrite (index_nat _ 0 (Some 0%nat)).
  2:{ rewrite list_lookup_fmap, lookup_seq_lt by lia. reflexivity. }
  rewrite !bind_Ok. cbn [app]. do 2 f_equal.
  apply list_eq. intros i. unfold decoded_heap. rewrite list_lookup_imap.
  destruct (preorder t !! i) as [x|] eqn:Ex.
  - rewrite (Hcells i (undecoded (tcell x))
               (map Z.of_nat (child_indices (S i) (tchildren x)))).
    + destruct (decide (i < tsize t)%nat) as [Hlt|Hge].
      * simpl. f_equal. apply linked_undecoded.
      * apply lookup_lt_Some in Ex. unfold tsize in Hge. lia.
    + rewrite list_lookup_fmap. unfold titems. rewrite list_lookup_imap, Ex. reflexivity.
    + rewrite list_lookup_fmap. unfold titems. rewrite list_lookup_imap, Ex. reflexivity.
  - simpl. apply lookup_ge_None. apply lookup_ge_None in Ex. unfold tsize in Hlen. lia.
Qed.

(** ** The decoded graph *)

Lemma decoded_tree_eq (i : nat) (p : ptr) (c : Cell) (ch : list tree) :
  decoded_tree i (Node p c ch)
  = Node i (decoded_cell c (child_indices (S i) ch)) (decoded_children (S i) ch).
Proof. reflexivity. Qed.

Lemma decoded_children_cons (j : nat) (x : tree) (l : list tree) :
  decoded_children j (x :: l)
  = decoded_tree j x :: decoded_children (j + tsize x) l.
Proof. reflexivity. Qed.

Lemma decoded_children_addr (l : list tree) :
  forall j, map taddr (decoded_children j l) = child_indices j l.
Proof.
  induction l as [|x l IH]; intros j; [reflexivity|].
  rewrite decoded_children_cons. cbn [map child_indices]. rewrite IH.
  f_equal. by destruct x.
Qed.

Lemma decoded_children_map {B : Type} (f g : tree -> B) (l : list tree) :
  Forall (fun y => forall j, f (decoded_tree j y) = g y) l ->
  forall j, map f (decoded_children j l) = map g l.
Proof.
  induction 1 as [|x l Hx Hl IH]; intros j; [reflexivity|].
  rewrite decoded_children_cons. cbn [map]. by rewrite Hx, IH.
Qed.

Lemma Refs_decoded_cell (c : Cell) (js : list nat) :
  (length js <= 4)%nat -> Refs (decoded_cell c js) = js.
Proof.
  intros Hjs. rewrite Refs_omap. unfold decoded_cell. cbn [refs].
  replace (replicate 4 None) with
    (replicate (length (map Some js)) (@None nat) ++ replicate (4 - length js) None).
  2:{ rewrite length_map, <- replicate_add. f_equal. lia. }
  rewrite list_inserts_0_r by (by rewrite length_replicate).
  rewrite omap_app.
  assert (H1 : omap id (map Some js) = js).
  { clear. induction js as [|j js IH]; [reflexivity|]. simpl. f_equal. exact IH. }
  assert (H2 : forall k, omap id (replicate k (@None nat)) = []).
  { induction k as [|k IH]; [reflexivity|]. simpl. exact IH. }
  rewrite H1, H2. apply app_nil_r.
Qed.

Lemma bocReprWithoutRefs_decoded (c : Cell) (js : list nat) :
  len js = RefsSize c -> (length js <= 4)%nat ->
  bocReprWithoutRefs (decoded_cell c js) = bocReprWithoutRefs c.
Proof.
  intros Hl Hjs. rewrite !bocReprWithoutRefs_spec.
  unfold RefsSize. rewrite Refs_decoded_cell by exact Hjs.
  fold (RefsSize c). rewrite Hl. reflexivity.
Qed.

Lemma decoded_tree_depth (x : tree) : forall i, tdepth (decoded_tree i x) = tdepth x.
Proof.
  induction x as [p c ch IH] using tree_ind_all. intros i.
  rewrite decoded_tree_eq. cbn [tdepth].
  rewrite (decoded_children_map tdepth tdepth ch IH).
  destruct ch; reflexivity.
Qed.

Lemma decoded_tree_height (x : tree) : forall i, theight (decoded_tree i x) = theight x.
Proof.
  induction x as [p c ch IH] using tree_ind_all. intros i.
  rewrite decoded_tree_eq. cbn [theight].
  by rewrite (decoded_children_map theight theight ch IH).
Qed.

Lemma decoded_tree_hashRepr (h : heap) (x : tree) :
  unfolds h x -> tree_ok x ->
  forall i, thashRepr (decoded_tree i x) = thashRepr x.
Proof.
  induction x as [p c ch IH] using tree_ind_all. intros Hu Hok i.
  pose proof (unfolds_arity h _ Hu) as Har. cbn [tcell tchildren] in Har.
  apply unfolds_inv in Hu as (_ & _ & Hall).
  assert (Hc : cell_ok c).
  { unfold tree_ok in Hok. cbn [preorder] in Hok. by apply Forall_cons in Hok as (Hc & _). }
  assert (Hokch : Forall tree_ok ch).
  { unfold tree_ok in *. cbn [preorder] in Hok. apply Forall_cons in Hok as (_ & Hok).
    apply Forall_forall. intros y Hy. apply Forall_forall. intros z Hz.
    rewrite Forall_forall in Hok. apply Hok.
    apply list_elem_of_In, in_concat. exists (preorder y). split.
    - apply in_map, list_elem_of_In, Hy.
    - apply list_elem_of_In, Hz. }
  rewrite decoded_tree_eq. cbn [thashRepr].
  rewrite bocReprWithoutRefs_decoded.
  2:{ unfold len. rewrite child_indices_length. symmetry. exact Har. }
  2:{ rewrite child_indices_length. destruct Hc as (Hc & _). unfold len in Har. lia. }
  f_equal. f_equal.
  - rewrite (decoded_children_map
               (fun x => PutUint16_be (uint16 (tdepth x)))
               (fun x => PutUint16_be (uint16 (tdepth x)))); [reflexivity|].
    apply Forall_forall. intros y _ j. by rewrite decoded_tree_depth.
  - rewrite (decoded_children_map
               (fun x => SHA256.Sum256 (thashRepr x))
               (fun x => SHA256.Sum256 (thashRepr x))); [reflexivity|].
    rewrite Forall_forall in IH, Hall, Hokch. apply Forall_forall. intros y Hy j.
    f_equal. apply IH; [exact Hy | apply Hall, Hy | apply Hokch, Hy].
Qed.

Lemma decoded_tree_hash (h : heap) (x : tree) (i : nat) :
  unfolds h x -> tree_ok x -> thash (decoded_tree i x) = thash x.
Proof.
  intros Hu Hok. unfold thash. by rewrite (decoded_tree_hashRepr h).
Qed.

Lemma decoded_tree_iso (x : tree) : forall i, tree_iso x (decoded_tree i x).
Proof.
  induction x as [p c ch IH] using tree_ind_all. intros i.
  rewrite decoded_tree_eq. constructor; [reflexivity|].
  generalize (S i). induction IH as [|y ch Hy _ IHch]; intros j.
  - constructor.
  - rewrite decoded_children_cons. constructor; [apply Hy | apply IHch].
Qed.

Lemma decoded_tree_unfolds (t : tree) :
  Forall (fun x => (length (tchildren x) <= 4)%nat) (preorder t) ->
  forall x i, preorder t !! i = Some x ->
  unfolds (decoded_heap t) (decoded_tree i x).
Proof.
  intros Har.
  induction x as [p c ch IH] using tree_ind_all. intros i Hx.
  rewrite decoded_tree_eq.
  assert (Hlen : (length ch <= 4)%nat).
  { rewrite Forall_forall in Har.
    apply (Har (Node p c ch)). by eapply list_elem_of_lookup_2. }
  constructor.
  - unfold decoded_heap. by rewrite list_lookup_imap, Hx.
  - rewrite decoded_children_addr, Refs_decoded_cell; [reflexivity|].
    by rewrite child_indices_length.
  - pose proof (preorder_child t i _ Hx) as Hchild. cbn [tchildren] in Hchild.
    revert Hchild. generalize (S i). clear Hx Hlen.
    induction IH as [|y ch Hy _ IHch]; intros b Hchild.
    + constructor.
    + rewrite decoded_children_cons. constructor.
      * apply Hy. by destruct (Hchild 0%nat b y eq_refl eq_refl).
      * apply IHch. intros k j z Hj Hz. apply (Hchild (S k) j z); assumption.
Qed.

(** ** Writing into the output buffer *)

Lemma WriteBitArray_fits (s : BitString) (bs : list bool) :
  Cursor s + len bs <= capacity s ->
  fst (WriteBitArray s bs) = {| capacity := capacity s; written := written s ++ bs |}.
Proof.
  intros Hfit. unfold WriteBitArray.
  replace (Cursor s + len bs <=? capacity s) with true
    by (symmetry; apply Z.leb_le; exact Hfit).
  reflexivity.
Qed.

Lemma len_concat_cons {A : Type} (c : list A) (cs : list (list A)) :
  len (concat (c :: cs)) = len c + len (concat cs).
Proof. cbn [concat]. apply len_app. Qed.

Lemma write_all_fits (chunks : list (list bool)) :
  forall s, Cursor s + len (concat chunks) <= capacity s ->
  write_all s chunks
  = {| capacity := capacity s; written := written s ++ concat chunks |}.
Proof.
  induction chunks as [|bs chunks IH]; intros s Hfit.
  - unfold write_all. simpl. rewrite app_nil_r. by destruct s.
  - rewrite len_concat_cons in Hfit.
    pose proof (len_nonneg bs). pose proof (len_nonneg (concat chunks)).
    unfold write_all in *. cbn [fold_left].
    rewrite WriteBitArray_fits by lia. rewrite IH.
    + cbn [capacity written concat]. by rewrite <- app_assoc.
    + unfold Cursor. cbn [capacity written]. rewrite len_app.
      unfold Cursor in Hfit. lia.
Qed.

Lemma write_all_app (s : BitString) (l1 l2 : list (list bool)) :
  write_all s (l1 ++ l2) = write_all (write_all s l1) l2.
Proof. unfold write_all. apply fold_left_app. Qed.

Lemma write_all_one (s : BitString) (bs : list bool) :
  fst (WriteBitArray s bs) = write_all s [bs].
Proof. reflexivity. Qed.

(** ** The loops of [SerializeBoc] *)

Lemma size_loop (fuel : nat) (h : heap) (m : gmap string Z)
    (ps : list ptr) (cs : list (list Z)) :
  Forall2 (fun p c => bocRepr fuel h p m = Ok c) ps cs ->
  forall a l,
    foldM (fun (st : Z * list Z) cell =>
             r ← bocRepr fuel h cell m;
             Ok (fst st + len r, snd st ++ [fst st]))
          (a, l) ps
    = Ok (a + len (concat cs), l ++ offsets a cs).
Proof.
  induction 1 as [|p c ps cs Hp _ IH]; intros a l.
  - simpl. rewrite app_nil_r. do 2 f_equal. unfold len. simpl. lia.
  - cbn [foldM]. rewrite Hp, !bind_Ok. cbn [fst snd]. rewrite IH.
    rewrite len_concat_cons. cbn [offsets]. rewrite <- app_assoc.
    do 2 f_equal. lia.
Qed.

Lemma cells_loop (fuel : nat) (h : heap) (m : gmap string Z)
    (ps : list ptr) (cs : list (list Z)) :
  Forall2 (fun p c => bocRepr fuel h p m = Ok c) ps cs ->
  forall s,
    foldM (fun s cell => r ← bocRepr fuel h cell m; Ok (fst (WriteBytes s r))) s ps
    = Ok (write_all s (map bits_of_bytes cs)).
Proof.
  induction 1 as [|p c ps cs Hp _ IH]; intros s; [reflexivity|].
  cbn [foldM]. rewrite Hp, !bind_Ok. rewrite IH. reflexivity.
Qed.

Lemma index_loop_writes (w : Z) (l : list Z) :
  forall pre s,
    foldM (fun s (i : nat) =>
             o ← index (pre ++ l) (Z.of_nat i);
             Ok (fst (WriteUint s o w)))
          s (seq (length pre) (length l))
    = Ok (write_all s (map (fun o => uint_bits o (Z.to_nat w)) l)).
Proof.
  induction l as [|o l IH]; intros pre s; [reflexivity|].
  cbn [length seq foldM].
  rewrite (index_nat (pre ++ o :: l) (length pre) o)
    by (rewrite lookup_app_r, Nat.sub_diag by lia; reflexivity).
  rewrite !bind_Ok.
  replace (pre ++ o :: l) with ((pre ++ [o]) ++ l) by (by rewrite <- app_assoc).
  replace (S (length pre)) with (length (pre ++ [o]))
    by (rewrite length_app; simpl; lia).
  rewrite IH. reflexivity.
Qed.

Lemma bocRepr_preorder (fuel : nat) (h : heap) (t : tree) :
  unfolds h t -> (theight t <= fuel)%nat ->
  NoDup (map thashString (preorder t)) ->
  Forall2 (fun p c => bocRepr fuel h p (index_map (map thashString (preorder t))) = Ok c)
          (map taddr (preorder t)) (tcells t).
Proof.
  intros Hu Hf Hnd. apply Forall2_same_length_lookup_2.
  - unfold tcells. by rewrite length_map, length_imap.
  - intros i p c Hp Hc. rewrite list_lookup_fmap in Hp.
    unfold tcells in Hc. rewrite list_lookup_imap in Hc.
    destruct (preorder t !! i) as [x|] eqn:Ex; [|discriminate].
    simpl in Hp, Hc. injection Hp as <-. injection Hc as <-.
    by apply bocRepr_unfolds.
Qed.

(** ** Sizes *)

Lemma len_cell_bytes (h : heap) (i : nat) (x : tree) :
  unfolds h x -> cell_ok (tcell x) -> 0 <= len (cell_bytes i x) <= 134.
Proof.
  intros Hu (Hr & Hb). pose proof (unfolds_arity h x Hu) as Har.
  unfold cell_bytes. rewrite len_app, len_bocReprWithoutRefs.
  assert (Hl : len (map (fun j => byte (Z.of_nat j)) (child_indices (S i) (tchildren x)))
               = RefsSize (tcell x)).
  { rewrite Har. unfold len. by rewrite length_map, child_indices_length. }
  rewrite Hl.
  pose proof (len_nonneg (Refs (tcell x))) as Hr0. fold (RefsSize (tcell x)) in Hr0.
  pose proof (len_nonneg (written (Bits (tcell x)))) as Hb0.
  fold (Cursor (Bits (tcell x))) in Hb0. fold (BitSize (tcell x)) in Hb0.
  assert (0 <= (BitSize (tcell x) + 7) / 8 <= 128).
  { split; [apply Z.div_pos; lia|]. apply Z.lt_succ_r, Z.div_lt_upper_bound; lia. }
  lia.
Qed.

Lemma len_concat_bound {A : Type} (cs : list (list A)) (b : Z) :
  Forall (fun c => 0 <= len c <= b) cs ->
  0 <= len (concat cs) <= b * len cs.
Proof.
  induction 1 as [|c cs Hc _ IH]; [unfold len; simpl; lia|].
  rewrite len_concat_cons, len_cons. lia.
Qed.

Lemma len_tcells_bound (h : heap) (t : tree) :
  unfolds h t -> tree_ok t ->
  0 <= len (concat (tcells t)) <= 134 * Z.of_nat (tsize t).
Proof.
  intros Hu Hok.
  pose proof (len_concat_bound (tcells t) 134) as Hb.
  assert (Hl : len (tcells t) = Z.of_nat (tsize t))
    by (unfold len; by rewrite length_tcells).
  rewrite Hl in Hb. apply Hb.
  unfold tcells. apply Forall_lookup. intros i c Hc.
  rewrite list_lookup_imap in Hc.
  destruct (preorder t !! i) as [x|] eqn:Ex; [|discriminate].
  simpl in Hc. injection Hc as <-.
  assert (Hin : x ∈ preorder t) by (eapply list_elem_of_lookup_2; eauto).
  pose proof (preorder_unfolds h t Hu) as Hall. rewrite Forall_forall in Hall.
  unfold tree_ok in Hok. rewrite Forall_forall in Hok.
  apply (len_cell_bytes h); [apply Hall, Hin | apply Hok, Hin].
Qed.

(** ** The bytes of the output buffer *)

Lemma aligned_chunks (chunks : list (list bool)) :
  Forall (fun c => (length c mod 8 = 0)%nat) chunks ->
  (length (concat chunks) mod 8 = 0)%nat /\
  bytes_of_bits (concat chunks) = concat (map bytes_of_bits chunks).
Proof.
  induction 1 as [|c chunks Hc _ (IHl & IHb)]; [split; reflexivity|].
  cbn [concat map]. split.
  - rewrite length_app. rewrite Nat.Div0.add_mod, Hc, IHl. reflexivity.
  - rewrite bytes_of_bits_app by exact Hc. by rewrite IHb.
Qed.

Lemma aligned_len (bits : list bool) :
  (length bits mod 8 = 0)%nat -> len bits = 8 * len (bytes_of_bits bits).
Proof.
  intros Hm. rewrite length_bytes_of_bits. unfold len.
  pose proof (Nat.div_mod_eq (length bits) 8) as Hd. rewrite Hm in Hd.
  replace (Z.of_nat (length bits)) with (8 * Z.of_nat (length bits / 8)) at 2 by lia.
  replace (8 * Z.of_nat (length bits `div` 8) + 7)
    with (7 + Z.of_nat (length bits `div` 8) * 8) by lia.
  rewrite Z.div_add by lia. change (7 / 8) with 0. lia.
Qed.

Lemma length_uint_bits_aligned (v w : Z) :
  (length (uint_bits v (Z.to_nat (w * 8))) mod 8 = 0)%nat.
Proof.
  rewrite length_uint_bits. destruct (Z.le_gt_cases 0 w).
  - rewrite Z2Nat.inj_mul by lia. apply Nat.Div0.mod_mul.
  - replace (Z.to_nat (w * 8)) with 0%nat by lia. reflexivity.
Qed.

Lemma length_bits_of_bytes_aligned (bs : list Z) :
  (length (bits_of_bytes bs) mod 8 = 0)%nat.
Proof.
  rewrite length_bits_of_bytes, Nat.mul_comm. apply Nat.Div0.mod_mul.
Qed.

Lemma bytes_of_bits_of_bytes_all (bs : list Z) :
  bytes_ok bs -> bytes_of_bits (bits_of_bytes bs) = bs.
Proof.
  intros Hok. pose proof (bytes_of_bits_of_bytes bs [] Hok) as H.
  by rewrite !app_nil_r in H.
Qed.

Lemma stream_chunks_bytes (cells : list (list Z)) (idx hasCrc32 cacheBits : bool)
    (fl : Z) :
  Forall bytes_ok cells ->
  (length (concat (stream_chunks cells idx hasCrc32 cacheBits fl)) mod 8 = 0)%nat /\
  bytes_of_bits (concat (stream_chunks cells idx hasCrc32 cacheBits fl))
  = stream_body cells idx hasCrc32 cacheBits fl.
Proof.
  intros Hok.
  assert (Hal : Forall (fun c => (length c mod 8 = 0)%nat)
                       (stream_chunks cells idx hasCrc32 cacheBits fl)).
  { unfold stream_chunks. apply Forall_app. split; [|apply Forall_app; split].
    - unfold header_chunks.
      repeat (apply Forall_cons; split;
              [first [apply length_uint_bits_aligned
                     | apply length_bits_of_bytes_aligned
                     | reflexivity]|]).
      constructor.
    - unfold index_chunks. destruct idx; [|constructor].
      apply Forall_map, Forall_forall. intros o _. apply length_uint_bits_aligned.
    - apply Forall_map, Forall_forall. intros c _. apply length_bits_of_bytes_aligned. }
  destruct (aligned_chunks _ Hal) as (Hl & Hb). split; [exact Hl|].
  rewrite Hb. unfold stream_chunks, stream_body.
  rewrite !map_app, !concat_app. unfold header_chunks. cbn [map concat].
  rewrite bytes_of_bits_of_bytes_all
    by (unfold reachBocMagicPrefix; repeat constructor; unfold is_byte; lia).
  rewrite app_nil_r. rewrite <- !app_assoc.
  fold (be_bytes (offsetBytes_of (len (concat cells))) 1).
  fold (be_bytes (len cells) 1). fold (be_bytes 1 1). fold (be_bytes 0 1).
  fold (be_bytes (len (concat cells)) (offsetBytes_of (len (concat cells)))).
  f_equal. f_equal.
  do 6 f_equal. f_equal.
  - unfold index_chunks. destruct idx; [|reflexivity].
    rewrite map_map. reflexivity.
  - rewrite map_map. clear Hal Hl Hb.
    induction Hok as [|c cells Hc _ IH]; [reflexivity|].
    cbn [map concat]. rewrite bytes_of_bits_of_bytes_all by exact Hc. by rewrite IH.
Qed.

Lemma len_stream_body (cells : list (list Z)) (idx hasCrc32 cacheBits : bool) (fl : Z) :
  0 <= len (concat cells) < 65536 ->
  let offB := offsetBytes_of (len (concat cells)) in
  len (stream_body cells idx hasCrc32 cacheBits fl)
  = 10 + offB + (if idx then offB * len cells else 0) + len (concat cells)
  /\ 1 <= offB <= 2.
Proof.
  intros Hfull offB.
  pose proof (offsetBytes_width (len (concat cells)) Hfull) as Hw.
  assert (HwF : width_ok offB (len (concat cells))) by (apply Hw; lia).
  destruct (width_ok_nonneg _ _ HwF) as (_ & HoffB). split; [|exact HoffB].
  unfold stream_body. fold offB. unfold reachBocMagicPrefix.
  len_norm. rewrite !be_bytes_1. len_norm. rewrite (len_be_bytes _ _ HwF).
  destruct idx.
  - rewrite len_concat_be.
    + assert (Hlo : len (offsets 0 cells) = len cells)
        by (unfold len; by rewrite length_offsets).
      rewrite Hlo. change (len (@nil Z)) with 0. lia.
    + eapply Forall_impl; [apply (offsets_bound cells 0); lia|].
      simpl. intros o Ho. apply Hw. lia.
  - len_norm. change (len (@nil Z)) with 0. lia.
Qed.

(** ** [SerializeBoc] on an unfolding *)

Lemma SerializeBoc_unfolds (fuel : nat) (h : heap) (t : tree)
    (idx hasCrc32 cacheBits : bool) (fl : Z) :
  unfolds h t -> (theight t < fuel)%nat -> tree_ok t -> (tsize t < 256)%nat ->
  NoDup (map thashString (preorder t)) -> 0 <= fl < 4 ->
  SerializeBoc fuel h (taddr t) idx hasCrc32 cacheBits fl
  = Ok (stream (tcells t) idx hasCrc32 cacheBits fl).
Proof.
  intros Hu Hf Hok Ht Hnd Hfl.
  pose proof (tsize_pos t) as Hpos.
  unfold SerializeBoc. rewrite (topologicalSort_unfolds fuel h t Hu Hf).
  destruct (visit_Some (map thashString (preorder t)) ∅ Hnd) as (s' & Hv).
  { intros k _. by rewrite lookup_empty. }
  rewrite Hv, bind_Ok. cbn [fst snd].
  set (m := index_map (map thashString (preorder t))).
  assert (Hlen : len (map taddr (preorder t)) = Z.of_nat (tsize t))
    by (unfold len; by rewrite length_map).
  rewrite Hlen. rewrite sBytes_of_pos by lia.
  pose proof (bocRepr_preorder fuel h t Hu ltac:(lia) Hnd) as Hrepr. fold m in Hrepr.
  rewrite (size_loop fuel h m _ _ Hrepr 0 []), bind_Ok. cbn [fst snd app].
  rewrite Z.add_0_l.
  pose proof (len_tcells_bound h t Hu Hok) as Hfull.
  set (cells := tcells t) in *.
  assert (Hlc : len cells = Z.of_nat (tsize t))
    by (unfold len, cells; by rewrite length_tcells).
  set (fullSize := len (concat cells)) in *.
  set (offB := offsetBytes_of fullSize).
  unfold WriteUint, WriteBytes. rewrite !write_all_one, <- !write_all_app.
  cbn [app].
  set (s0 := NewBitString ((1023 + 32 * 4 + 32 * 3) * Z.of_nat (tsize t))).
  assert (Hidx :
    (if idx
     then foldM (fun (s : BitString) (i : nat) =>
                   o ← index (offsets 0 cells) (Z.of_nat i);
                   Ok (fst (WriteBitArray s (uint_bits o (Z.to_nat (offB * 8))))))
                (write_all s0
                   [bits_of_bytes reachBocMagicPrefix; [idx; hasCrc32; cacheBits];
                    uint_bits fl (Z.to_nat 2); uint_bits 1 (Z.to_nat 3);
                    uint_bits offB (Z.to_nat 8);
                    uint_bits (Z.of_nat (tsize t)) (Z.to_nat (1 * 8));
                    uint_bits 1 (Z.to_nat (1 * 8)); uint_bits 0 (Z.to_nat (1 * 8));
                    uint_bits fullSize (Z.to_nat (offB * 8));
                    uint_bits 0 (Z.to_nat (1 * 8))])
                (seq 0 (length (map taddr (preorder t))))
     else Ok (write_all s0
                   [bits_of_bytes reachBocMagicPrefix; [idx; hasCrc32; cacheBits];
                    uint_bits fl (Z.to_nat 2); uint_bits 1 (Z.to_nat 3);
                    uint_bits offB (Z.to_nat 8);
                    uint_bits (Z.of_nat (tsize t)) (Z.to_nat (1 * 8));
                    uint_bits 1 (Z.to_nat (1 * 8)); uint_bits 0 (Z.to_nat (1 * 8));
                    uint_bits fullSize (Z.to_nat (offB * 8));
                    uint_bits 0 (Z.to_nat (1 * 8))]))
    = Ok (write_all s0
            ([bits_of_bytes reachBocMagicPrefix; [idx; hasCrc32; cacheBits];
              uint_bits fl (Z.to_nat 2); uint_bits 1 (Z.to_nat 3);
              uint_bits offB (Z.to_nat 8);
              uint_bits (Z.of_nat (tsize t)) (Z.to_nat (1 * 8));
              uint_bits 1 (Z.to_nat (1 * 8)); uint_bits 0 (Z.to_nat (1 * 8));
              uint_bits fullSize (Z.to_nat (offB * 8));
              uint_bits 0 (Z.to_nat (1 * 8))] ++ index_chunks cells idx))).
  { unfold index_chunks. fold fullSize offB. destruct idx; [|by rewrite app_nil_r].
    replace (length (map taddr (preorder t))) with (length (offsets 0 cells))
      by (rewrite length_offsets, length_map; unfold cells; by rewrite length_tcells).
    pose proof (index_loop_writes (offB * 8) (offsets 0 cells) []) as Hl.
    cbn [app length] in Hl. unfold WriteUint in Hl.
    rewrite write_all_app.
    erewrite <- Hl. reflexivity. }
  rewrite Hidx, bind_Ok.
  pose proof (cells_loop fuel h m _ _ Hrepr) as Hcl. unfold WriteBytes in Hcl.
  rewrite Hcl, bind_Ok, <- write_all_app.
  unfold GetTopUppedArray. rewrite bind_Ok.
  assert (Hcells : Forall bytes_ok cells).
  { unfold cells. rewrite tcells_items by lia.
    apply Forall_map. eapply Forall_impl; [apply (titems_ok h t Hu Hok); lia|].
    intros [c js] (_ & _ & Hjs). unfold item_bytes. cbn [fst snd] in *.
    apply Forall_app. split; [apply bocReprWithoutRefs_bytes_ok | exact Hjs]. }
  destruct (stream_chunks_bytes cells idx hasCrc32 cacheBits fl Hcells) as (Hal & Hbytes).
  destruct (len_stream_body cells idx hasCrc32 cacheBits fl) as (Hlb & HoffB);
    [fold fullSize; lia|]. fold fullSize offB in Hlb, HoffB.
  pose proof (aligned_len _ Hal) as Hbits. rewrite Hbytes, Hlb in Hbits.
  assert (Hchunks :
    ([bits_of_bytes reachBocMagicPrefix; [idx; hasCrc32; cacheBits];
      uint_bits fl (Z.to_nat 2); uint_bits 1 (Z.to_nat 3);
      uint_bits offB (Z.to_nat 8);
      uint_bits (Z.of_nat (tsize t)) (Z.to_nat (1 * 8));
      uint_bits 1 (Z.to_nat (1 * 8)); uint_bits 0 (Z.to_nat (1 * 8));
      uint_bits fullSize (Z.to_nat (offB * 8));
      uint_bits 0 (Z.to_nat (1 * 8))] ++ index_chunks cells idx)
      ++ map bits_of_bytes cells
    = [bits_of_bytes reachBocMagicPrefix; [idx; hasCrc32; cacheBits];
       uint_bits fl 2; uint_bits 1 3] ++
      skipn 2 (stream_chunks cells idx hasCrc32 cacheBits fl)).
  { unfold stream_chunks, header_chunks. fold fullSize offB. rewrite Hlc. reflexivity. }
  assert (Hconcat :
    concat ([bits_of_bytes reachBocMagicPrefix; [idx; hasCrc32; cacheBits];
             uint_bits fl 2; uint_bits 1 3] ++
            skipn 2 (stream_chunks cells idx hasCrc32 cacheBits fl))
    = concat (stream_chunks cells idx hasCrc32 cacheBits fl)).
  { unfold stream_chunks, header_chunks. cbn [app skipn concat].
    by rewrite <- !app_assoc. }
  rewrite Hchunks, write_all_fits.
  2:{ rewrite Hconcat, Hbits. unfold s0, Cursor, NewBitString. cbn [written capacity].
      change (len (@nil bool)) with 0. rewrite Hlc.
      assert (0 <= offB * Z.of_nat (tsize t) <= 2 * Z.of_nat (tsize t)) by nia.
      destruct idx; lia. }
  cbn [written capacity]. unfold s0, NewBitString. cbn [written].
  rewrite Hconcat. rewrite app_nil_l. unfold top_upped.
  replace (len (concat (stream_chunks cells idx hasCrc32 cacheBits fl)) mod 8 =? 0)
    with true.
  2:{ symmetry. apply Z.eqb_eq. rewrite Hbits.
      rewrite Z.mul_comm. apply Z.mod_mul. lia. }
  rewrite Hbytes. unfold stream. destruct hasCrc32; reflexivity.
Qed.

(** ** Round trip *)

Lemma tree_ok_arity (h : heap) (t : tree) :
  unfolds h t -> tree_ok t ->
  Forall (fun x => (length (tchildren x) <= 4)%nat) (preorder t).
Proof.
  intros Hu Hok. pose proof (preorder_unfolds h t Hu) as Hall.
  unfold tree_ok in Hok. rewrite Forall_forall in Hall, Hok.
  apply Forall_forall. intros x Hx.
  pose proof (unfolds_arity h x (Hall x Hx)) as Har.
  destruct (Hok x Hx) as (Hr & _). unfold len in Har. lia.
Qed.

Lemma roundtrip_unfolds (fuel : nat) (h : heap) (t : tree)
    (idx hasCrc32 cacheBits : bool) (fl : Z) :
  unfolds h t -> (theight t < fuel)%nat -> tree_ok t -> (tsize t < 256)%nat ->
  NoDup (map thashString (preorder t)) -> 0 <= fl < 4 ->
  SerializeBoc fuel h (taddr t) idx hasCrc32 cacheBits fl
  = Ok (stream (tcells t) idx hasCrc32 cacheBits fl) /\
  DeserializeBoc (stream (tcells t) idx hasCrc32 cacheBits fl)
  = Ok (decoded_heap t, [Some 0%nat]) /\
  unfolds (decoded_heap t) (decoded_tree 0 t) /\
  Hash fuel h (taddr t) = Ok (thash t) /\
  Hash fuel (decoded_heap t) 0%nat = Ok (thash t).
Proof.
  intros Hu Hf Hok Ht Hnd Hfl.
  pose proof (len_tcells_bound h t Hu Hok) as Hfull.
  assert (Hdu : unfolds (decoded_heap t) (decoded_tree 0 t)).
  { apply decoded_tree_unfolds; [by apply (tree_ok_arity h) | apply preorder_head]. }
  split; [by apply SerializeBoc_unfolds|].
  split; [apply (DeserializeBoc_stream h); [assumption..|lia|assumption]|].
  split; [exact Hdu|]. split.
  - unfold Hash. apply hashCell_unfolds; [exact Hu | lia].
  - unfold Hash.
    pose proof (hashCell_unfolds (decoded_heap t) (decoded_tree 0 t) fuel Hdu) as Hh.
    rewrite decoded_tree_height in Hh. specialize (Hh ltac:(lia)).
    rewrite (decoded_tree_hash h) in Hh by assumption.
    destruct t as [p c ch]. exact Hh.
Qed.

(** ** Cells that reference themselves *)

Lemma foldM_no_panic {A B : Type} (f : B -> A -> result B) (l : list A) :
  (forall b x, In x l -> f b x = NoFuel \/ exists b', f b x = Ok b') ->
  forall b, foldM f b l = NoFuel \/ exists b', foldM f b l = Ok b'.
Proof.
  induction l as [|x l IH]; intros Hf b; simpl; [right; eauto|].
  destruct (Hf b x (or_introl eq_refl)) as [-> | (b' & ->)]; [by left|].
  simpl. apply IH. intros b0 y Hy. apply Hf. by right.
Qed.

Lemma foldM_diverges {A B : Type} (f : B -> A -> result B) (l : list A) (x0 : A) :
  (forall b x, In x l -> f b x = NoFuel \/ exists b', f b x = Ok b') ->
  In x0 l -> (forall b, f b x0 = NoFuel) ->
  forall b, foldM f b l = NoFuel.
Proof.
  intros Hf Hin Hx0 b.
  apply in_split in Hin as (l1 & l2 & ->).
  rewrite foldM_app.
  destruct (foldM_no_panic f l1) with (b := b) as [-> | (b' & ->)].
  - intros b0 x Hx. apply Hf, in_or_app. by left.
  - reflexivity.
  - simpl. by rewrite Hx0.
Qed.

Lemma getMaxDepth_no_panic (h : heap) :
  heap_closed h ->
  forall fuel p, (p < length h)%nat ->
  getMaxDepth fuel h p = NoFuel \/ exists d, getMaxDepth fuel h p = Ok d.
Proof.
  intros Hc. induction fuel as [|f IH]; intros p Hp; [by left|].
  destruct (lookup_lt_is_Some_2 h p Hp) as (c & Hcell).
  cbn [getMaxDepth]. unfold deref. rewrite Hcell, bind_Ok.
  destruct (0 <? RefsSize c); [|right; eauto].
  destruct (foldM_no_panic
              (fun maxDepth ref => d ← getMaxDepth f h ref;
                 if maxDepth <? d then getMaxDepth f h ref else Ok maxDepth)
              (Refs c)) with (b := 0) as [-> | (m & ->)].
  - intros b q Hq. specialize (IH q (Hc p c q Hcell Hq)).
    destruct IH as [-> | (d & Hd)]; [by left|].
    rewrite Hd, bind_Ok. destruct (b <? d); right; eauto.
  - by left.
  - right. eauto.
Qed.

Lemma getMaxDepth_self (h : heap) (p : ptr) (c : Cell) :
  heap_closed h -> h !! p = Some c -> In p (Refs c) ->
  forall fuel, getMaxDepth fuel h p = NoFuel.
Proof.
  intros Hc Hcell Hin. induction fuel as [|f IH]; [reflexivity|].
  cbn [getMaxDepth]. unfold deref. rewrite Hcell, bind_Ok.
  assert (Hpos : (0 <? RefsSize c) = true).
  { apply Z.ltb_lt. unfold RefsSize, len. destruct (Refs c); [destruct Hin|simpl; lia]. }
  rewrite Hpos.
  rewrite (foldM_diverges _ (Refs c) p); [reflexivity| |exact Hin|].
  - intros b q Hq.
    destruct (getMaxDepth_no_panic h Hc f q (Hc p c q Hcell Hq)) as [-> | (d & Hd)];
      [by left|].
    rewrite Hd, bind_Ok. destruct (b <? d); right; eauto.
  - intros b. by rewrite IH.
Qed.

Lemma hashRepr_self (h : heap) (p : ptr) (c : Cell) :
  heap_closed h -> h !! p = Some c -> In p (Refs c) ->
  forall fuel, hashRepr fuel h p = NoFuel.
Proof.
  intros Hc Hcell Hin [|f]; [reflexivity|].
  cbn [hashRepr]. unfold deref. rewrite Hcell, bind_Ok.
  rewrite (foldM_diverges _ (Refs c) p); [reflexivity| |exact Hin|].
  - intros b q Hq.
    destruct (getMaxDepth_no_panic h Hc f q (Hc p c q Hcell Hq)) as [-> | (d & ->)];
      [by left | right; eauto].
  - intros b. by rewrite (getMaxDepth_self h p c).
Qed.

Lemma Hash_self (h : heap) (p : ptr) (c : Cell) :
  heap_closed h -> h !! p = Some c -> In p (Refs c) ->
  forall fuel, Hash fuel h p = NoFuel.
Proof.
  intros Hc Hcell Hin fuel. unfold Hash, hashCell.
  by rewrite (hashRepr_self h p c).
Qed.


(** ** The checksum detects a change of one byte *)

Lemma testbit_small (a n : Z) : 0 <= n -> 0 <= a < 2 ^ n -> Z.testbit a n = false.
Proof.
  intros Hn Ha. apply Z.testbit_false; [exact Hn|].
  rewrite Z.div_small by lia. reflexivity.
Qed.

Lemma testbit_large (a n : Z) : 0 <= n -> 0 <= a -> Z.testbit a n = true -> 2 ^ n <= a.
Proof.
  intros Hn Ha Hb. apply Z.testbit_true in Hb; [|exact Hn].
  assert (0 < 2 ^ n) by (apply Z.pow_pos_nonneg; lia).
  destruct (Z.lt_ge_cases a (2 ^ n)) as [Hlt|Hge]; [|lia].
  rewrite Z.div_small in Hb by lia. discriminate Hb.
Qed.

Lemma lxor_cancel_r (a b c : Z) : Z.lxor a c = Z.lxor b c -> a = b.
Proof.
  intros H. apply (f_equal (fun z => Z.lxor z c)) in H.
  by rewrite !Z.lxor_assoc, Z.lxor_nilpotent, !Z.lxor_0_r in H.
Qed.

Lemma lxor_cancel_l (a b c : Z) : Z.lxor c a = Z.lxor c b -> a = b.
Proof. rewrite !(Z.lxor_comm c). apply lxor_cancel_r. Qed.

Lemma crc_step_odd_large (c : Z) :
  0 <= c < 2 ^ 32 -> 2 ^ 31 <= Z.lxor (Z.shiftr c 1) CRC32.Castagnoli.
Proof.
  intros Hc.
  assert (Hs : 0 <= Z.shiftr c 1 < 2 ^ 31).
  { rewrite Z.shiftr_div_pow2 by lia. change (2 ^ 1) with 2.
    split; [apply Z.div_pos; lia|]. apply Z.div_lt_upper_bound; lia. }
  apply testbit_large; [lia | apply Z.lxor_nonneg; unfold CRC32.Castagnoli; lia |].
  rewrite Z.lxor_spec, (testbit_small _ 31) by lia. reflexivity.
Qed.

Lemma crc_step_inj (x y : Z) :
  0 <= x < 2 ^ 32 -> 0 <= y < 2 ^ 32 ->
  CRC32.step CRC32.Castagnoli x = CRC32.step CRC32.Castagnoli y -> x = y.
Proof.
  intros Hx Hy. unfold CRC32.step.
  pose proof (crc_step_odd_large x Hx) as Hlx.
  pose proof (crc_step_odd_large y Hy) as Hly.
  assert (Hsx : 0 <= Z.shiftr x 1 < 2 ^ 31).
  { rewrite Z.shiftr_div_pow2 by lia. change (2 ^ 1) with 2.
    split; [apply Z.div_pos; lia|]. apply Z.div_lt_upper_bound; lia. }
  assert (Hsy : 0 <= Z.shiftr y 1 < 2 ^ 31).
  { rewrite Z.shiftr_div_pow2 by lia. change (2 ^ 1) with 2.
    split; [apply Z.div_pos; lia|]. apply Z.div_lt_upper_bound; lia. }
  pose proof (Z.div_mod x 2 ltac:(lia)) as Hdx.
  pose proof (Z.div_mod y 2 ltac:(lia)) as Hdy.
  rewrite !Z.shiftr_div_pow2 in * by lia. change (2 ^ 1) with 2 in *.
  destruct (Z.odd x) eqn:Ox, (Z.odd y) eqn:Oy; intros Heq.
  - apply lxor_cancel_r in Heq.
    rewrite Zmod_odd, Ox in Hdx. rewrite Zmod_odd, Oy in Hdy. lia.
  - lia.
  - lia.
  - rewrite Zmod_odd, Ox in Hdx. rewrite Zmod_odd, Oy in Hdy. lia.
Qed.

Lemma crc_steps_inj (n : nat) (x y : Z) :
  0 <= x < 2 ^ 32 -> 0 <= y < 2 ^ 32 ->
  Nat.iter n (CRC32.step CRC32.Castagnoli) x
  = Nat.iter n (CRC32.step CRC32.Castagnoli) y -> x = y.
Proof.
  intros Hx Hy. induction n as [|n IH]; [auto|].
  cbn [Nat.iter]. intros Heq. apply IH. apply crc_step_inj; [| |exact Heq].
  - clear -Hx. induction n; [exact Hx|]. cbn [Nat.iter]. by apply crc_step_bound.
  - clear -Hy. induction n; [exact Hy|]. cbn [Nat.iter]. by apply crc_step_bound.
Qed.

Lemma crc_update_inj_state (x y b : Z) :
  0 <= x < 2 ^ 32 -> 0 <= y < 2 ^ 32 -> is_byte b ->
  CRC32.update_byte CRC32.Castagnoli x b = CRC32.update_byte CRC32.Castagnoli y b ->
  x = y.
Proof.
  intros Hx Hy Hb Heq. unfold CRC32.update_byte, is_byte in *.
  apply crc_steps_inj in Heq; [|apply lxor_bound; lia..].
  by apply lxor_cancel_r in Heq.
Qed.

Lemma crc_update_inj_byte (x b b' : Z) :
  0 <= x < 2 ^ 32 -> is_byte b -> is_byte b' ->
  CRC32.update_byte CRC32.Castagnoli x b = CRC32.update_byte CRC32.Castagnoli x b' ->
  b = b'.
Proof.
  intros Hx Hb Hb' Heq. unfold CRC32.update_byte, is_byte in *.
  apply crc_steps_inj in Heq; [|apply lxor_bound; lia..].
  by apply lxor_cancel_l in Heq.
Qed.

Lemma crc_fold_inj (data : list Z) :
  bytes_ok data ->
  forall x y, 0 <= x < 2 ^ 32 -> 0 <= y < 2 ^ 32 ->
  fold_left (CRC32.update_byte CRC32.Castagnoli) data x
  = fold_left (CRC32.update_byte CRC32.Castagnoli) data y -> x = y.
Proof.
  induction 1 as [|b data Hb _ IH]; intros x y Hx Hy Heq; [exact Heq|].
  cbn [fold_left] in Heq.
  apply IH in Heq; [|by apply crc_update_bound..].
  by apply crc_update_inj_state in Heq.
Qed.

Lemma Checksum_one_byte (pre post : list Z) (b b' : Z) :
  bytes_ok pre -> bytes_ok post -> is_byte b -> is_byte b' -> b <> b' ->
  CRC32.Checksum (pre ++ b :: post) CRC32.Castagnoli
  <> CRC32.Checksum (pre ++ b' :: post) CRC32.Castagnoli.
Proof.
  intros Hpre Hpost Hb Hb' Hne Heq. unfold CRC32.Checksum in Heq.
  apply lxor_cancel_r in Heq. rewrite !fold_left_app in Heq. cbn [fold_left] in Heq.
  pose proof (crc_fold_bound pre Hpre 0xffffffff ltac:(lia)) as Hc.
  apply crc_fold_inj in Heq; [|exact Hpost|by apply crc_update_bound..].
  by apply crc_update_inj_byte in Heq.
Qed.

Lemma Uint32_le_inj (a b : list Z) :
  length a = 4%nat -> length b = 4%nat -> bytes_ok a -> bytes_ok b ->
  Uint32_le a = Uint32_le b -> a = b.
Proof.
  intros Ha Hb Hoa Hob.
  do 4 (destruct a as [|? a]; [discriminate Ha|]).
  destruct a; [|discriminate Ha].
  do 4 (destruct b as [|? b]; [discriminate Hb|]).
  destruct b; [|discriminate Hb].
  unfold bytes_ok in *.
  repeat match goal with H : Forall _ (_ :: _) |- _ =>
    apply Forall_cons in H; destruct H as [? H] end.
  unfold is_byte, Uint32_le in *. intros Heq.
  assert (z = z3 /\ z0 = z4 /\ z1 = z5 /\ z2 = z6) as (-> & -> & -> & ->) by lia.
  reflexivity.
Qed.

(** ** Parsing two streams of the same length *)

Lemma index_Ok_inv {A : Type} (arr : list A) (z : Z) (v : A) :
  index arr z = Ok v -> 0 <= z /\ arr !! Z.to_nat z = Some v.
Proof.
  unfold index. destruct (0 <=? z) eqn:E1; [|discriminate].
  destruct (z <? len arr); [|discriminate]. cbn [andb].
  destruct (arr !! Z.to_nat z); [|discriminate]. intros [= ->]. split; [lia|reflexivity].
Qed.

Lemma index_lookup {A : Type} (arr : list A) (z : Z) (v : A) :
  0 <= z -> arr !! Z.to_nat z = Some v -> index arr z = Ok v.
Proof.
  intros Hz Hv. rewrite <- (Z2Nat.id z) by lia. by apply index_nat.
Qed.

Lemma slice_from_Ok_inv {A : Type} (arr r : list A) (n : Z) :
  slice_from arr n = Ok r -> 0 <= n <= len arr /\ r = drop (Z.to_nat n) arr.
Proof.
  unfold slice_from. destruct (0 <=? n) eqn:E1; [|discriminate].
  destruct (n <=? len arr) eqn:E2; [|discriminate]. cbn [andb].
  intros [= <-]. split; [lia|reflexivity].
Qed.

Lemma slice_from_drop {A : Type} (arr : list A) (n : Z) :
  0 <= n <= len arr -> slice_from arr n = Ok (drop (Z.to_nat n) arr).
Proof.
  intros Hn. unfold slice_from.
  replace (0 <=? n) with true by (symmetry; apply Z.leb_le; lia).
  replace (n <=? len arr) with true by (symmetry; apply Z.leb_le; lia).
  reflexivity.
Qed.

Lemma slice_to_Ok_inv {A : Type} (arr r : list A) (n : Z) :
  slice_to arr n = Ok r -> 0 <= n <= len arr /\ r = take (Z.to_nat n) arr.
Proof.
  unfold slice_to. destruct (0 <=? n) eqn:E1; [|discriminate].
  destruct (n <=? len arr) eqn:E2; [|discriminate]. cbn [andb].
  intros [= <-]. split; [lia|reflexivity].
Qed.

Lemma slice_to_take {A : Type} (arr : list A) (n : Z) :
  0 <= n <= len arr -> slice_to arr n = Ok (take (Z.to_nat n) arr).
Proof.
  intros Hn. unfold slice_to.
  replace (0 <=? n) with true by (symmetry; apply Z.leb_le; lia).
  replace (n <=? len arr) with true by (symmetry; apply Z.leb_le; lia).
  reflexivity.
Qed.

Section SameLength.

Variables (l l' : list Z) (i : nat).
Hypothesis Hlen : length l' = length l.
Hypothesis Hagree : take i l' = take i l.

Lemma agree_lookup (j : nat) : (j < i)%nat -> l' !! j = l !! j.
Proof.
  intros Hj. rewrite <- (lookup_take_lt l' i j Hj), <- (lookup_take_lt l i j Hj).
  by rewrite Hagree.
Qed.

Lemma len_drop_same (k : nat) : len (drop k l') = len (drop k l).
Proof. unfold len. rewrite !length_drop. lia. Qed.

Lemma index_agree (k : nat) (z v : Z) :
  index (drop k l) z = Ok v -> (k + Z.to_nat z < i)%nat ->
  index (drop k l') z = Ok v.
Proof.
  intros Hv Hk. apply index_Ok_inv in Hv as (Hz & Hv).
  apply index_lookup; [exact Hz|].
  rewrite lookup_drop in Hv. rewrite lookup_drop, agree_lookup by lia. exact Hv.
Qed.

Lemma index_agree_eq (k : nat) (z : Z) :
  (k + Z.to_nat z < i)%nat -> index (drop k l') z = index (drop k l) z.
Proof.
  intros Hk. unfold index. rewrite len_drop_same.
  by rewrite !lookup_drop, agree_lookup by lia.
Qed.

Lemma index_shape (k : nat) (z v : Z) :
  index (drop k l) z = Ok v -> exists v', index (drop k l') z = Ok v'.
Proof.
  intros Hv. apply index_Ok_inv in Hv as (Hz & Hv).
  apply lookup_lt_Some in Hv. rewrite length_drop in Hv.
  destruct (lookup_lt_is_Some_2 (drop k l') (Z.to_nat z)) as (v' & Hv').
  { rewrite length_drop. lia. }
  exists v'. by apply index_lookup.
Qed.

Lemma readNBytes_loop_agree (c : nat) (k : nat) :
  forall z res v,
    0 <= z ->
    readNBytes_loop c z res (drop k l) = Ok v ->
    (k + Z.to_nat z + c <= i)%nat ->
    readNBytes_loop c z res (drop k l') = Ok v.
Proof.
  induction c as [|c IH]; intros z res v Hz Hv Hk; [exact Hv|].
  cbn [readNBytes_loop] in *.
  destruct (index (drop k l) z) as [b| | |] eqn:Eb; try discriminate Hv.
  rewrite (index_agree k z b Eb) by lia. rewrite bind_Ok in Hv |- *.
  apply IH; [lia | exact Hv | lia].
Qed.

Lemma readNBytes_loop_shape (c : nat) (k : nat) :
  forall z res res' v,
    readNBytes_loop c z res (drop k l) = Ok v ->
    exists v', readNBytes_loop c z res' (drop k l') = Ok v'.
Proof.
  induction c as [|c IH]; intros z res res' v Hv; [simpl; eauto|].
  cbn [readNBytes_loop] in *.
  destruct (index (drop k l) z) as [b| | |] eqn:Eb; try discriminate Hv.
  destruct (index_shape k z b Eb) as (b' & ->). rewrite bind_Ok in Hv |- *.
  eapply IH. exact Hv.
Qed.

Lemma readN_agree (k : nat) (n v : Z) :
  readNBytesUIntFromArray n (drop k l) = Ok v ->
  (k + Z.to_nat n <= i)%nat ->
  readNBytesUIntFromArray n (drop k l') = Ok v.
Proof.
  unfold readNBytesUIntFromArray. intros Hv Hk.
  apply readNBytes_loop_agree; [lia | exact Hv | simpl; lia].
Qed.

Lemma readN_shape (k : nat) (n v : Z) :
  readNBytesUIntFromArray n (drop k l) = Ok v ->
  exists v', readNBytesUIntFromArray n (drop k l') = Ok v'.
Proof. unfold readNBytesUIntFromArray. apply readNBytes_loop_shape. Qed.

Lemma slice_from_shape (k : nat) (n : Z) (r : list Z) :
  slice_from (drop k l) n = Ok r ->
  r = drop (k + Z.to_nat n) l /\
  slice_from (drop k l') n = Ok (drop (k + Z.to_nat n) l').
Proof.
  intros Hr. apply slice_from_Ok_inv in Hr as (Hn & ->).
  rewrite drop_drop. split; [reflexivity|].
  rewrite slice_from_drop by (rewrite len_drop_same; exact Hn).
  by rewrite drop_drop.
Qed.

Lemma slice_to_shape (k : nat) (n : Z) (r : list Z) :
  slice_to (drop k l) n = Ok r ->
  r = take (Z.to_nat n) (drop k l) /\
  slice_to (drop k l') n = Ok (take (Z.to_nat n) (drop k l')).
Proof.
  intros Hr. apply slice_to_Ok_inv in Hr as (Hn & ->). split; [reflexivity|].
  apply slice_to_take. rewrite len_drop_same. exact Hn.
Qed.

Lemma read_uints_shape (c : nat) (n : Z) :
  forall k acc acc' vs r,
    read_uints c n (drop k l) acc = Ok (vs, r) ->
    exists k2 vs', r = drop k2 l /\
      read_uints c n (drop k l') acc' = Ok (vs', drop k2 l').
Proof.
  induction c as [|c IH]; intros k acc acc' vs r Hr.
  - cbn [read_uints] in *. injection Hr as <- <-. exists k, acc'. auto.
  - cbn [read_uints] in *.
    destruct (readNBytesUIntFromArray n (drop k l)) as [v| | |] eqn:Ev;
      try discriminate Hr.
    destruct (readN_shape k n v Ev) as (v' & ->). rewrite bind_Ok in Hr |- *.
    destruct (slice_from (drop k l) n) as [r1| | |] eqn:Es; try discriminate Hr.
    destruct (slice_from_shape k n r1 Es) as (-> & ->). rewrite bind_Ok in Hr |- *.
    eapply IH. exact Hr.
Qed.

End SameLength.

(** ** A changed byte after the header counters *)

Tactic Notation "inv_bind" hyp(H) "as" ident(x) ident(E) :=
  match type of H with
  | mbind _ ?op = Ok _ =>
      destruct op as [x| | |] eqn:E; try discriminate H; rewrite bind_Ok in H
  end.

Tactic Notation "inv_if" hyp(H) "as" ident(E) :=
  match type of H with
  | (if ?c then _ else _) = Ok _ => destruct c eqn:E; try discriminate H
  end.

Lemma parse_flags_agree (p boc1 boc2 : list Z) :
  index boc2 0 = index boc1 0 -> parse_flags p boc2 = parse_flags p boc1.
Proof. intros Hi. unfold parse_flags. by rewrite Hi. Qed.

Lemma parse_flags_size (p boc1 : list Z) hasIdx0 hashCrc0 hasCache0 flags0 sizeBytes0 :
  bytes_ok boc1 ->
  parse_flags p boc1 = Ok (hasIdx0, hashCrc0, hasCache0, flags0, sizeBytes0) ->
  0 <= sizeBytes0 < 256.
Proof.
  intros Hok. unfold parse_flags.
  assert (Hb : forall b, index boc1 0 = Ok b -> 0 <= b < 256).
  { intros b Hb. apply index_Ok_inv in Hb as (_ & Hb).
    unfold bytes_ok in Hok. rewrite Forall_forall in Hok.
    apply (Hok b). by eapply list_elem_of_lookup_2. }
  destruct (ByteArrayEquals p reachBocMagicPrefix).
  { destruct (index boc1 0) as [b| | |] eqn:Eb; try discriminate.
    rewrite bind_Ok. intros [= _ _ _ _ <-].
    pose proof (Z.mod_pos_bound b 8). lia. }
  destruct (ByteArrayEquals p leanBocMagicPrefix).
  { destruct (index boc1 0) as [b| | |] eqn:Eb; try discriminate.
    rewrite bind_Ok. intros [= _ _ _ _ <-]. by apply Hb. }
  destruct (ByteArrayEquals p leanBocMagicPrefixCRC); [|discriminate].
  destruct (index boc1 0) as [b| | |] eqn:Eb; try discriminate.
  rewrite bind_Ok. intros [= _ _ _ _ <-]. by apply Hb.
Qed.

Lemma parse_flip (boc : list Z) (i : nat) (b b' : Z) (hd : bocHeader) :
  bytes_ok boc -> is_byte b' -> boc !! i = Some b -> b <> b' ->
  parseBocHeader boc = Ok hd -> hashCrc32 hd = true ->
  counters_end boc <= Z.of_nat i ->
  parseBocHeader (<[i := b']> boc) = Err "crc32c hashsum mismatch".
Proof.
  intros Hok Hb' Hb Hne H Hcrc Hend.
  set (l' := <[i := b']> boc).
  assert (Hlen : length l' = length boc) by apply length_insert.
  assert (Hagree : take i l' = take i boc) by (apply take_insert_ge; lia).
  assert (Hlenz : len l' = len boc) by (unfold len; by rewrite Hlen).
  unfold parseBocHeader, parseBocHeaderWith, parseBocHeaderFrom in H |- *.
  cbv zeta in H |- *.
  inv_if H as E. inv_bind H as a E0. inv_bind H as a0 E1. inv_bind H as fl E2.
  destruct fl as [[[[hasIdx0 hashCrc0] hasCache0] flags0] sizeBytes0].
  inv_bind H as a1 E3. inv_if H as E4. inv_bind H as a2 E5. inv_bind H as a3 E6.
  inv_bind H as a4 E7. inv_bind H as a5 E8. inv_bind H as a6 E9.
  inv_bind H as a7 E10. inv_bind H as a8 E11. inv_bind H as a9 E12.
  inv_bind H as a10 E13. inv_bind H as a11 E14. inv_if H as E15.
  inv_bind H as a12 E16. inv_bind H as a13 E17. inv_if H as E18.
  inv_bind H as a14 E19. inv_bind H as a15 E20.
  (* the slices of the accepted stream *)
  apply slice_to_Ok_inv in E0 as (_ & ->).
  destruct (slice_from_shape boc l' Hlen 0 4 a0 E1) as (-> & S1).
  destruct (slice_from_shape boc l' Hlen _ _ _ E3) as (-> & S3).
  destruct (slice_from_shape boc l' Hlen _ _ _ E6) as (-> & S6).
  destruct (slice_from_shape boc l' Hlen _ _ _ E8) as (-> & S8).
  destruct (slice_from_shape boc l' Hlen _ _ _ E10) as (-> & S10).
  destruct (slice_from_shape boc l' Hlen _ _ _ E12) as (-> & S12).
  destruct (slice_from_shape boc l' Hlen _ _ _ E14) as (-> & S14).
  assert (Hbok : forall k, bytes_ok (drop k boc)).
  { intros k. unfold bytes_ok. by apply Forall_drop. }
  pose proof (parse_flags_size _ _ _ _ _ _ _ (Hbok _) E2) as HsB.
  assert (Ha2 : boc !! 5%nat = Some a2).
  { apply index_Ok_inv in E5 as (_ & E5). rewrite lookup_drop in E5. exact E5. }
  assert (HoB : 0 <= a2 < 256).
  { unfold bytes_ok in Hok. rewrite Forall_forall in Hok.
    apply (Hok a2). by eapply list_elem_of_lookup_2. }
  assert (Hi : (6 + 3 * Z.to_nat sizeBytes0 + Z.to_nat a2 <= i)%nat).
  { unfold counters_end in Hend. change (Z.to_nat 4) with 4%nat in E2.
    cbn [Nat.add] in E2. rewrite E2, Ha2 in Hend. lia. }
  (* the same steps on the changed stream *)
  rewrite Hlenz, E.
  rewrite (slice_to_take l' 4) by (apply Z.ltb_ge in E; lia). rewrite bind_Ok.
  change (drop 0 l') with l' in S1. rewrite S1, bind_Ok.
  assert (Ht4 : take (Z.to_nat 4) l' = take (Z.to_nat 4) boc)
    by (apply take_insert_ge; lia).
  rewrite Ht4.
  rewrite (parse_flags_agree _ (drop (0 + Z.to_nat 4) boc))
    by (apply (index_agree_eq boc l' i Hlen Hagree); lia).
  rewrite E2, bind_Ok, S3, bind_Ok.
  rewrite (len_drop_same boc l' Hlen), E4.
  rewrite (index_agree boc l' i Hlen Hagree _ _ _ E5), bind_Ok, S6, bind_Ok by lia.
  rewrite (readN_agree boc l' i Hlen Hagree _ _ _ E7), bind_Ok, S8, bind_Ok by lia.
  rewrite (readN_agree boc l' i Hlen Hagree _ _ _ E9), bind_Ok, S10, bind_Ok by lia.
  rewrite (readN_agree boc l' i Hlen Hagree _ _ _ E11), bind_Ok, S12, bind_Ok by lia.
  rewrite (readN_agree boc l' i Hlen Hagree _ _ _ E13), bind_Ok, S14, bind_Ok by lia.
  rewrite (len_drop_same boc l' Hlen), E15.
  destruct a12 as [rootList0 r1].
  destruct (read_uints_shape boc l' Hlen _ _ _ [] [] _ _ E16) as (k2 & vs2 & -> & R16).
  rewrite R16, bind_Ok. cbn [fst snd] in *.
  destruct a13 as [index0 r2].
  assert (Hix : exists k3 vs3, r2 = drop k3 boc /\
    (if hasIdx0
     then if len (drop k2 l') <? int (a2 * int a4)
          then Err "not enough bytes for index encoding"
          else read_uints (Z.to_nat (int a4)) a2 (drop k2 l') []
     else Ok ([], drop k2 l')) = Ok (vs3, drop k3 l')).
  { destruct hasIdx0.
    - rewrite (len_drop_same boc l' Hlen).
      destruct (len (drop k2 boc) <? int (a2 * int a4)); [discriminate E17|].
      destruct (read_uints_shape boc l' Hlen _ _ _ [] [] _ _ E17) as (k3 & vs3 & -> & R17).
      eauto.
    - injection E17 as <- <-. eauto. }
  destruct Hix as (k3 & vs3 & -> & R17). rewrite R17, bind_Ok. cbn [fst snd] in *.
  rewrite (len_drop_same boc l' Hlen), E18.
  destruct (slice_to_shape boc l' Hlen _ _ _ E19) as (-> & S19).
  destruct (slice_from_shape boc l' Hlen _ _ _ E20) as (-> & S20).
  rewrite S19, bind_Ok, S20, bind_Ok.
  set (k5 := (k3 + Z.to_nat a10)%nat) in *.
  destruct hashCrc0.
  2:{ rewrite bind_Ok in H. destruct (0 <? len (drop k5 boc)); [discriminate H|].
      injection H as <-. discriminate Hcrc. }
  inv_bind H as rest Ecrc. inv_if Ecrc as E21. inv_bind Ecrc as trailer E22.
  inv_bind Ecrc as body E23. inv_if Ecrc as E24.
  destruct (0 <? len rest) eqn:E26; [discriminate H|]. clear H.
  destruct (slice_to_shape boc l' Hlen _ _ _ E22) as (-> & S22).
  apply slice_to_Ok_inv in E23 as (Hb4 & ->).
  apply slice_from_Ok_inv in Ecrc as (_ & ->).
  apply Z.ltb_ge in E21, E26. apply negb_false_iff, Z.eqb_eq in E24.
  assert (HL : length boc = (k5 + 4)%nat).
  { unfold len in E21, E26. rewrite !length_drop in *. lia. }
  rewrite (len_drop_same boc l' Hlen).
  replace (len (drop k5 boc) <? 4) with false by (symmetry; apply Z.ltb_ge; lia).
  rewrite S22, bind_Ok.
  rewrite (slice_to_take l' (len boc - 4)) by (rewrite Hlenz; lia). rewrite bind_Ok.
  assert (Hk5 : Z.to_nat (len boc - 4) = k5) by (unfold len; lia).
  rewrite Hk5 in *.
  enough (Hmis : Uint32_le (take (Z.to_nat 4) (drop k5 l'))
                 <> CRC32.Checksum (take k5 l') crcTable).
  { apply Z.eqb_neq in Hmis. rewrite Hmis. reflexivity. }
  unfold l'. destruct (decide (i < k5)%nat) as [Hlt|Hge].
  - rewrite drop_insert_lt by lia. rewrite E24.
    rewrite take_insert_lt by lia.
    assert (Hsplit : take k5 boc = take i (take k5 boc) ++ b :: drop (S i) (take k5 boc)).
    { symmetry. apply take_drop_middle. by rewrite lookup_take_lt. }
    rewrite Hsplit at 1.
    rewrite insert_take_drop by (rewrite length_take; lia).
    unfold crcTable. apply Checksum_one_byte.
    + unfold bytes_ok. by apply Forall_take, Forall_take.
    + unfold bytes_ok. by apply Forall_drop, Forall_take.
    + unfold bytes_ok in Hok. rewrite Forall_forall in Hok.
      apply (Hok b). by eapply list_elem_of_lookup_2.
    + exact Hb'.
    + exact Hne.
  - rewrite take_insert_ge by lia. rewrite <- E24.
    rewrite drop_insert_ge by lia.
    intros Heq. apply Uint32_le_inj in Heq.
    + apply (f_equal (fun t => t !! (i - k5)%nat)) in Heq.
      apply lookup_lt_Some in Hb as Hil.
      rewrite !lookup_take_lt in Heq by lia.
      rewrite list_lookup_insert_eq in Heq by (rewrite length_drop; lia).
      rewrite lookup_drop in Heq. replace (k5 + (i - k5))%nat with i in Heq by lia.
      rewrite Hb in Heq. congruence.
    + rewrite length_take, length_insert, length_drop. lia.
    + rewrite length_take, length_drop. lia.
    + unfold bytes_ok. apply Forall_take, Forall_insert; [|exact Hb'].
      by apply Forall_drop.
    + unfold bytes_ok. by apply Forall_take, Forall_drop.
Qed.

(** ** Streams without the checksum flag *)

Ltac stop_here := cbv beta iota delta [mbind result_bind]; reflexivity.

Lemma parse_no_checksum (f g : list Z -> Z) (boc : list Z) :
  checksum_flag boc = false ->
  parseBocHeaderWith f boc = parseBocHeaderWith g boc.
Proof.
  intros Hflag. unfold parseBocHeaderWith, parseBocHeaderFrom. cbv zeta.
  destruct (len boc <? 4 + 1); [reflexivity|].
  destruct (slice_to boc 4) as [prefix| | |] eqn:E0; [|stop_here..].
  destruct (slice_from boc 4) as [boc1| | |] eqn:E1; [|stop_here..].
  rewrite !bind_Ok.
  apply slice_to_Ok_inv in E0 as (_ & ->). apply slice_from_Ok_inv in E1 as (_ & ->).
  unfold checksum_flag in Hflag. change (Z.to_nat 4) with 4%nat.
  destruct (parse_flags (take 4 boc) (drop 4 boc))
    as [[[[[hasIdx0 hashCrc0] hasCache0] flags0] sizeBytes0]| | |]; [|stop_here..].
  subst hashCrc0. rewrite !bind_Ok.
  repeat match goal with
  | |- Ok _ = Ok _ => reflexivity
  | |- Err _ = Err _ => reflexivity
  | |- Panic _ = Panic _ => reflexivity
  | |- NoFuel = NoFuel => reflexivity
  | |- mbind _ ?op = mbind _ ?op =>
      destruct op; [rewrite ?bind_Ok | stop_here..]
  | |- (if ?c then _ else _) = (if ?c then _ else _) =>
      destruct c
  end.
Qed.

(** ** Checks that evaluate *)

Lemma unfold_from_sound (h : heap) (fuel : nat) :
  forall p t, unfold_from fuel h p = Some t -> unfolds h t /\ taddr t = p.
Proof.
  induction fuel as [|f IH]; intros p t Ht; [discriminate Ht|].
  cbn [unfold_from] in Ht.
  destruct (h !! p) as [c|] eqn:Ec; [|discriminate Ht].
  destruct (mapM (unfold_from f h) (Refs c)) as [ch|] eqn:Em; [|discriminate Ht].
  injection Ht as <-. split; [|reflexivity].
  apply mapM_Some_1 in Em.
  constructor; [exact Ec | |].
  - clear Ec. induction Em as [|q y qs ys Hq _ IHm]; [reflexivity|].
    cbn [map]. rewrite IHm. f_equal. by apply IH in Hq as (_ & ->).
  - clear Ec. induction Em as [|q y qs ys Hq _ IHm]; constructor; [|exact IHm].
    by apply IH in Hq as (Hu & _).
Qed.

Lemma tree_ok_b_sound (t : tree) : tree_ok_b t = true -> tree_ok t.
Proof.
  unfold tree_ok_b, tree_ok. rewrite forallb_forall. intros H.
  apply Forall_forall. intros x Hx. apply list_elem_of_In in Hx.
  specialize (H x Hx). apply andb_prop in H as (H1 & H2).
  apply Z.leb_le in H1, H2. split; assumption.
Qed.

Lemma nodupb_sound (l : list string) : nodupb l = true -> NoDup l.
Proof.
  induction l as [|x l IH]; intros H; [constructor|].
  cbn [nodupb] in H. apply andb_prop in H as (H1 & H2).
  apply NoDup_cons. split; [|by apply IH].
  intros Hin. apply list_elem_of_In in Hin.
  apply negb_true_iff in H1.
  assert (existsb (String.eqb x) l = true); [|congruence].
  apply existsb_exists. exists x. split; [exact Hin | apply String.eqb_refl].
Qed.

Lemma NoDup_distinct_hashes (fuel : nat) (h : heap) (t : tree) :
  unfolds h t -> (theight t <= fuel)%nat ->
  NoDup (map thashString (preorder t)) -> distinct_hashes fuel h t.
Proof.
  intros Hu Hf Hnd i j x y d Ex Ey Hx Hy.
  pose proof (preorder_unfolds h t Hu) as Hall. rewrite Forall_forall in Hall.
  assert (Hix : In x (preorder t)) by (apply list_elem_of_In; eapply list_elem_of_lookup_2; eauto).
  assert (Hiy : In y (preorder t)) by (apply list_elem_of_In; eapply list_elem_of_lookup_2; eauto).
  unfold Hash in Hx, Hy.
  rewrite hashCell_unfolds in Hx;
    [|apply Hall, list_elem_of_In, Hix | apply preorder_height in Hix; lia].
  rewrite hashCell_unfolds in Hy;
    [|apply Hall, list_elem_of_In, Hiy | apply preorder_height in Hiy; lia].
  apply (proj1 (NoDup_alt _) Hnd i j (thashString x)).
  - by rewrite list_lookup_fmap, Ex.
  - rewrite list_lookup_fmap, Ey. simpl. unfold thashString. congruence.
Qed.

(** ** The examples *)

Lemma two_tree_unfolds : unfolds two_heap two_tree /\ taddr two_tree = 0%nat.
Proof. apply (unfold_from_sound two_heap 3). reflexivity. Qed.


Lemma leaf_tree_unfolds : unfolds leaf_heap leaf_tree.
Proof. apply (unfold_from_sound leaf_heap 1 0%nat). reflexivity. Qed.

Lemma exotic_tree_unfolds : unfolds exotic_heap exotic_tree.
Proof. apply (unfold_from_sound exotic_heap 1 0%nat). reflexivity. Qed.

Lemma big_tree_unfolds : unfolds big_heap big_tree /\ taddr big_tree = 0%nat.
Proof. apply (unfold_from_sound big_heap 6). vm_compute. reflexivity. Qed.

Lemma digests_preorder (t : tree) : digests t = map thash (preorder t).
Proof.
  induction t as [p c ch IH] using tree_ind_all.
  cbn [digests preorder map]. cbv zeta.
  assert (Hm : map digests ch = map (fun x => map thash (preorder x)) ch).
  { induction IH as [|x ch Hx _ IHch]; [reflexivity|]. cbn [map]. by rewrite Hx, IHch. }
  rewrite Hm. f_equal.
  - assert (Hh : map (hd []) (map (fun x => map thash (preorder x)) ch)
                 = map (fun x => SHA256.Sum256 (thashRepr x)) ch).
    { rewrite map_map. apply map_ext. intros x. by destruct x. }
    by rewrite Hh.
  - clear. induction ch as [|x ch IHch]; [reflexivity|].
    cbn [map concat]. by rewrite map_app, IHch.
Qed.

Lemma big_digests_distinct :
  nodupb (map hex_EncodeToString (digests big_tree)) = true.
Proof. vm_cast_no_check (eq_refl true). Qed.

Lemma big_tree_distinct : NoDup (map thashString (preorder big_tree)).
Proof.
  pose proof (nodupb_sound _ big_digests_distinct) as H.
  by rewrite digests_preorder, map_map in H.
Qed.

(** [SerializeBoc] on an unfolding with distinct hashes is the writes of
    [write_stream] on the byte strings of its cells. *)
Lemma SerializeBoc_write_stream (fuel : nat) (h : heap) (t : tree)
    (idx hasCrc32 cacheBits : bool) (fl : Z) :
  unfolds h t -> (theight t < fuel)%nat ->
  NoDup (map thashString (preorder t)) ->
  SerializeBoc fuel h (taddr t) idx hasCrc32 cacheBits fl
  = write_stream (tcells t) idx hasCrc32 cacheBits fl.
Proof.
  intros Hu Hf Hnd.
  unfold SerializeBoc. rewrite (topologicalSort_unfolds fuel h t Hu Hf).
  destruct (visit_Some (map thashString (preorder t)) ∅ Hnd) as (s' & Hv).
  { intros k _. by rewrite lookup_empty. }
  rewrite Hv, bind_Ok. cbn [fst snd].
  set (m := index_map (map thashString (preorder t))).
  pose proof (bocRepr_preorder fuel h t Hu ltac:(lia) Hnd) as Hrepr. fold m in Hrepr.
  rewrite (size_loop fuel h m _ _ Hrepr 0 []), bind_Ok. cbn [fst snd app].
  rewrite Z.add_0_l.
  assert (Hlen : length (map taddr (preorder t)) = length (tcells t))
    by (by rewrite length_map, length_tcells).
  unfold write_stream, len. rewrite Hlen. cbv zeta.
  match goal with
  | |- mbind _ ?op = mbind _ ?op =>
      destruct op as [s| | |]; [|reflexivity..]
  end.
  rewrite !bind_Ok. by rewrite (cells_loop fuel h m _ _ Hrepr).
Qed.

Lemma big_run_true :
  run_check (write_stream (tcells big_tree) true true false 0) = true.
Proof. vm_cast_no_check (eq_refl true). Qed.

Lemma run_check_outcome (r : result (list Z)) :
  run_check r = true ->
  exists bytes fb msg,
    r = Ok bytes /\ bytes !! 4%nat = Some fb /\ fb mod 8 = 1 /\
    DeserializeBoc bytes = Panic msg.
Proof.
  intros H. destruct r as [bytes| | |]; try discriminate H.
  cbn [run_check] in H. unfold width_one_and_panic in H.
  destruct (bytes !! 4%nat) as [fb|] eqn:Eb; [|discriminate H].
  apply andb_prop in H as (H1 & H2). unfold is_panic in H2.
  destruct (DeserializeBoc bytes) as [|?|msg|] eqn:Ed; try discriminate H2.
  exists bytes, fb, msg. apply Z.eqb_eq in H1. by repeat split.
Qed.

Lemma big_run_outcome :
  exists bytes fb msg,
    SerializeBoc 7 big_heap 0%nat true true false 0 = Ok bytes /\
    bytes !! 4%nat = Some fb /\ fb mod 8 = 1 /\
    DeserializeBoc bytes = Panic msg.
Proof.
  destruct (run_check_outcome _ big_run_true) as (bytes & fb & msg & Hr & Hb & Hfb & Hd).
  destruct big_tree_unfolds as (Hu & Ha).
  assert (Hh : (theight big_tree < 7)%nat) by (vm_compute; lia).
  pose proof (SerializeBoc_write_stream 7 big_heap big_tree true true false 0
                Hu Hh big_tree_distinct) as Hs.
  rewrite Ha in Hs.
  exists bytes, fb, msg. exact (conj (eq_trans Hs Hr) (conj Hb (conj Hfb Hd))).
Qed.

(** ** Round trip *)

(** C1 (corrected): for a cell graph without cycles whose cells carry at
    most four references and 1023 payload bits, whose reachable cells have
    pairwise distinct hashes and number fewer than 256, and for flags in
    0..3, [DeserializeBoc] applied to the bytes of [SerializeBoc] returns
    exactly one root, whose [Hash] is the [Hash] of the original and whose
    unfolding is isomorphic to the original. *)
Theorem C1_roundtrip_small (fuel : nat) (h : heap) (t : tree)
    (idx hasCrc32 cacheBits : bool) (fl : Z) :
  unfolds h t -> (theight t < fuel)%nat -> tree_ok t ->
  distinct_hashes fuel h t -> (tsize t < 256)%nat -> 0 <= fl < 4 ->
  roundtrip fuel h t idx hasCrc32 cacheBits fl.
Proof.
  intros Hu Hf Hok Hd Hsz Hfl.
  assert (Hnd : NoDup (map thashString (preorder t))).
  { apply (distinct_hashes_NoDup fuel h t Hu); [lia | exact Hd]. }
  destruct (roundtrip_unfolds fuel h t idx hasCrc32 cacheBits fl Hu Hf Hok Hsz Hnd Hfl)
    as (Hs & Hde & Hu' & Hh & Hh').
  exists (stream (tcells t) idx hasCrc32 cacheBits fl), (decoded_heap t), 0%nat,
         (thash t), (decoded_tree 0 t).
  repeat split; try assumption.
  - by destruct t.
  - apply decoded_tree_iso.
Qed.

Lemma C1_roundtrip_small_witness : roundtrip 5 two_heap two_tree true true false 0.
Proof.
  apply C1_roundtrip_small.
  - apply two_tree_unfolds.
  - vm_compute. lia.
  - apply tree_ok_b_sound. reflexivity.
  - apply NoDup_distinct_hashes; [apply two_tree_unfolds | vm_compute; lia |].
    apply nodupb_sound. vm_compute. reflexivity.
  - vm_compute. lia.
  - lia.
Defined.

(** C1, counterexample: the complete tree of arity four and depth four has
    341 cells with at most four references, 16 payload bits and pairwise
    distinct hashes; [SerializeBoc] returns bytes for it, and
    [DeserializeBoc] panics on them. *)
Lemma C1_counterexample_large_tree :
  unfolds big_heap big_tree /\ (theight big_tree < 7)%nat /\ tree_ok big_tree /\
  distinct_hashes 7 big_heap big_tree /\ 0 <= 0 < 4 /\
  ~ roundtrip 7 big_heap big_tree true true false 0.
Proof.
  destruct big_tree_unfolds as (Hu & Ha).
  assert (Hh : (theight big_tree < 7)%nat) by (vm_compute; lia).
  split; [exact Hu|]. split; [exact Hh|].
  split; [apply tree_ok_b_sound; vm_compute; reflexivity|].
  split; [apply NoDup_distinct_hashes; [exact Hu | lia | apply big_tree_distinct]|].
  split; [lia|].
  intros (bytes & h' & r & d & t' & Hs & Hd & _).
  destruct big_run_outcome as (bytes' & fb & msg & Hs' & _ & _ & Hd').
  rewrite Ha in Hs. rewrite Hs' in Hs. injection Hs as <-.
  rewrite Hd' in Hd. discriminate Hd.
Qed.

(** ** Errors of the decoder *)

(** C2 (code bug): [DeserializeBoc] drops the error of [parseBocHeader] and
    reads a field of the nil header, so every input that [parseBocHeader]
    rejects makes it panic. *)
Theorem C2_DeserializeBoc_panics (boc : list Z) (msg : string) :
  parseBocHeader boc = Err msg ->
  DeserializeBoc boc = Panic "invalid memory address or nil pointer dereference".
Proof. intros H. unfold DeserializeBoc. rewrite H. reflexivity. Qed.

Lemma C2_DeserializeBoc_panics_witness :
  parseBocHeader [] = Err "not enough bytes for magic prefix" /\
  DeserializeBoc [] = Panic "invalid memory address or nil pointer dereference".
Proof.
  split; [reflexivity|].
  apply (C2_DeserializeBoc_panics [] "not enough bytes for magic prefix"). reflexivity.
Defined.

(** ** Width fields *)

(** C3 (code bug): the width that [SerializeBoc] writes for the cell count
    is one for every count from 1 on; for the tree of 341 cells the sorted
    list has 341 cells and the flags byte of the output carries width 1. *)
Theorem C3_sizeBytes_field_large_tree :
  (forall n, 1 <= n < 2 ^ 64 -> sBytes_of n = 1) /\
  exists allCells indexesMap bytes fb,
    topologicalSort 7 big_heap 0%nat = Ok (allCells, indexesMap) /\
    len allCells = 341 /\
    SerializeBoc 7 big_heap 0%nat true true false 0 = Ok bytes /\
    bytes !! 4%nat = Some fb /\ fb mod 8 = 1.
Proof.
  split; [exact sBytes_of_pos|].
  destruct big_tree_unfolds as (Hu & Ha).
  destruct big_run_outcome as (bytes & fb & msg & Hs & Hb & Hfb & _).
  assert (Hh : (theight big_tree < 7)%nat) by (vm_compute; lia).
  pose proof (topologicalSort_unfolds 7 big_heap big_tree Hu Hh) as Hts.
  rewrite Ha in Hts.
  destruct (visit_Some (map thashString (preorder big_tree)) ∅ big_tree_distinct)
    as (s' & Hv); [intros k _; by rewrite lookup_empty|].
  rewrite Hv in Hts.
  eexists _, _, bytes, fb. split; [exact Hts|].
  split; [|exact (conj Hs (conj Hb Hfb))].
  unfold len. rewrite length_map. vm_compute. reflexivity.
Qed.

Lemma C3_sizeBytes_field_large_tree_witness : sBytes_of 341 = 1.
Proof. apply (proj1 C3_sizeBytes_field_large_tree 341). lia. Defined.

(** ** Hash and kind *)

Lemma bocReprWithoutRefs_kind (c c' : Cell) :
  Bits c = Bits c' -> refs c = refs c' ->
  bocReprWithoutRefs c = bocReprWithoutRefs c'.
Proof.
  intros Hb Hr. unfold bocReprWithoutRefs, RefsSize, Refs, BitSize.
  by rewrite Hb, Hr.
Qed.

(** C4 (code bug): two cells with the same payload and the same references
    have the same [Hash], whatever their kinds: the exotic flag is not part
    of the hashed bytes. *)
Theorem C4_hash_ignores_kind (fuel : nat) (h : heap) (p q : ptr) (c c' : Cell) :
  h !! p = Some c -> h !! q = Some c' ->
  Bits c = Bits c' -> refs c = refs c' ->
  IsExotic c = false -> IsExotic c' = true ->
  Hash fuel h p = Hash fuel h q.
Proof.
  intros Hp Hq Hb Hr _ _. unfold Hash, hashCell. f_equal.
  destruct fuel as [|f]; [reflexivity|].
  cbn [hashRepr]. unfold deref. rewrite Hp, Hq, !bind_Ok.
  rewrite (bocReprWithoutRefs_kind c c' Hb Hr).
  unfold Refs. by rewrite Hr.
Qed.

Lemma C4_hash_ignores_kind_witness :
  Hash 1 [NewCell; NewCellExotic] 0%nat = Hash 1 [NewCell; NewCellExotic] 1%nat /\
  exists d, Hash 1 [NewCell; NewCellExotic] 0%nat = Ok d.
Proof.
  split.
  - apply (C4_hash_ignores_kind 1 [NewCell; NewCellExotic] 0 1 NewCell NewCellExotic);
      reflexivity.
  - eexists. reflexivity.
Defined.

(** ** Order of the sorted cells *)






(** ** The checksum *)

(** C6 (corrected): for a stream of bytes that [parseBocHeader] accepts with
    the checksum flag set, replacing one byte after the header counters by a
    different byte makes [parseBocHeader] fail with the checksum-mismatch
    error; for a stream whose header does not set the flag, the result of
    [parseBocHeader] does not depend on the checksum function. *)
Theorem C6_checksum_after_counters :
  (forall (boc : list Z) (i : nat) (b b' : Z) (hd : bocHeader),
     bytes_ok boc -> is_byte b' -> boc !! i = Some b -> b <> b' ->
     parseBocHeader boc = Ok hd -> hashCrc32 hd = true ->
     counters_end boc <= Z.of_nat i ->
     parseBocHeader (<[i := b']> boc) = Err "crc32c hashsum mismatch") /\
  (forall (f g : list Z -> Z) (boc : list Z),
     checksum_flag boc = false ->
     parseBocHeaderWith f boc = parseBocHeaderWith g boc).
Proof. split; [exact parse_flip | exact parse_no_checksum]. Qed.

Lemma leaf_stream_bytes_ok : bytes_ok leaf_stream.
Proof. unfold bytes_ok, is_byte, leaf_stream. repeat constructor; lia. Qed.

Lemma C6_checksum_after_counters_witness :
  parseBocHeader (<[14%nat := 185]> leaf_stream) = Err "crc32c hashsum mismatch".
Proof.
  destruct (parseBocHeader leaf_stream) as [hd| | |] eqn:E;
    [|vm_compute in E; discriminate E..].
  apply (proj1 C6_checksum_after_counters leaf_stream 14%nat 184 185 hd).
  - apply leaf_stream_bytes_ok.
  - unfold is_byte. lia.
  - reflexivity.
  - lia.
  - exact E.
  - vm_compute in E. injection E as <-. reflexivity.
  - vm_compute. discriminate.
Defined.

(** C6, counterexample: the stream of the 1011 leaf carries a checksum;
    with its first byte changed, [parseBocHeader] fails with the
    magic-prefix error, not with the checksum error. *)
Lemma C6_counterexample_magic_flip :
  ToBoc 2 leaf_heap 0%nat = Ok leaf_stream /\
  checksum_flag leaf_stream = true /\
  parseBocHeader (<[0%nat := 180]> leaf_stream) = Err "unknown magic prefix".
Proof. split; [|split]; vm_compute; reflexivity. Qed.

(** ** The leaf 1011 *)

(** C7 (confirmed): the leaf with the four payload bits 1011 is represented
    by the bytes 0x00, 0x01, 0xB8, and its [Hash] is the SHA-256 digest of
    these three bytes. *)
Theorem C7_leaf_1011 :
  bocReprWithoutRefs leaf1011 = [0x00; 0x01; 0xB8] /\
  forall fuel, Hash (S fuel) leaf_heap 0%nat = Ok (SHA256.Sum256 [0x00; 0x01; 0xB8]).
Proof.
  assert (Hr : bocReprWithoutRefs leaf1011 = [0x00; 0x01; 0xB8])
    by (vm_compute; reflexivity).
  split; [exact Hr|]. intros fuel.
  unfold Hash, hashCell. cbn [hashRepr]. unfold deref, leaf_heap.
  cbn [lookup list_lookup]. rewrite bind_Ok.
  replace (Refs leaf1011) with (@nil ptr) by reflexivity.
  cbn [foldM]. rewrite Hr. reflexivity.
Qed.

(** ** Adding references *)

Lemma Refs_snoc (c : Cell) (q : ptr) :
  Refs (set_refs c (refs c ++ [Some q])) = Refs c ++ [q].
Proof. rewrite !Refs_omap. cbn [set_refs refs]. by rewrite omap_app. Qed.

Lemma AddReference_ok (h : heap) (c : ptr) (cell : Cell) (q : ptr) :
  h !! c = Some cell -> (length (Refs cell) < 4)%nat ->
  exists cell',
    AddReference h c (Some q) = Ok (<[c := cell']> h, None) /\
    (<[c := cell']> h) !! c = Some cell' /\
    Refs cell' = Refs cell ++ [q].
Proof.
  intros Hc Hn. exists (set_refs cell (refs cell ++ [Some q])).
  unfold AddReference, deref. rewrite Hc, bind_Ok.
  replace (RefsSize cell =? 4) with false
    by (symmetry; apply Z.eqb_neq; unfold RefsSize, len; lia).
  split; [reflexivity|]. split; [|apply Refs_snoc].
  apply list_lookup_insert_eq. by eapply lookup_lt_Some.
Qed.

(** C8 (confirmed): on a cell without references, as [NewCell] returns it,
    four calls of [AddReference] with cells succeed, [Refs] then lists the
    four cells in the order of the calls, and a fifth call returns the
    error and changes nothing. *)
Theorem C8_AddReference_limit (h : heap) (c : ptr) (cell : Cell)
    (c1 c2 c3 c4 c5 : ptr) :
  h !! c = Some cell -> Refs cell = [] ->
  exists h1 h2 h3 h4 cell4,
    AddReference h c (Some c1) = Ok (h1, None) /\
    AddReference h1 c (Some c2) = Ok (h2, None) /\
    AddReference h2 c (Some c3) = Ok (h3, None) /\
    AddReference h3 c (Some c4) = Ok (h4, None) /\
    h4 !! c = Some cell4 /\ Refs cell4 = [c1; c2; c3; c4] /\
    AddReference h4 c (Some c5) = Ok (h4, Some "cell references are filled"%string).
Proof.
  intros Hc Hr.
  destruct (AddReference_ok h c cell c1 Hc) as (x1 & A1 & L1 & R1);
    [rewrite Hr; simpl; lia|].
  destruct (AddReference_ok _ c x1 c2 L1) as (x2 & A2 & L2 & R2);
    [rewrite R1, Hr; simpl; lia|].
  destruct (AddReference_ok _ c x2 c3 L2) as (x3 & A3 & L3 & R3);
    [rewrite R2, R1, Hr; simpl; lia|].
  destruct (AddReference_ok _ c x3 c4 L3) as (x4 & A4 & L4 & R4);
    [rewrite R3, R2, R1, Hr; simpl; lia|].
  eexists _, _, _, _, x4.
  split; [exact A1|]. split; [exact A2|]. split; [exact A3|]. split; [exact A4|].
  split; [exact L4|].
  assert (R : Refs x4 = [c1; c2; c3; c4]) by (rewrite R4, R3, R2, R1, Hr; reflexivity).
  split; [exact R|].
  unfold AddReference, deref. rewrite L4, bind_Ok.
  unfold RefsSize. rewrite R. reflexivity.
Qed.

Lemma C8_AddReference_limit_witness :
  exists h4 cell4,
    h4 !! 0%nat = Some cell4 /\ Refs cell4 = [1; 2; 3; 4]%nat /\
    AddReference h4 0%nat (Some 5%nat) = Ok (h4, Some "cell references are filled"%string).
Proof.
  destruct (C8_AddReference_limit (replicate 6 NewCell) 0 NewCell 1 2 3 4 5)
    as (h1 & h2 & h3 & h4 & cell4 & _ & _ & _ & _ & L & R & A); [reflexivity..|].
  exists h4, cell4. split; [exact L|]. split; [exact R | exact A].
Defined.

(** ** A cell that references itself *)

(** C9 (confirmed): the order check of [DeserializeBoc] rejects a reference
    below the index of the referencing cell and accepts the index itself:
    the stream of one cell whose reference is 0 decodes to a cell that
    references itself. On such a cell [getMaxDepth] and [Hash] do not
    return, whatever the recursion depth allowed. *)
Theorem C9_self_reference :
  (forall h cellsArray i ri r c,
     r < i -> link_refs h cellsArray i ri (r :: c) = Err "topological order is broken") /\
  (exists h c,
     DeserializeBoc self_ref_stream = Ok (h, [Some 0%nat]) /\
     heap_closed h /\ h !! 0%nat = Some c /\ Refs c = [0%nat]) /\
  (forall (h : heap) (p : ptr) (c : Cell),
     heap_closed h -> h !! p = Some c -> In p (Refs c) ->
     forall fuel, getMaxDepth fuel h p = NoFuel /\ Hash fuel h p = NoFuel).
Proof.
  split; [|split].
  - intros h cellsArray i ri r c Hlt. cbn [link_refs].
    by replace (r <? i) with true by (symmetry; by apply Z.ltb_lt).
  - eexists _, _. split; [vm_compute; reflexivity|].
    split; [|split; [reflexivity | vm_compute; reflexivity]].
    intros p c q Hp Hq. destruct p as [|p]; [|discriminate Hp].
    injection Hp as <-. vm_compute in Hq. vm_compute. intuition lia.
  - intros h p c Hcl Hp Hin fuel. split.
    + by eapply getMaxDepth_self.
    + by eapply Hash_self.
Qed.

Lemma C9_self_reference_witness :
  Hash 1000 [set_refs NewCell [Some 0%nat]] 0%nat = NoFuel.
Proof.
  refine (proj2 (proj2 (proj2 C9_self_reference)
            [set_refs NewCell [Some 0%nat]] 0%nat (set_refs NewCell [Some 0%nat]) _ _ _ 1000%nat)).
  - intros p c q Hp Hq. destruct p as [|p]; [|discriminate Hp].
    injection Hp as <-. vm_compute in Hq. vm_compute. intuition lia.
  - reflexivity.
  - vm_compute. tauto.
Defined.

(** ** The exotic flag *)

(** C10 (confirmed): the first descriptor byte that [bocReprWithoutRefs]
    writes is the number of references, without the exotic bit; so in the
    graph that [DeserializeBoc] returns for the bytes of [SerializeBoc] no
    cell is exotic, whatever the kinds of the original cells. *)
Theorem C10_exotic_flag_lost (fuel : nat) (h : heap) (t : tree)
    (idx hasCrc32 cacheBits : bool) (fl : Z) :
  unfolds h t -> (theight t < fuel)%nat -> tree_ok t ->
  distinct_hashes fuel h t -> (tsize t < 256)%nat -> 0 <= fl < 4 ->
  (exists rest, bocReprWithoutRefs (tcell t) = RefsSize (tcell t) :: rest /\
                Z.land (RefsSize (tcell t)) 8 = 0) /\
  exists bytes h' r c',
    SerializeBoc fuel h (taddr t) idx hasCrc32 cacheBits fl = Ok bytes /\
    DeserializeBoc bytes = Ok (h', [Some r]) /\
    h' !! r = Some c' /\ IsExotic c' = false /\
    Forall (fun c => IsExotic c = false) h'.
Proof.
  intros Hu Hf Hok Hd Hsz Hfl.
  assert (Hnd : NoDup (map thashString (preorder t))).
  { apply (distinct_hashes_NoDup fuel h t Hu); [lia | exact Hd]. }
  destruct (roundtrip_unfolds fuel h t idx hasCrc32 cacheBits fl Hu Hf Hok Hsz Hnd Hfl)
    as (Hs & Hde & Hu' & _ & _).
  split.
  - assert (Hc : cell_ok (tcell t)).
    { unfold tree_ok in Hok. rewrite Forall_forall in Hok.
      eapply Hok, list_elem_of_lookup_2, preorder_head. }
    destruct Hc as (Hr & _).
    assert (0 <= RefsSize (tcell t)) by (unfold RefsSize; apply len_nonneg).
    rewrite bocReprWithoutRefs_spec, byte_small by lia.
    eexists. split; [reflexivity|].
    assert (Hcases : RefsSize (tcell t) = 0 \/ RefsSize (tcell t) = 1 \/
                     RefsSize (tcell t) = 2 \/ RefsSize (tcell t) = 3 \/
                     RefsSize (tcell t) = 4) by lia.
    destruct Hcases as [-> | [-> | [-> | [-> | ->]]]]; reflexivity.
  - assert (Hall : Forall (fun c => IsExotic c = false) (decoded_heap t)).
    { unfold decoded_heap. apply Forall_forall. intros c Hc.
      apply list_elem_of_lookup_1 in Hc as (i & Hi).
      rewrite list_lookup_imap in Hi.
      destruct (preorder t !! i); [|discriminate Hi]. by injection Hi as <-. }
    destruct t as [p c ch]. rewrite decoded_tree_eq in Hu'.
    apply unfolds_inv in Hu' as (Hroot & _ & _).
    eexists _, (decoded_heap (Node p c ch)), 0%nat, _.
    split; [exact Hs|]. split; [exact Hde|]. split; [exact Hroot|].
    split; [reflexivity | exact Hall].
Qed.

Lemma C10_exotic_flag_lost_witness :
  IsExotic (tcell exotic_tree) = true /\
  exists bytes h' r c',
    SerializeBoc 2 exotic_heap 0%nat true true false 0 = Ok bytes /\
    DeserializeBoc bytes = Ok (h', [Some r]) /\
    h' !! r = Some c' /\ IsExotic c' = false.
Proof.
  split; [reflexivity|].
  destruct (C10_exotic_flag_lost 2 exotic_heap exotic_tree true true false 0)
    as (_ & bytes & h' & r & c' & Hs & Hd & Hl & He & _).
  - apply exotic_tree_unfolds.
  - vm_compute. lia.
  - apply tree_ok_b_sound. reflexivity.
  - apply NoDup_distinct_hashes; [apply exotic_tree_unfolds | vm_compute; lia |].
    apply nodupb_sound. vm_compute. reflexivity.
  - vm_compute. lia.
  - lia.
  - exists bytes, h', r, c'. by repeat split.
Defined.

(** * Further properties of the code *)

(** ** Comparing byte slices *)

Lemma pairs_equal (a : list Z) :
  forall b, length a = length b ->
  forallb (fun p => fst p =? snd p) (combine a b) = true <-> a = b.
Proof.
  induction a as [|x a IH]; intros [|y b] Hl; try discriminate Hl.
  - by split.
  - injection Hl as Hl. cbn [combine forallb fst snd].
    rewrite andb_true_iff, Z.eqb_eq, (IH b Hl).
    split; [intros (-> & ->); reflexivity | intros [= -> ->]; by split].
Qed.

Lemma ByteArrayEquals_iff (a b : list Z) : ByteArrayEquals a b = true <-> a = b.
Proof.
  unfold ByteArrayEquals.
  destruct (Nat.eqb_spec (length a) (length b)) as [E|E]; cbn [negb].
  - by apply pairs_equal.
  - split; [discriminate | intros ->; contradiction].
Qed.

(** X1: [ByteArrayEquals] returns true exactly for equal slices, slices
    of different lengths included. *)
Theorem X1_ByteArrayEquals_spec (a b : list Z) :
  ByteArrayEquals a b = true <-> a = b.
Proof. apply ByteArrayEquals_iff. Qed.

(** ** Reading big-endian numbers *)

Lemma wrap_step (a b : Z) :
  uint (uint (a mod 2 ^ 64 * 256) + b) = (a * 256 + b) mod 2 ^ 64.
Proof.
  unfold uint. rewrite Z.mul_mod_idemp_l by lia.
  by rewrite Z.add_mod_idemp_l by lia.
Qed.

Lemma readNBytes_loop_value (arr : list Z) :
  forall k i a,
    (i + k <= length arr)%nat ->
    readNBytes_loop k (Z.of_nat i) (a mod 2 ^ 64) arr
    = Ok (fold_left (fun a b => a * 256 + b) (take k (drop i arr)) a mod 2 ^ 64).
Proof.
  induction k as [|k IH]; intros i a Hi; [by rewrite take_0|].
  cbn [readNBytes_loop].
  destruct (arr !! i) as [b|] eqn:Eb; [|apply lookup_ge_None in Eb; lia].
  rewrite (index_nat arr i b Eb), bind_Ok, wrap_step.
  replace (Z.of_nat i + 1) with (Z.of_nat (S i)) by lia.
  rewrite IH by lia.
  rewrite (drop_S arr b i Eb). reflexivity.
Qed.

Lemma be_value_bound (l : list Z) :
  bytes_ok l -> forall a, 0 <= a ->
  0 <= fold_left (fun a b => a * 256 + b) l a < (a + 1) * 256 ^ len l.
Proof.
  induction 1 as [|b l Hb Hl IH]; intros a Ha.
  - cbn [fold_left]. change (len (@nil Z)) with 0. lia.
  - cbn [fold_left]. unfold is_byte in Hb.
    specialize (IH (a * 256 + b) ltac:(lia)).
    rewrite len_cons, Z.pow_add_r by (pose proof (len_nonneg l); lia).
    pose proof (Z.pow_pos_nonneg 256 (len l) ltac:(lia) (len_nonneg l)).
    split; [lia|]. nia.
Qed.

(** X2: [readNBytesUIntFromArray n arr] on an array of at least [n] bytes
    returns the number spelled by the first [n] bytes, most significant
    first, reduced modulo 2^64; for [n] up to 8 nothing is lost. *)
Theorem X2_readNBytesUIntFromArray_value (n : Z) (arr : list Z) :
  0 <= n <= len arr ->
  readNBytesUIntFromArray n arr = Ok (be_value (take (Z.to_nat n) arr) mod 2 ^ 64) /\
  (bytes_ok arr -> n <= 8 ->
   readNBytesUIntFromArray n arr = Ok (be_value (take (Z.to_nat n) arr))).
Proof.
  intros Hn. unfold len in Hn.
  assert (H1 : readNBytesUIntFromArray n arr
               = Ok (be_value (take (Z.to_nat n) arr) mod 2 ^ 64)).
  { unfold readNBytesUIntFromArray, be_value.
    pose proof (readNBytes_loop_value arr (Z.to_nat n) 0 0 ltac:(lia)) as H.
    by rewrite drop_0 in H. }
  split; [exact H1|]. intros Hb H8. rewrite H1. f_equal.
  apply Z.mod_small.
  assert (Hbt : bytes_ok (take (Z.to_nat n) arr)) by (by apply Forall_take).
  pose proof (be_value_bound _ Hbt 0 ltac:(lia)) as Hv. fold (be_value (take (Z.to_nat n) arr)) in Hv.
  assert (Hl : len (take (Z.to_nat n) arr) = n) by (unfold len; rewrite length_take; lia).
  rewrite Hl in Hv.
  assert (256 ^ n <= 256 ^ 8) by (apply Z.pow_le_mono_r; lia).
  change (2 ^ 64) with (256 ^ 8). lia.
Qed.

Lemma X2_readNBytesUIntFromArray_value_witness :
  readNBytesUIntFromArray 2 [1; 2; 3] = Ok 258.
Proof.
  refine (proj2 (X2_readNBytesUIntFromArray_value 2 [1; 2; 3] _) _ _).
  - vm_compute. split; discriminate.
  - unfold bytes_ok, is_byte. repeat constructor; lia.
  - lia.
Defined.

Lemma readNBytes_loop_short (arr : list Z) :
  forall k i a,
    (i <= length arr)%nat -> (length arr < i + k)%nat ->
    readNBytes_loop k (Z.of_nat i) a arr = Panic "index out of range".
Proof.
  induction k as [|k IH]; intros i a Hi Hk; [lia|].
  cbn [readNBytes_loop].
  destruct (arr !! i) as [b|] eqn:Eb.
  - rewrite (index_nat arr i b Eb), bind_Ok.
    replace (Z.of_nat i + 1) with (Z.of_nat (S i)) by lia.
    apply lookup_lt_Some in Eb. apply IH; lia.
  - apply lookup_ge_None in Eb. unfold index, len.
    replace (Z.of_nat i <? Z.of_nat (length arr)) with false
      by (symmetry; apply Z.ltb_ge; lia).
    by rewrite andb_false_r.
Qed.

(** X3: [readNBytesUIntFromArray n arr] on an array shorter than [n] runs
    past the end of the array and panics. *)
Theorem X3_readNBytesUIntFromArray_short (n : Z) (arr : list Z) :
  len arr < n ->
  readNBytesUIntFromArray n arr = Panic "index out of range".
Proof.
  intros Hn. unfold len in Hn. unfold readNBytesUIntFromArray.
  apply (readNBytes_loop_short arr (Z.to_nat n) 0 0); lia.
Qed.

Lemma X3_readNBytesUIntFromArray_short_witness :
  readNBytesUIntFromArray 2 [7] = Panic "index out of range".
Proof. apply X3_readNBytesUIntFromArray_short. vm_compute. reflexivity. Defined.

(** ** Rejected headers *)

Lemma ByteArrayEquals_neq (a b : list Z) : a <> b -> ByteArrayEquals a b = false.
Proof.
  intros Hne. destruct (ByteArrayEquals a b) eqn:E; [|reflexivity].
  by apply ByteArrayEquals_iff in E.
Qed.

(** X4: [parseBocHeader] rejects an input of fewer than five bytes for its
    length, and a longer input whose first four bytes are none of the
    three magic prefixes for its prefix. *)
Theorem X4_parseBocHeader_rejects (boc : list Z) :
  (len boc < 5 -> parseBocHeader boc = Err "not enough bytes for magic prefix") /\
  (5 <= len boc ->
   take 4 boc <> reachBocMagicPrefix -> take 4 boc <> leanBocMagicPrefix ->
   take 4 boc <> leanBocMagicPrefixCRC ->
   parseBocHeader boc = Err "unknown magic prefix").
Proof.
  unfold parseBocHeader, parseBocHeaderWith, parseBocHeaderFrom. cbv zeta. split.
  - intros Hl. by replace (len boc <? 4 + 1) with true by (symmetry; apply Z.ltb_lt; lia).
  - intros Hl H1 H2 H3.
    replace (len boc <? 4 + 1) with false by (symmetry; apply Z.ltb_ge; lia).
    rewrite (slice_to_take boc 4), bind_Ok by lia.
    rewrite (slice_from_drop boc 4), bind_Ok by lia.
    unfold parse_flags. change (Z.to_nat 4) with 4%nat.
    by rewrite !ByteArrayEquals_neq.
Qed.

Lemma X4_parseBocHeader_rejects_witness :
  parseBocHeader [1; 2; 3] = Err "not enough bytes for magic prefix" /\
  parseBocHeader [1; 2; 3; 4; 5; 6] = Err "unknown magic prefix".
Proof.
  split.
  - apply (proj1 (X4_parseBocHeader_rejects [1; 2; 3])). vm_compute. reflexivity.
  - apply (proj2 (X4_parseBocHeader_rejects [1; 2; 3; 4; 5; 6]));
      vm_compute; discriminate.
Defined.

(** ** The stream of a small graph *)

Lemma small_stream_facts (fuel : nat) (h : heap) (t : tree) :
  unfolds h t -> (theight t < fuel)%nat -> tree_ok t ->
  distinct_hashes fuel h t -> (tsize t < 256)%nat ->
  NoDup (map thashString (preorder t)) /\
  1 <= len (tcells t) < 256 /\ len (tcells t) = Z.of_nat (tsize t) /\
  0 <= len (concat (tcells t)) < 65536 /\
  bytes_ok (concat (tcells t)).
Proof.
  intros Hu Hf Hok Hd Hsz.
  pose proof (tsize_pos t) as Hpos.
  pose proof (len_tcells_bound h t Hu Hok) as Hfull.
  assert (Hl : len (tcells t) = Z.of_nat (tsize t))
    by (unfold len; by rewrite length_tcells).
  split; [apply (distinct_hashes_NoDup fuel h t Hu); [lia | exact Hd]|].
  split; [lia|]. split; [exact Hl|]. split; [lia|].
  apply (tcells_bytes_ok h t Hu Hok). lia.
Qed.

(** X5: [parseBocHeader] accepts the bytes that [SerializeBoc] returns for a
    graph of fewer than 256 cells and reads back the flags, a width of one
    byte, the number of cells, one root with index 0, no absent cell, and
    the cell data with its size. *)
Theorem X5_parseBocHeader_of_SerializeBoc (fuel : nat) (h : heap) (t : tree)
    (idx hasCrc32 cacheBits : bool) (fl : Z) :
  unfolds h t -> (theight t < fuel)%nat -> tree_ok t ->
  distinct_hashes fuel h t -> (tsize t < 256)%nat -> 0 <= fl < 4 ->
  exists bytes hd,
    SerializeBoc fuel h (taddr t) idx hasCrc32 cacheBits fl = Ok bytes /\
    parseBocHeader bytes = Ok hd /\
    hasIdx hd = idx /\ hashCrc32 hd = hasCrc32 /\ hasCacheBits hd = cacheBits /\
    sizeBytes hd = 1 /\ cellsNum hd = Z.of_nat (tsize t) /\
    rootsNum hd = 1 /\ absentNum hd = 0 /\ rootList hd = [0] /\
    cellsData hd = concat (tcells t) /\ totCellsSize hd = len (cellsData hd).
Proof.
  intros Hu Hf Hok Hd Hsz Hfl.
  destruct (small_stream_facts fuel h t Hu Hf Hok Hd Hsz) as (Hnd & Hn & Hl & Hfull & Hb).
  destruct (parse_stream (tcells t) idx hasCrc32 cacheBits fl Hn ltac:(lia) Hfl Hb)
    as (fl' & ixl & Hp).
  eexists _, _.
  split; [by apply SerializeBoc_unfolds|]. split; [exact Hp|].
  cbn [hasIdx hashCrc32 hasCacheBits sizeBytes cellsNum rootsNum absentNum
       rootList cellsData totCellsSize].
  by rewrite Hl.
Qed.

Lemma X5_parseBocHeader_of_SerializeBoc_witness :
  exists bytes hd,
    SerializeBoc 5 two_heap 0%nat true true false 0 = Ok bytes /\
    parseBocHeader bytes = Ok hd /\ cellsNum hd = 2 /\ rootList hd = [0].
Proof.
  destruct (X5_parseBocHeader_of_SerializeBoc 5 two_heap two_tree true true false 0)
    as (bytes & hd & Hs & Hp & _ & _ & _ & _ & Hc & _ & _ & Hr & _).
  - apply two_tree_unfolds.
  - vm_compute. lia.
  - apply tree_ok_b_sound. reflexivity.
  - apply NoDup_distinct_hashes; [apply two_tree_unfolds | vm_compute; lia |].
    apply nodupb_sound. vm_compute. reflexivity.
  - vm_compute. lia.
  - lia.
  - exists bytes, hd. split; [exact Hs|]. split; [exact Hp|]. split; [exact Hc | exact Hr].
Defined.

(** X6: for a graph of fewer than 256 cells, [SerializeBoc] returns the
    magic prefix, the flags byte, the offset width, the cell count, the
    root count 1, the absent count 0, the size of the cell data, the root
    index 0, the index of offsets when asked for, the cells in preorder,
    each as its descriptor bytes, payload and the preorder positions of
    its references, and last the CRC32C of all this when asked for. *)
Theorem X6_SerializeBoc_layout (fuel : nat) (h : heap) (t : tree)
    (idx hasCrc32 cacheBits : bool) (fl : Z) :
  unfolds h t -> (theight t < fuel)%nat -> tree_ok t ->
  distinct_hashes fuel h t -> (tsize t < 256)%nat -> 0 <= fl < 4 ->
  SerializeBoc fuel h (taddr t) idx hasCrc32 cacheBits fl
  = Ok (stream (imap cell_bytes (preorder t)) idx hasCrc32 cacheBits fl).
Proof.
  intros Hu Hf Hok Hd Hsz Hfl.
  destruct (small_stream_facts fuel h t Hu Hf Hok Hd Hsz) as (Hnd & _).
  by apply SerializeBoc_unfolds.
Qed.

Lemma X6_SerializeBoc_layout_witness :
  SerializeBoc 2 leaf_heap 0%nat true true false 0 = Ok leaf_stream.
Proof.
  refine (eq_trans
            (X6_SerializeBoc_layout 2 leaf_heap leaf_tree true true false 0 _ _ _ _ _ _) _).
  - apply leaf_tree_unfolds.
  - vm_compute. lia.
  - apply tree_ok_b_sound. reflexivity.
  - apply NoDup_distinct_hashes; [apply leaf_tree_unfolds | vm_compute; lia |].
    apply nodupb_sound. vm_compute. reflexivity.
  - vm_compute. lia.
  - lia.
  - vm_compute. reflexivity.
Defined.

Lemma len_PutUint32_le (v : Z) : len (PutUint32_le v) = 4.
Proof. reflexivity. Qed.

(** X7: the number of bytes [SerializeBoc] returns for a graph of [n] < 256
    cells whose cells take [s] bytes in all: 10 bytes of header besides
    the [w] bytes of the data size, [w] bytes per cell of index when the
    index is asked for, the [s] bytes of cells and 4 bytes of checksum
    when asked for, [w] being 1 for [s] below 256 and 2 otherwise. *)
Theorem X7_SerializeBoc_length (fuel : nat) (h : heap) (t : tree)
    (idx hasCrc32 cacheBits : bool) (fl : Z) :
  unfolds h t -> (theight t < fuel)%nat -> tree_ok t ->
  distinct_hashes fuel h t -> (tsize t < 256)%nat -> 0 <= fl < 4 ->
  exists bytes,
    SerializeBoc fuel h (taddr t) idx hasCrc32 cacheBits fl = Ok bytes /\
    let s := len (concat (imap cell_bytes (preorder t))) in
    let w := if s <? 256 then 1 else 2 in
    len bytes = 10 + w + (if idx then w * Z.of_nat (tsize t) else 0) + s
                + (if hasCrc32 then 4 else 0).
Proof.
  intros Hu Hf Hok Hd Hsz Hfl.
  destruct (small_stream_facts fuel h t Hu Hf Hok Hd Hsz) as (Hnd & Hn & Hl & Hfull & Hb).
  eexists. split; [by apply SerializeBoc_unfolds|].
  fold (tcells t). cbv zeta.
  destruct (len_stream_body (tcells t) idx hasCrc32 cacheBits fl Hfull) as (Hlen & _).
  assert (Hw : offsetBytes_of (len (concat (tcells t)))
               = if len (concat (tcells t)) <? 256 then 1 else 2).
  { destruct (Z.ltb_spec (len (concat (tcells t))) 256).
    - apply offsetBytes_of_small. lia.
    - apply offsetBytes_of_medium. lia. }
  rewrite Hw, Hl in Hlen. unfold stream.
  destruct hasCrc32; [rewrite len_app, len_PutUint32_le|]; rewrite Hlen; lia.
Qed.

Lemma X7_SerializeBoc_length_witness :
  exists bytes,
    SerializeBoc 2 leaf_heap 0%nat true true false 0 = Ok bytes /\ len bytes = 19.
Proof.
  destruct (X7_SerializeBoc_length 2 leaf_heap leaf_tree true true false 0)
    as (bytes & Hs & Hlen).
  - apply leaf_tree_unfolds.
  - vm_compute. lia.
  - apply tree_ok_b_sound. reflexivity.
  - apply NoDup_distinct_hashes; [apply leaf_tree_unfolds | vm_compute; lia |].
    apply nodupb_sound. vm_compute. reflexivity.
  - vm_compute. lia.
  - lia.
  - exists bytes. split; [exact Hs | exact Hlen].
Defined.

(** ** Decoding one cell *)

(** X8: [deserializeCellData], with one byte per reference, reads the bytes
    that [bocReprWithoutRefs] gives for a cell, followed by the reference
    bytes, back into an ordinary cell with the same payload bits and four
    empty reference slots, the references as numbers, and the bytes that
    follow as residue. *)
Theorem X8_deserializeCellData_of_repr (c : Cell) (js rest : list Z) :
  cell_ok c -> len js = RefsSize c -> bytes_ok js ->
  exists cell,
    deserializeCellData (bocReprWithoutRefs c ++ js ++ rest) 1 = Ok (cell, js, rest) /\
    written (Bits cell) = written (Bits c) /\
    IsExotic cell = false /\ refs cell = replicate 4 None.
Proof.
  intros Hc Hl Hb. exists (undecoded c).
  split; [by apply deserializeCellData_repr|]. by repeat split.
Qed.

Lemma X8_deserializeCellData_of_repr_witness :
  exists cell,
    deserializeCellData ([0; 1; 184] ++ [] ++ [9; 9]) 1 = Ok (cell, [], [9; 9]) /\
    written (Bits cell) = [true; false; true; true].
Proof.
  destruct (X8_deserializeCellData_of_repr leaf1011 [] [9; 9])
    as (cell & Hd & Hw & _).
  - split; vm_compute; discriminate.
  - reflexivity.
  - constructor.
  - exists cell. split; [exact Hd | exact Hw].
Defined.

(** X9: [deserializeCellData] returns an error for fewer than two bytes,
    and for descriptors that announce more payload and reference bytes
    than follow them. *)
Theorem X9_deserializeCellData_short :
  (forall cellData size,
     len cellData < 2 ->
     deserializeCellData cellData size
     = Err "not enough bytes to encode cell descriptors") /\
  (forall d1 d2 rest size,
     len rest < (d2 + 1) / 2 + size * (d1 mod 8) ->
     deserializeCellData (d1 :: d2 :: rest) size
     = Err "not enough bytes to encode cell data").
Proof.
  split.
  - intros cellData size Hl. unfold deserializeCellData.
    by replace (len cellData <? 2) with true by (symmetry; apply Z.ltb_lt; lia).
  - intros d1 d2 rest size Hl. unfold deserializeCellData.
    replace (len (d1 :: d2 :: rest) <? 2) with false
      by (symmetry; apply Z.ltb_ge; rewrite !len_cons; pose proof (len_nonneg rest); lia).
    rewrite index_0, bind_Ok, index_1, bind_Ok, slice_from_2, bind_Ok. cbv zeta.
    by replace (len rest <? (d2 + 1) / 2 + size * (d1 mod 8)) with true
      by (symmetry; apply Z.ltb_lt; lia).
Qed.

Lemma X9_deserializeCellData_short_witness :
  deserializeCellData [0] 1 = Err "not enough bytes to encode cell descriptors" /\
  deserializeCellData [1; 2; 7] 1 = Err "not enough bytes to encode cell data".
Proof.
  split.
  - apply (proj1 X9_deserializeCellData_short). vm_compute. reflexivity.
  - apply (proj2 X9_deserializeCellData_short). vm_compute. reflexivity.
Defined.

(** ** Depth *)

Lemma fold_max_height (ch : list tree) :
  Forall (fun x => tdepth x = Z.of_nat (theight x) - 1) ch ->
  forall a, 0 <= a ->
  fold_left Z.max (map tdepth ch) a
  = Z.max a (Z.of_nat (foldr Nat.max O (map theight ch)) - 1).
Proof.
  induction 1 as [|x ch Hx _ IH]; intros a Ha; cbn [map fold_left foldr]; [lia|].
  rewrite IH by lia. rewrite Hx, Nat2Z.inj_max. lia.
Qed.

Lemma tdepth_theight (t : tree) : tdepth t = Z.of_nat (theight t) - 1.
Proof.
  induction t as [p c ch IH] using tree_ind_all.
  cbn [tdepth theight]. destruct ch as [|x ch]; [reflexivity|].
  rewrite (fold_max_height (x :: ch) IH 0) by lia.
  assert (1 <= theight x)%nat by (destruct x; simpl; lia).
  cbn [map foldr]. lia.
Qed.

(** X10: on a graph without cycles [getMaxDepth] returns the number of
    references on the longest path from the cell down: 0 for a cell
    without references, otherwise one more than the largest depth of a
    referenced cell. *)
Theorem X10_getMaxDepth_longest_path (fuel : nat) (h : heap) (t : tree) :
  unfolds h t -> (theight t <= fuel)%nat ->
  getMaxDepth fuel h (taddr t) = Ok (Z.of_nat (theight t) - 1) /\
  Z.of_nat (theight t) - 1
  = match tchildren t with
    | [] => 0
    | ch => fold_left Z.max (map (fun x => Z.of_nat (theight x) - 1) ch) 0 + 1
    end.
Proof.
  intros Hu Hf. rewrite <- tdepth_theight. split.
  - by apply getMaxDepth_unfolds.
  - destruct t as [p c ch]. cbn [tdepth tchildren].
    destruct ch as [|x ch]; [reflexivity|]. do 2 f_equal.
    apply map_ext. intros y. apply tdepth_theight.
Qed.

Lemma X10_getMaxDepth_longest_path_witness :
  getMaxDepth 5 two_heap 0%nat = Ok 1.
Proof.
  refine (proj1 (X10_getMaxDepth_longest_path 5 two_heap two_tree _ _)).
  - apply two_tree_unfolds.
  - vm_compute. lia.
Defined.

(** ** Digests *)

Lemma round_length (st : list Z) (kw : Z * Z) :
  length st = 8%nat -> length (SHA256.round st kw) = 8%nat.
Proof.
  intros Hl. do 9 (destruct st as [|? st]; try discriminate Hl). reflexivity.
Qed.

Lemma rounds_length (l : list (Z * Z)) :
  forall st, length st = 8%nat -> length (fold_left SHA256.round l st) = 8%nat.
Proof.
  induction l as [|kw l IH]; intros st Hl; [exact Hl|].
  cbn [fold_left]. apply IH. by apply round_length.
Qed.

Lemma compress_length (hs block : list Z) :
  length hs = 8%nat -> length (SHA256.compress hs block) = 8%nat.
Proof.
  intros Hl. unfold SHA256.compress. cbv zeta.
  rewrite length_map, length_combine, rounds_length by exact Hl. lia.
Qed.

Lemma blocks_length (n : nat) :
  forall hs bs, length hs = 8%nat -> length (SHA256.blocks n hs bs) = 8%nat.
Proof.
  induction n as [|n IH]; intros hs bs Hl; [exact Hl|].
  cbn [SHA256.blocks]. apply IH. by apply compress_length.
Qed.

Lemma Sum256_length (msg : list Z) : length (SHA256.Sum256 msg) = 32%nat.
Proof.
  unfold SHA256.Sum256. cbv zeta.
  pose proof (blocks_length (length (SHA256.pad msg) / 64) SHA256.H0 (SHA256.pad msg)
                eq_refl) as Hl.
  revert Hl. generalize (SHA256.blocks (length (SHA256.pad msg) / 64) SHA256.H0 (SHA256.pad msg)).
  intros l Hl. do 9 (destruct l as [|? l]; try discriminate Hl). reflexivity.
Qed.

(** X11: whenever [Hash] returns, it returns 32 bytes. *)
Theorem X11_Hash_32_bytes (fuel : nat) (h : heap) (c : ptr) (d : list Z) :
  Hash fuel h c = Ok d -> length d = 32%nat /\ bytes_ok d.
Proof.
  unfold Hash, hashCell. destruct (hashRepr fuel h c) as [r| | |]; try discriminate.
  rewrite fmap_Ok. intros [= <-]. split; [apply Sum256_length | apply Sum256_bytes_ok].
Qed.

Lemma X11_Hash_32_bytes_witness :
  exists d, Hash 2 leaf_heap 0%nat = Ok d /\ length d = 32%nat.
Proof.
  eexists. split; [reflexivity|].
  eapply (proj1 (X11_Hash_32_bytes 2 leaf_heap 0%nat _ eq_refl)).
Defined.

Lemma hashCell_bytes (fuel : nat) (h : heap) (c : ptr) (d : list Z) :
  hashCell fuel h c = Ok d -> bytes_ok d.
Proof.
  unfold hashCell. destruct (hashRepr fuel h c) as [r| | |]; try discriminate.
  rewrite fmap_Ok. intros [= <-]. apply Sum256_bytes_ok.
Qed.

(** X12: two cells have the same [HashString] exactly when they have the
    same [Hash]: the keys of the sort are as fine as the digests. *)
Theorem X12_HashString_iff_Hash (fuel : nat) (h : heap) (p q : ptr) :
  HashString fuel h p = HashString fuel h q <-> Hash fuel h p = Hash fuel h q.
Proof.
  unfold HashString, Hash. split; [|by intros ->].
  destruct (hashCell fuel h p) as [a|e|m|] eqn:Ep;
    destruct (hashCell fuel h q) as [b|e'|m'|] eqn:Eq;
    rewrite ?fmap_Ok; try discriminate; try (intros [= ->]; reflexivity); try reflexivity.
  intros [= Hx]. f_equal.
  apply hex_EncodeToString_inj; [by eapply hashCell_bytes..|exact Hx].
Qed.

(** ** The hash of a graph *)

Lemma iso_repr (h h' : heap) :
  forall t t', unfolds h t -> unfolds h' t' -> tree_iso t t' ->
  thashRepr t = thashRepr t' /\ tdepth t = tdepth t'.
Proof.
  induction t as [p c ch IH] using tree_ind_all. intros t' Hu Hu' Hiso.
  inversion Hiso as [p0 c0 ch0 p' c' ch' Hw HF]; subst.
  apply unfolds_inv in Hu as (_ & Hch & Hall).
  apply unfolds_inv in Hu' as (_ & Hch' & Hall').
  assert (HP : Forall2 (fun x y => thashRepr x = thashRepr y /\ tdepth x = tdepth y) ch ch').
  { clear Hch Hch' Hiso. induction HF as [|x y ch ch' Hxy HF IHF]; constructor.
    - apply (Forall_inv IH); [by apply (Forall_inv Hall) | by apply (Forall_inv Hall') | exact Hxy].
    - apply IHF; [by apply (Forall_inv_tail IH) | by apply (Forall_inv_tail Hall)
                  | by apply (Forall_inv_tail Hall')]. }
  assert (Hd : map tdepth ch = map tdepth ch').
  { clear -HP. induction HP as [|x y ch ch' (_ & Hxy) _ IHP]; [reflexivity|].
    cbn [map]. by rewrite Hxy, IHP. }
  assert (Hr : map thashRepr ch = map thashRepr ch').
  { clear -HP. induction HP as [|x y ch ch' (Hxy & _) _ IHP]; [reflexivity|].
    cbn [map]. by rewrite Hxy, IHP. }
  assert (Hb : bocReprWithoutRefs c = bocReprWithoutRefs c').
  { rewrite !bocReprWithoutRefs_spec. unfold RefsSize, BitSize, Cursor, len.
    rewrite <- Hch, <- Hch', !length_map, (Forall2_length _ _ _ HF), Hw. reflexivity. }
  split.
  - cbn [thashRepr]. rewrite Hb. f_equal.
    rewrite <- !(map_map tdepth (fun d => PutUint16_be (uint16 d))).
    rewrite <- !(map_map thashRepr SHA256.Sum256).
    by rewrite Hd, Hr.
  - cbn [tdepth]. rewrite Hd. destruct HF; reflexivity.
Qed.

(** X13: [Hash] depends on the payload bits and the shape of a graph only:
    two graphs without cycles whose unfoldings are isomorphic have the same
    [Hash], wherever their cells are in memory and whatever their kinds. *)
Theorem X13_Hash_of_isomorphic_graphs (fuel fuel' : nat) (h h' : heap) (t t' : tree) :
  unfolds h t -> unfolds h' t' -> tree_iso t t' ->
  (theight t <= fuel)%nat -> (theight t' <= fuel')%nat ->
  Hash fuel h (taddr t) = Hash fuel' h' (taddr t').
Proof.
  intros Hu Hu' Hiso Hf Hf'. unfold Hash.
  rewrite (hashCell_unfolds h t fuel Hu Hf), (hashCell_unfolds h' t' fuel' Hu' Hf').
  unfold thash. by destruct (iso_repr h h' t t' Hu Hu' Hiso) as (-> & _).
Qed.

Lemma X13_Hash_of_isomorphic_graphs_witness :
  Hash 3 two_heap 0%nat = Hash 4 (add_child [NewCellExotic; NewCell] 1%nat 0%nat) 1%nat.
Proof.
  pose (h' := add_child [NewCellExotic; NewCell] 1%nat 0%nat).
  destruct (unfold_from 3 h' 1%nat) as [t'|] eqn:Et; [|vm_compute in Et; discriminate Et].
  pose proof (unfold_from_sound h' 3 1%nat t' Et) as (Hu' & Ha').
  assert (Hiso : tree_iso two_tree t').
  { vm_compute in Et. injection Et as <-. vm_compute. repeat constructor. }
  assert (Hh : (theight two_tree <= 3)%nat) by (vm_compute; lia).
  assert (Hh' : (theight t' <= 4)%nat).
  { vm_compute in Et. injection Et as <-. vm_compute. lia. }
  pose proof (X13_Hash_of_isomorphic_graphs 3 4 two_heap h' two_tree t'
                (proj1 two_tree_unfolds) Hu' Hiso Hh Hh') as H.
  rewrite (proj2 two_tree_unfolds), Ha' in H. exact H.
Defined.

(** X14: on a graph without cycles [Hash] returns, given recursion depth
    for the height of the graph, and the digest is that of the bytes of
    [bocReprWithoutRefs], then the depth of each referenced cell on two
    bytes, then the [Hash] of each referenced cell. *)
Theorem X14_Hash_of_acyclic_graph (fuel : nat) (h : heap) (t : tree) :
  unfolds h t -> (theight t <= fuel)%nat ->
  exists ds,
    Forall2 (fun x d => Hash fuel h (taddr x) = Ok d) (tchildren t) ds /\
    Hash fuel h (taddr t)
    = Ok (SHA256.Sum256
            (bocReprWithoutRefs (tcell t)
             ++ concat (map (fun x => PutUint16_be (uint16 (Z.of_nat (theight x) - 1)))
                            (tchildren t))
             ++ concat ds)).
Proof.
  intros Hu Hf. exists (map thash (tchildren t)). split.
  - destruct t as [p c ch]. apply unfolds_inv in Hu as (_ & _ & Hall).
    cbn [tchildren]. cbn [theight] in Hf.
    apply Forall2_fmap_r, Forall_Forall2_diag.
    rewrite Forall_forall in Hall. apply Forall_forall. intros x Hx.
    unfold Hash. apply hashCell_unfolds; [by apply Hall|].
    apply list_elem_of_In in Hx. pose proof (theight_child x ch Hx). lia.
  - unfold Hash. rewrite (hashCell_unfolds h t fuel Hu Hf).
    destruct t as [p c ch]. unfold thash. cbn [thashRepr tcell tchildren].
    assert (E : map (fun x => PutUint16_be (uint16 (tdepth x))) ch
                = map (fun x => PutUint16_be (uint16 (Z.of_nat (theight x) - 1))) ch)
      by (apply map_ext; intros x; by rewrite tdepth_theight).
    by rewrite E.
Qed.

Lemma X14_Hash_of_acyclic_graph_witness :
  exists d, Hash 3 two_heap 0%nat = Ok d.
Proof.
  destruct (X14_Hash_of_acyclic_graph 3 two_heap two_tree) as (ds & _ & H).
  - apply two_tree_unfolds.
  - vm_compute. lia.
  - rewrite (proj2 two_tree_unfolds) in H. eexists. exact H.
Defined.

(** ** The sorted cells and their indices *)

Lemma index_map_Some (keys : list string) (i : nat) (key : string) :
  NoDup keys -> keys !! i = Some key ->
  index_map keys !! key = Some (Z.of_nat i).
Proof.
  intros Hnd Hi. unfold index_map. rewrite imap_pair.
  by rewrite (index_fold_lookup keys Hnd 0 ∅ i key Hi).
Qed.

Lemma sorted_cell (h : heap) (t : tree) (i : nat) (p : ptr) :
  unfolds h t -> map taddr (preorder t) !! i = Some p ->
  exists c ch, preorder t !! i = Some (Node p c ch) /\ unfolds h (Node p c ch).
Proof.
  intros Hu Hi. rewrite list_lookup_fmap in Hi.
  destruct (preorder t !! i) as [x|] eqn:Ex; [|discriminate Hi].
  injection Hi as Hx. destruct x as [p' c ch]. cbn [taddr] in Hx. subst p'.
  exists c, ch. split; [reflexivity|].
  pose proof (preorder_unfolds h t Hu) as Hall. rewrite Forall_forall in Hall.
  eapply Hall, list_elem_of_lookup_2, Ex.
Qed.

Lemma sorted_graph (fuel : nat) (h : heap) (t : tree) :
  unfolds h t -> (theight t < fuel)%nat -> distinct_hashes fuel h t ->
  NoDup (map thashString (preorder t)) /\
  topologicalSort fuel h (taddr t)
  = Ok (map taddr (preorder t), index_map (map thashString (preorder t))).
Proof.
  intros Hu Hf Hd.
  assert (Hnd : NoDup (map thashString (preorder t)))
    by (apply (distinct_hashes_NoDup fuel h t Hu); [lia | exact Hd]).
  split; [exact Hnd|].
  rewrite (topologicalSort_unfolds fuel h t Hu Hf).
  destruct (visit_Some (map thashString (preorder t)) ∅ Hnd) as (s' & ->);
    [intros k _; by rewrite lookup_empty | reflexivity].
Qed.

(** X15: when [topologicalSort] succeeds on a graph without cycles, the map
    it returns sends the [HashString] of the cell at position [i] of the
    list it returns to [i]. *)
Theorem X15_topologicalSort_index_map (fuel : nat) (h : heap) (t : tree) :
  unfolds h t -> (theight t < fuel)%nat -> distinct_hashes fuel h t ->
  exists cells indexesMap,
    topologicalSort fuel h (taddr t) = Ok (cells, indexesMap) /\
    forall i p,
      cells !! i = Some p ->
      exists s, HashString fuel h p = Ok s /\ indexesMap !! s = Some (Z.of_nat i).
Proof.
  intros Hu Hf Hd.
  destruct (sorted_graph fuel h t Hu Hf Hd) as (Hnd & Hts).
  eexists _, _. split; [exact Hts|]. intros i p Hi.
  destruct (sorted_cell h t i p Hu Hi) as (c & ch & Ex & Hux).
  exists (thashString (Node p c ch)). split.
  - apply (HashString_unfolds h (Node p c ch)); [exact Hux|].
    apply list_elem_of_lookup_2, list_elem_of_In, preorder_height in Ex. lia.
  - apply index_map_Some; [exact Hnd|]. by rewrite list_lookup_fmap, Ex.
Qed.

Lemma X15_topologicalSort_index_map_witness :
  exists cells indexesMap s,
    topologicalSort 5 two_heap 0%nat = Ok (cells, indexesMap) /\
    cells !! 1%nat = Some 1%nat /\
    HashString 5 two_heap 1%nat = Ok s /\ indexesMap !! s = Some 1.
Proof.
  destruct (X15_topologicalSort_index_map 5 two_heap two_tree)
    as (cells & m & Hts & Hall).
  - apply two_tree_unfolds.
  - vm_compute. lia.
  - apply NoDup_distinct_hashes; [apply two_tree_unfolds | vm_compute; lia |].
    apply nodupb_sound. vm_compute. reflexivity.
  - rewrite (proj2 two_tree_unfolds) in Hts.
    assert (Hc : cells !! 1%nat = Some 1%nat).
    { destruct (sorted_graph 5 two_heap two_tree) as (_ & Hts').
      - apply two_tree_unfolds.
      - vm_compute. lia.
      - apply NoDup_distinct_hashes; [apply two_tree_unfolds | vm_compute; lia |].
        apply nodupb_sound. vm_compute. reflexivity.
      - rewrite (proj2 two_tree_unfolds), Hts in Hts'. injection Hts' as -> _.
        reflexivity. }
    destruct (Hall 1%nat 1%nat Hc) as (s & Hs & Hm).
    exists cells, m, s. by repeat split.
Defined.

(** X16: with the map of [topologicalSort], [bocRepr] of the cell at
    position [i] of the sorted list is the bytes of [bocReprWithoutRefs]
    followed by one byte per reference, the position of the referenced
    cell in the list, which is after [i]. *)
Theorem X16_bocRepr_reference_bytes (fuel : nat) (h : heap) (t : tree) :
  unfolds h t -> (theight t < fuel)%nat -> distinct_hashes fuel h t ->
  exists cells indexesMap,
    topologicalSort fuel h (taddr t) = Ok (cells, indexesMap) /\
    forall i p c,
      cells !! i = Some p -> h !! p = Some c ->
      exists js,
        bocRepr fuel h p indexesMap
        = Ok (bocReprWithoutRefs c ++ map (fun j => byte (Z.of_nat j)) js) /\
        Forall2 (fun j q => (i < j)%nat /\ cells !! j = Some q) js (Refs c).
Proof.
  intros Hu Hf Hd.
  destruct (sorted_graph fuel h t Hu Hf Hd) as (Hnd & Hts).
  eexists _, _. split; [exact Hts|]. intros i p c Hi Hp.
  destruct (sorted_cell h t i p Hu Hi) as (c' & ch & Ex & Hux).
  pose proof (bocRepr_unfolds fuel h t i (Node p c' ch) Hu ltac:(lia) Hnd Ex) as Hb.
  apply unfolds_inv in Hux as (Hp' & Hch & _).
  rewrite Hp in Hp'. injection Hp' as <-.
  exists (child_indices (S i) ch). split; [exact Hb|].
  rewrite <- Hch. apply Forall2_fmap_r.
  apply Forall2_same_length_lookup_2; [by rewrite child_indices_length|].
  intros k j y Hj Hy.
  destruct (preorder_child t i (Node p c ch) Ex k j y Hj Hy) as (Hlt & Hjy).
  split; [exact Hlt|]. by rewrite list_lookup_fmap, Hjy.
Qed.

Lemma X16_bocRepr_reference_bytes_witness :
  exists indexesMap c js,
    two_heap !! 0%nat = Some c /\
    bocRepr 5 two_heap 0%nat indexesMap
    = Ok (bocReprWithoutRefs c ++ map (fun j => byte (Z.of_nat j)) js) /\
    length js = length (Refs c).
Proof.
  assert (Hd : distinct_hashes 5 two_heap two_tree).
  { apply NoDup_distinct_hashes; [apply two_tree_unfolds | vm_compute; lia |].
    apply nodupb_sound. vm_compute. reflexivity. }
  assert (Hf : (theight two_tree < 5)%nat) by (vm_compute; lia).
  destruct (X16_bocRepr_reference_bytes 5 two_heap two_tree (proj1 two_tree_unfolds) Hf Hd)
    as (cells & m & Hts & Hall).
  destruct (sorted_graph 5 two_heap two_tree (proj1 two_tree_unfolds) Hf Hd) as (_ & Hts').
  rewrite Hts in Hts'. injection Hts' as -> _.
  destruct (two_heap !! 0%nat) as [c|] eqn:Ec; [|vm_compute in Ec; discriminate Ec].
  destruct (Hall 0%nat 0%nat c eq_refl Ec) as (js & Hb & HF).
  exists m, c, js. split; [reflexivity|]. split; [exact Hb|].
  exact (Forall2_length _ _ _ HF).
Defined.

(** ** Reference slots *)

(** X17: [AddReference] with a nil cell, on a cell that does not hold four
    cells yet, returns no error and appends an empty slot: [Refs] lists
    the same cells as before. *)
Theorem X17_AddReference_nil (h : heap) (c : ptr) (cell : Cell) :
  h !! c = Some cell -> RefsSize cell <> 4 ->
  exists cell',
    AddReference h c None = Ok (<[c := cell']> h, None) /\
    refs cell' = refs cell ++ [None] /\ Refs cell' = Refs cell.
Proof.
  intros Hc Hn. exists (set_refs cell (refs cell ++ [None])).
  unfold AddReference, deref. rewrite Hc, bind_Ok.
  replace (RefsSize cell =? 4) with false by (symmetry; by apply Z.eqb_neq).
  split; [reflexivity|]. split; [reflexivity|].
  rewrite !Refs_omap. cbn [set_refs refs]. rewrite omap_app. cbn [omap].
  apply app_nil_r.
Qed.

Lemma X17_AddReference_nil_witness :
  exists cell',
    AddReference [NewCell] 0%nat None = Ok ([cell'], None) /\
    length (refs cell') = 5%nat /\ Refs cell' = [].
Proof.
  destruct (X17_AddReference_nil [NewCell] 0%nat NewCell eq_refl)
    as (cell' & Ha & Hr & HR).
  - vm_compute. discriminate.
  - exists cell'. split; [exact Ha|]. split; [by rewrite Hr | exact HR].
Defined.

Lemma length_omap_id (l : list (option ptr)) : (length (omap id l) <= length l)%nat.
Proof. unfold omap. induction l as [|[x|] l IH]; simpl in *; lia. Qed.

(** X18: [Refs] lists the cells of the non-empty slots, in slot order; so
    [RefsSize] is at most the number of slots, and a cell is listed exactly
    when a slot holds it. *)
Theorem X18_Refs_nonempty_slots (c : Cell) :
  Refs c = omap id (refs c) /\
  RefsSize c <= len (refs c) /\
  forall q, In q (Refs c) <-> In (Some q) (refs c).
Proof.
  rewrite Refs_omap. split; [reflexivity|]. split.
  - unfold RefsSize, len. rewrite Refs_omap.
    pose proof (length_omap_id (refs c)) as H. lia.
  - intros q. rewrite <- !list_elem_of_In, list_elem_of_omap. split.
    + intros ([x|] & Hx & Hq); [|discriminate Hq]. simpl in Hq. by injection Hq as ->.
    + intros Hq. by exists (Some q).
Qed.

(** ** The bytes of one cell *)

(** X19: for a cell of at most 1023 payload bits, [bocReprWithoutRefs]
    gives the reference count, a second descriptor byte and the payload on
    the least number of bytes; half the second descriptor, rounded up, is
    that number of bytes, and the descriptor is even exactly when the
    payload ends on a byte boundary. *)
Theorem X19_bocReprWithoutRefs_descriptors (c : Cell) :
  BitSize c <= 1023 ->
  exists d2 payload,
    bocReprWithoutRefs c = byte (RefsSize c) :: d2 :: payload /\
    0 <= d2 < 256 /\
    len payload = (BitSize c + 7) / 8 /\
    (d2 + 1) / 2 = len payload /\
    (d2 mod 2 = 0 <-> BitSize c mod 8 = 0).
Proof.
  intros Hb.
  assert (H0 : 0 <= BitSize c) by (unfold BitSize, Cursor; apply len_nonneg).
  destruct (descriptor_d2 (BitSize c) ltac:(lia)) as (Hd & Hh & Hp).
  assert (Hd2 : byte ((BitSize c + 7) / 8 + BitSize c / 8)
                = (BitSize c + 7) / 8 + BitSize c / 8) by (apply byte_small; lia).
  rewrite bocReprWithoutRefs_spec, Hd2.
  assert (Hl : len (top_upped (written (Bits c))) = (BitSize c + 7) / 8)
    by apply len_top_upped.
  eexists _, _. split; [reflexivity|]. split; [exact Hd|].
  split; [exact Hl|]. split; [by rewrite Hl|].
  pose proof (Z.mod_pos_bound ((BitSize c + 7) / 8 + BitSize c / 8) 2 ltac:(lia)).
  destruct (Z.eqb_spec (BitSize c mod 8) 0) as [E|E];
    destruct (Z.ltb_spec 0 (((BitSize c + 7) / 8 + BitSize c / 8) mod 2));
    simpl in Hp; try discriminate Hp; split; intros; lia.
Qed.

Lemma X19_bocReprWithoutRefs_descriptors_witness :
  exists d2 payload,
    bocReprWithoutRefs leaf1011 = byte (RefsSize leaf1011) :: d2 :: payload /\
    (d2 + 1) / 2 = len payload.
Proof.
  destruct (X19_bocReprWithoutRefs_descriptors leaf1011)
    as (d2 & payload & Hr & _ & _ & Hh & _).
  - vm_compute. discriminate.
  - exists d2, payload. split; [exact Hr | exact Hh].
Defined.

(** ** Text output *)

Lemma SerializeBoc_bytes_ok (fuel : nat) (h : heap) (c : ptr)
    (idx hasCrc32 cacheBits : bool) (fl : Z) (boc : list Z) :
  SerializeBoc fuel h c idx hasCrc32 cacheBits fl = Ok boc -> bytes_ok boc.
Proof.
  unfold SerializeBoc. cbv zeta. intros H.
  inv_bind H as ts Ets. inv_bind H as sz Esz.
  inv_bind H as s1 Es1. inv_bind H as s2 Es2.
  unfold GetTopUppedArray in H. rewrite bind_Ok in H.
  destruct hasCrc32; injection H as <-.
  - apply Forall_app. split; [apply top_upped_bytes_ok|].
    unfold PutUint32_le. repeat constructor; apply byte_is_byte.
  - apply top_upped_bytes_ok.
Qed.

(** X20: [ToBocStringCustom] returns the error of [SerializeBoc] when there
    is one, and otherwise a text of two characters per byte that
    determines the bytes: two calls return the same text exactly when
    [SerializeBoc] returns the same for both. *)
Theorem X20_ToBocStringCustom_text (fuel : nat) (h : heap) (c c' : ptr)
    (idx idx' hasCrc32 hasCrc32' cacheBits cacheBits' : bool) (fl fl' : Z) :
  ToBocStringCustom fuel h c idx hasCrc32 cacheBits fl
  = ToBocStringCustom fuel h c' idx' hasCrc32' cacheBits' fl'
  <-> SerializeBoc fuel h c idx hasCrc32 cacheBits fl
      = SerializeBoc fuel h c' idx' hasCrc32' cacheBits' fl'.
Proof.
  unfold ToBocStringCustom, ToBocCustom. split; [|by intros ->].
  destruct (SerializeBoc fuel h c idx hasCrc32 cacheBits fl) as [a|e|m|] eqn:Ea;
    destruct (SerializeBoc fuel h c' idx' hasCrc32' cacheBits' fl') as [b|e'|m'|] eqn:Eb;
    try discriminate; try (intros [= ->]; reflexivity); try reflexivity.
  intros [= Hx]. f_equal.
  apply hex_EncodeToString_inj; [by eapply SerializeBoc_bytes_ok..|exact Hx].
Qed.

(** ** Bytes of isomorphic graphs *)

Lemma iso_preorder :
  forall t t', tree_iso t t' -> Forall2 tree_iso (preorder t) (preorder t').
Proof.
  induction t as [p c ch IH] using tree_ind_all. intros t' Hiso.
  inversion Hiso as [p0 c0 ch0 p' c' ch' Hw HF]; subst.
  cbn [preorder]. constructor; [exact Hiso|]. clear Hiso Hw.
  induction HF as [|x y ch ch' Hxy HF IHF]; [constructor|].
  cbn [map concat]. apply Forall2_app.
  - by apply (Forall_inv IH).
  - apply IHF. by apply (Forall_inv_tail IH).
Qed.

Lemma iso_tsize (t t' : tree) : tree_iso t t' -> tsize t = tsize t'.
Proof. intros Hiso. unfold tsize. by apply (Forall2_length _ _ _ (iso_preorder t t' Hiso)). Qed.

Lemma iso_child_indices (ch ch' : list tree) :
  Forall2 tree_iso ch ch' -> forall b, child_indices b ch = child_indices b ch'.
Proof.
  induction 1 as [|x y ch ch' Hxy _ IH]; intros b; [reflexivity|].
  cbn [child_indices]. by rewrite (iso_tsize x y Hxy), IH.
Qed.

Lemma iso_cell (h h' : heap) (x y : tree) :
  unfolds h x -> unfolds h' y -> tree_iso x y ->
  bocReprWithoutRefs (tcell x) = bocReprWithoutRefs (tcell y) /\
  RefsSize (tcell x) = RefsSize (tcell y) /\
  BitSize (tcell x) = BitSize (tcell y).
Proof.
  intros Hu Hu' Hiso.
  pose proof (unfolds_arity h x Hu) as Hr. pose proof (unfolds_arity h' y Hu') as Hr'.
  inversion Hiso as [p c ch p' c' ch' Hw HF]; subst. cbn [tcell tchildren] in *.
  assert (HR : RefsSize c = RefsSize c')
    by (rewrite Hr, Hr'; unfold len; by rewrite (Forall2_length _ _ _ HF)).
  assert (HB : BitSize c = BitSize c') by (unfold BitSize, Cursor; by rewrite Hw).
  split; [|by split].
  rewrite !bocReprWithoutRefs_spec. by rewrite HR, HB, Hw.
Qed.

Lemma iso_positions (h h' : heap) (t t' : tree) :
  unfolds h t -> unfolds h' t' -> tree_iso t t' ->
  forall k x y, preorder t !! k = Some x -> preorder t' !! k = Some y ->
  tree_iso x y /\ unfolds h x /\ unfolds h' y.
Proof.
  intros Hu Hu' Hiso k x y Hx Hy.
  pose proof (preorder_unfolds h t Hu) as Hall. rewrite Forall_forall in Hall.
  pose proof (preorder_unfolds h' t' Hu') as Hall'. rewrite Forall_forall in Hall'.
  split; [|split].
  - exact (Forall2_lookup_lr _ _ _ _ _ _ (iso_preorder t t' Hiso) Hx Hy).
  - eapply Hall, list_elem_of_lookup_2, Hx.
  - eapply Hall', list_elem_of_lookup_2, Hy.
Qed.

Lemma iso_pointwise {B : Type} (f : nat -> tree -> B) (h h' : heap) (t t' : tree) :
  unfolds h t -> unfolds h' t' -> tree_iso t t' ->
  (forall k x y, tree_iso x y -> unfolds h x -> unfolds h' y -> f k x = f k y) ->
  imap f (preorder t) = imap f (preorder t').
Proof.
  intros Hu Hu' Hiso Hf. apply list_eq. intros k. rewrite !list_lookup_imap.
  pose proof (Forall2_length _ _ _ (iso_preorder t t' Hiso)) as Hl.
  destruct (preorder t !! k) as [x|] eqn:Ex.
  - destruct (preorder t' !! k) as [y|] eqn:Ey.
    + destruct (iso_positions h h' t t' Hu Hu' Hiso k x y Ex Ey) as (Hxy & Hx & Hy).
      simpl. f_equal. by apply Hf.
    + apply lookup_lt_Some in Ex. apply lookup_ge_None in Ey. lia.
  - destruct (preorder t' !! k) as [y|] eqn:Ey; [|reflexivity].
    apply lookup_lt_Some in Ey. apply lookup_ge_None in Ex. lia.
Qed.

Lemma iso_tcells (h h' : heap) (t t' : tree) :
  unfolds h t -> unfolds h' t' -> tree_iso t t' -> tcells t = tcells t'.
Proof.
  intros Hu Hu' Hiso. unfold tcells.
  apply (iso_pointwise cell_bytes h h' t t' Hu Hu' Hiso).
  intros k x y Hxy Hx Hy. unfold cell_bytes.
  destruct (iso_cell h h' x y Hx Hy Hxy) as (-> & _). f_equal. f_equal.
  inversion Hxy; subst. cbn [tchildren]. by apply iso_child_indices.
Qed.

Lemma iso_keys (h h' : heap) (t t' : tree) :
  unfolds h t -> unfolds h' t' -> tree_iso t t' ->
  map thashString (preorder t) = map thashString (preorder t').
Proof.
  intros Hu Hu' Hiso.
  pose proof (iso_pointwise (const thashString) h h' t t' Hu Hu' Hiso) as H.
  rewrite !imap_const in H. apply H.
  intros k x y Hxy Hx Hy. unfold const, thashString, thash.
  by destruct (iso_repr h h' x y Hx Hy Hxy) as (-> & _).
Qed.

Lemma iso_tree_ok (h h' : heap) (t t' : tree) :
  unfolds h t -> unfolds h' t' -> tree_iso t t' -> tree_ok t -> tree_ok t'.
Proof.
  intros Hu Hu' Hiso Hok. unfold tree_ok in *.
  rewrite Forall_forall in Hok. apply Forall_forall. intros y Hy.
  apply list_elem_of_lookup_1 in Hy as (k & Ey).
  pose proof (Forall2_length _ _ _ (iso_preorder t t' Hiso)) as Hl.
  destruct (preorder t !! k) as [x|] eqn:Ex;
    [|apply lookup_lt_Some in Ey; apply lookup_ge_None in Ex; lia].
  destruct (iso_positions h h' t t' Hu Hu' Hiso k x y Ex Ey) as (Hxy & Hx & Hy').
  destruct (iso_cell h h' x y Hx Hy' Hxy) as (_ & HR & HB).
  specialize (Hok x (list_elem_of_lookup_2 _ _ _ Ex)).
  unfold cell_ok in *. rewrite <- HR, <- HB. exact Hok.
Qed.

Lemma iso_theight (h h' : heap) (t t' : tree) :
  unfolds h t -> unfolds h' t' -> tree_iso t t' -> theight t = theight t'.
Proof.
  intros Hu Hu' Hiso. destruct (iso_repr h h' t t' Hu Hu' Hiso) as (_ & Hd).
  rewrite !tdepth_theight in Hd. lia.
Qed.

Lemma iso_SerializeBoc (fuel : nat) (h h' : heap) (t t' : tree)
    (idx hasCrc32 cacheBits : bool) (fl : Z) :
  unfolds h t -> unfolds h' t' -> tree_iso t t' ->
  (theight t < fuel)%nat -> tree_ok t -> (tsize t < 256)%nat ->
  NoDup (map thashString (preorder t)) -> 0 <= fl < 4 ->
  SerializeBoc fuel h' (taddr t') idx hasCrc32 cacheBits fl
  = Ok (stream (tcells t) idx hasCrc32 cacheBits fl).
Proof.
  intros Hu Hu' Hiso Hf Hok Hsz Hnd Hfl.
  rewrite (iso_tcells h h' t t' Hu Hu' Hiso).
  apply SerializeBoc_unfolds; try assumption.
  - by rewrite <- (iso_theight h h' t t' Hu Hu' Hiso).
  - by apply (iso_tree_ok h h' t t').
  - by rewrite <- (iso_tsize t t' Hiso).
  - by rewrite <- (iso_keys h h' t t' Hu Hu' Hiso).
Qed.

(** X21: the bytes of [SerializeBoc] depend on the payload bits and the
    shape of the graph only: for two graphs without cycles whose unfoldings
    are isomorphic, of fewer than 256 cells each, [SerializeBoc] returns
    the same bytes, wherever the cells are in memory. *)
Theorem X21_SerializeBoc_of_isomorphic_graphs (fuel : nat) (h h' : heap) (t t' : tree)
    (idx hasCrc32 cacheBits : bool) (fl : Z) :
  unfolds h t -> unfolds h' t' -> tree_iso t t' ->
  (theight t < fuel)%nat -> tree_ok t -> distinct_hashes fuel h t ->
  (tsize t < 256)%nat -> 0 <= fl < 4 ->
  exists bytes,
    SerializeBoc fuel h (taddr t) idx hasCrc32 cacheBits fl = Ok bytes /\
    SerializeBoc fuel h' (taddr t') idx hasCrc32 cacheBits fl = Ok bytes.
Proof.
  intros Hu Hu' Hiso Hf Hok Hd Hsz Hfl.
  assert (Hnd : NoDup (map thashString (preorder t)))
    by (apply (distinct_hashes_NoDup fuel h t Hu); [lia | exact Hd]).
  exists (stream (tcells t) idx hasCrc32 cacheBits fl). split.
  - by apply SerializeBoc_unfolds.
  - by apply (iso_SerializeBoc fuel h h' t t').
Qed.

(** X22: the bytes of [SerializeBoc] are a fixed point of decoding and
    encoding again: for a graph of fewer than 256 cells, [SerializeBoc]
    applied to the root that [DeserializeBoc] returns for the bytes gives
    the same bytes. *)
Theorem X22_reencoding_is_stable (fuel : nat) (h : heap) (t : tree)
    (idx hasCrc32 cacheBits : bool) (fl : Z) :
  unfolds h t -> (theight t < fuel)%nat -> tree_ok t ->
  distinct_hashes fuel h t -> (tsize t < 256)%nat -> 0 <= fl < 4 ->
  exists bytes h' r,
    SerializeBoc fuel h (taddr t) idx hasCrc32 cacheBits fl = Ok bytes /\
    DeserializeBoc bytes = Ok (h', [Some r]) /\
    SerializeBoc fuel h' r idx hasCrc32 cacheBits fl = Ok bytes.
Proof.
  intros Hu Hf Hok Hd Hsz Hfl.
  assert (Hnd : NoDup (map thashString (preorder t)))
    by (apply (distinct_hashes_NoDup fuel h t Hu); [lia | exact Hd]).
  destruct (roundtrip_unfolds fuel h t idx hasCrc32 cacheBits fl Hu Hf Hok Hsz Hnd Hfl)
    as (Hs & Hde & Hu' & _ & _).
  exists (stream (tcells t) idx hasCrc32 cacheBits fl), (decoded_heap t), 0%nat.
  split; [exact Hs|]. split; [exact Hde|].
  pose proof (iso_SerializeBoc fuel h (decoded_heap t) t (decoded_tree 0 t)
                idx hasCrc32 cacheBits fl Hu Hu' (decoded_tree_iso t 0)
                Hf Hok Hsz Hnd Hfl) as H.
  destruct t as [p c ch]. exact H.
Qed.

Lemma two_tree_premises :
  (theight two_tree < 5)%nat /\ tree_ok two_tree /\
  distinct_hashes 5 two_heap two_tree /\ (tsize two_tree < 256)%nat.
Proof.
  split; [vm_compute; lia|]. split; [apply tree_ok_b_sound; reflexivity|].
  split; [|vm_compute; lia].
  apply NoDup_distinct_hashes; [apply two_tree_unfolds | vm_compute; lia |].
  apply nodupb_sound. vm_compute. reflexivity.
Qed.

Lemma X21_SerializeBoc_of_isomorphic_graphs_witness :
  exists bytes,
    SerializeBoc 5 two_heap 0%nat true true false 0 = Ok bytes /\
    SerializeBoc 5 (add_child [NewCellExotic; NewCell] 1%nat 0%nat) 1%nat
                 true true false 0 = Ok bytes.
Proof.
  pose (h' := add_child [NewCellExotic; NewCell] 1%nat 0%nat).
  destruct (unfold_from 3 h' 1%nat) as [t'|] eqn:Et; [|vm_compute in Et; discriminate Et].
  pose proof (unfold_from_sound h' 3 1%nat t' Et) as (Hu' & Ha').
  assert (Hiso : tree_iso two_tree t').
  { vm_compute in Et. injection Et as <-. vm_compute. repeat constructor. }
  destruct two_tree_premises as (Hf & Hok & Hd & Hsz).
  destruct (X21_SerializeBoc_of_isomorphic_graphs 5 two_heap h' two_tree t'
              true true false 0 (proj1 two_tree_unfolds) Hu' Hiso Hf Hok Hd Hsz)
    as (bytes & H1 & H2); [lia|].
  rewrite (proj2 two_tree_unfolds) in H1. rewrite Ha' in H2.
  exists bytes. split; [exact H1 | exact H2].
Defined.

Lemma X22_reencoding_is_stable_witness :
  exists bytes h' r,
    SerializeBoc 5 two_heap 0%nat true true false 0 = Ok bytes /\
    DeserializeBoc bytes = Ok (h', [Some r]) /\
    SerializeBoc 5 h' r true true false 0 = Ok bytes.
Proof.
  destruct two_tree_premises as (Hf & Hok & Hd & Hsz).
  destruct (X22_reencoding_is_stable 5 two_heap two_tree true true false 0
              (proj1 two_tree_unfolds) Hf Hok Hd Hsz)
    as (bytes & h' & r & H1 & H2 & H3); [lia|].
  rewrite (proj2 two_tree_unfolds) in H1.
  exists bytes, h', r. split; [exact H1|]. split; [exact H2 | exact H3].
Defined.
